(** * The websocket fan-out handler of the mempool backend

    A shallow embedding of [backend/src/api/websocket-handler.ts]: the
    address validator [testAddress], the response serializer
    [serializeResponse], the shared snapshot ([socketData] and
    [serializedInitData]), the inbound protocol decoder (the ['message']
    callback of [setupConnectionHandling]) and the per-client parts of the
    mempool-delta and new-block fan-outs.

    JavaScript strings are modelled as [string]; objects whose key order is
    observable (they are serialized through [Object.keys]) are association
    lists in insertion order; [Set]s and pure lookup tables are [gset]s and
    [gmap]s. *)

From Stdlib Require Import Ascii String List Bool Arith Lia NArith ZArith.
From Stdlib Require Import DecimalString DecimalZ.
From stdpp Require Import base decidable option list strings gmap.
Import ListNotations.

Local Open Scope nat_scope.

(** ** Characters and strings *)

Module Chars.

Definition code (c : ascii) : nat := nat_of_ascii c.

(** A range [lo-hi] inside a character class. *)
Definition in_range (lo hi c : ascii) : bool :=
  (code lo <=? code c) && (code c <=? code hi).

(** A character class [[...]] is the list of its ranges. *)
Definition in_class (ranges : list (ascii * ascii)) (c : ascii) : bool :=
  existsb (fun r => in_range (fst r) (snd r) c) ranges.

(** [String.prototype.toLowerCase], on the ASCII letters. The handler only
    applies it to strings a regular expression has confined to ASCII letters
    and digits. *)
Definition lower (c : ascii) : ascii :=
  if in_range "A" "Z" c then ascii_of_nat (code c + 32) else c.

Definition all_ascii : list ascii := map ascii_of_nat (seq 0 256).

End Chars.

Definition chars (s : string) : list ascii := list_ascii_of_string s.
Definition text (l : list ascii) : string := string_of_list_ascii l.

Definition toLowerCase (s : string) : string := text (map Chars.lower (chars s)).

(** ** Regular expressions

    The fragment of JavaScript regular expressions the handler uses:
    anchors, literals, character classes, sequence, alternation and counted
    repetition. [match_from n r s] lists the remainders of [s] after every
    way [r] can match a prefix of it; [n] is the length of the whole subject,
    so that [^] can tell whether [s] is the whole subject. *)

Inductive regex : Type :=
| Bol                                    (* ^ *)
| Eol                                    (* $ *)
| Lit (c : ascii)                        (* a literal character *)
| Cls (ranges : list (ascii * ascii))    (* [a-fA-F0-9] *)
| Seq (r1 r2 : regex)                    (* r1r2 *)
| Alt (r1 r2 : regex)                    (* r1|r2 *)
| Rep (r : regex) (lo : nat) (hi : option nat). (* r{lo,hi}; r+ has no hi *)

Fixpoint iter_from (step : list ascii -> list (list ascii)) (lo hi : nat)
    (s : list ascii) : list (list ascii) :=
  match hi with
  | 0 => match lo with 0 => [s] | S _ => [] end
  | S hi' =>
      match lo with 0 => [s] | S _ => [] end
      ++ flat_map (iter_from step (pred lo) hi') (step s)
  end.

Fixpoint match_from (n : nat) (r : regex) (s : list ascii) : list (list ascii) :=
  match r with
  | Bol => if length s =? n then [s] else []
  | Eol => match s with [] => [s] | _ :: _ => [] end
  | Lit c => match s with
             | c' :: s' => if Ascii.eqb c c' then [s'] else []
             | [] => []
             end
  | Cls ranges => match s with
                  | c' :: s' => if Chars.in_class ranges c' then [s'] else []
                  | [] => []
                  end
  | Seq r1 r2 => flat_map (match_from n r2) (match_from n r1 s)
  | Alt r1 r2 => match_from n r1 s ++ match_from n r2 s
  | Rep r lo hi =>
      iter_from (match_from n r) lo
        (match hi with Some h => h | None => lo + length s end) s
  end.

Fixpoint tails (s : list ascii) : list (list ascii) :=
  s :: match s with [] => [] | _ :: s' => tails s' end.

Definition nonempty {A} (l : list A) : bool :=
  match l with [] => false | _ :: _ => true end.

(** [RegExp.prototype.test]: is there a match starting anywhere in the
    subject. *)
Definition test (r : regex) (s : string) : bool :=
  existsb (fun t => nonempty (match_from (length (chars s)) r t)) (tails (chars s)).

Definition times (r : regex) (k : nat) : regex := Rep r k (Some k).
Definition between (r : regex) (lo hi : nat) : regex := Rep r lo (Some hi).
Definition plus (r : regex) : regex := Rep r 1 None.
Definition anchored (r : regex) : regex := Seq Bol (Seq r Eol).

(** ** The address validator *)

Module Address.

(** The character classes of the validator. *)
Definition base58 : list (ascii * ascii) :=
  [("a", "k"); ("m", "z"); ("A", "H"); ("J", "N"); ("P", "Z"); ("1", "9")]%char.
Definition lower_alpha : list (ascii * ascii) := [("a", "z")]%char.
Definition upper_alpha : list (ascii * ascii) := [("A", "Z")]%char.
Definition bech32_lower : list (ascii * ascii) :=
  [("a", "a"); ("c", "h"); ("j", "n"); ("p", "z"); ("0", "0"); ("2", "9")]%char.
Definition bech32_upper : list (ascii * ascii) :=
  [("A", "A"); ("C", "H"); ("J", "N"); ("P", "Z"); ("0", "0"); ("2", "9")]%char.
Definition hex : list (ascii * ascii) :=
  [("a", "f"); ("A", "F"); ("0", "9")]%char.

(** The six alternatives of the classifier, in the order of the source. *)
(* [a-km-zA-HJ-NP-Z1-9]{26,35} *)
Definition legacy_short : regex := between (Cls base58) 26 35.
(* [a-km-zA-HJ-NP-Z1-9]{80} *)
Definition legacy_long : regex := times (Cls base58) 80.
(* [a-z]{2,5}1[ac-hj-np-z02-9]{8,100} *)
Definition bech32 : regex :=
  Seq (between (Cls lower_alpha) 2 5) (Seq (Lit "1") (between (Cls bech32_lower) 8 100)).
(* [A-Z]{2,5}1[AC-HJ-NP-Z02-9]{8,100} *)
Definition bech32_caps : regex :=
  Seq (between (Cls upper_alpha) 2 5) (Seq (Lit "1") (between (Cls bech32_upper) 8 100)).
(* 04[a-fA-F0-9]{128} *)
Definition uncompressed : regex :=
  Seq (Lit "0") (Seq (Lit "4") (times (Cls hex) 128)).
(* (02|03)[a-fA-F0-9]{64} *)
Definition compressed : regex :=
  Seq (Alt (Seq (Lit "0") (Lit "2")) (Seq (Lit "0") (Lit "3"))) (times (Cls hex) 64).

(* /^(legacy_short|legacy_long|bech32|bech32_caps|uncompressed|compressed)$/ *)
Definition re_address : regex :=
  anchored (Alt legacy_short (Alt legacy_long (Alt bech32
             (Alt bech32_caps (Alt uncompressed compressed))))).

(* /^bech32_caps|uncompressed|compressed$/ : the anchors bind to the first
   and to the last alternative only. *)
Definition re_lowercase : regex :=
  Alt (Seq Bol bech32_caps) (Alt uncompressed (Seq compressed Eol)).

(* /^04[a-fA-F0-9]{128}$/ and /^(02|03)[a-fA-F0-9]{64}$/ *)
Definition re_uncompressed : regex := anchored uncompressed.
Definition re_compressed : regex := anchored compressed.

(** [testAddress]: [None] is the source's [false]. *)
Definition testAddress (address : string) : option string :=
  if test re_address address then
    let address :=
      if test re_lowercase address then toLowerCase address else address in
    if test re_uncompressed address then Some ("41" +:+ address +:+ "ac")
    else if test re_compressed address then Some ("21" +:+ address +:+ "ac")
    else Some address
  else None.

(** The classes of the classifier, each alternative between [^] and [$]. *)
Definition is_legacy (s : string) : bool :=
  test (anchored legacy_short) s || test (anchored legacy_long) s.
Definition is_bech32 (s : string) : bool := test (anchored bech32) s.
Definition is_bech32_caps (s : string) : bool := test (anchored bech32_caps) s.
Definition is_uncompressed (s : string) : bool := test re_uncompressed s.
Definition is_compressed (s : string) : bool := test re_compressed s.

(** The first alternative of [re_lowercase] on its own: the subject begins
    like an uppercase bech32 string, whatever follows. *)
Definition caps_prefix (s : string) : bool := test (Seq Bol bech32_caps) s.

(** Every character of [l] lies in the class [rg]. *)
Definition all_in (rg : list (ascii * ascii)) (l : list ascii) : Prop :=
  Forall (fun c => Chars.in_class rg c = true) l.

(** Sample public keys: an uncompressed one written with capital hex digits
    and a compressed one. *)
Definition sample_capital_key : string :=
  "04AAAAAAAAAAAAAAAAAAAAAAAAAAAAAAAAAAAAAAAAAAAAAAAAAAAAAAAAAAAAAAAAAAAAAAAAAAAAAAAAAAAAAAAAAAAAAAAAAAAAAAAAAAAAAAAAAAAAAAAAAAAAAAAA".
Definition sample_compressed_key : string :=
  "03bbbbbbbbbbbbbbbbbbbbbbbbbbbbbbbbbbbbbbbbbbbbbbbbbbbbbbbbbbbbbbbb".

End Address.

(** ** JSON values and [JSON.stringify] *)

Module Json.

(** The double quote character. *)
Definition dq : ascii := "034"%char.
Definition quote : string := String dq EmptyString.

(** [Array.prototype.join]. *)
Fixpoint join (sep : string) (l : list string) : string :=
  match l with
  | [] => ""
  | [x] => x
  | x :: l' => x +:+ sep +:+ join sep l'
  end.

(** A value that [JSON.stringify] accepts. Numbers are the integers; the
    fields of an object are listed in the order of its keys. *)
#[warnings="-register-all"]
Inductive json : Type :=
| JNull
| JBool (b : bool)
| JNum (n : Z)
| JStr (s : string)
| JArr (items : list json)
| JObj (fields : list (string * json)).

Definition decimal (n : Z) : string := NilZero.string_of_int (Z.to_int n).

Definition hex_digit (n : nat) : ascii :=
  if n <? 10 then ascii_of_nat (48 + n) else ascii_of_nat (87 + n).

(** The escape of one character inside a string literal. *)
Definition escape_char (c : ascii) : list ascii :=
  let n := nat_of_ascii c in
  if Ascii.eqb c dq then ["\"; dq]%char
  else if Ascii.eqb c "\" then ["\"; "\"]%char
  else if n =? 8 then ["\"; "b"]%char
  else if n =? 12 then ["\"; "f"]%char
  else if n =? 10 then ["\"; "n"]%char
  else if n =? 13 then ["\"; "r"]%char
  else if n =? 9 then ["\"; "t"]%char
  else if n <? 32 then
    ["\"; "u"; "0"; "0"; hex_digit (n / 16); hex_digit (n mod 16)]%char
  else [c].

Definition quoted (s : string) : string :=
  quote +:+ text (flat_map escape_char (chars s)) +:+ quote.

Fixpoint stringify (j : json) : string :=
  match j with
  | JNull => "null"
  | JBool true => "true"
  | JBool false => "false"
  | JNum n => decimal n
  | JStr s => quoted s
  | JArr items => "[" +:+ join "," (map stringify items) +:+ "]"
  | JObj fields =>
      "{" +:+ join "," (map (fun kv => quoted (fst kv) +:+ ":" +:+ stringify (snd kv)) fields)
          +:+ "}"
  end.

(** Property access [o.key]; [None] is [undefined]. *)
Definition field (key : string) (j : json) : option json :=
  match j with
  | JObj fields => snd <$> find (fun kv => String.eqb (fst kv) key) fields
  | _ => None
  end.

(** Truthiness of a value, and of a possibly undefined one. *)
Definition truthy (j : json) : bool :=
  match j with
  | JNull => false
  | JBool b => b
  | JNum n => negb (Z.eqb n 0)
  | JStr s => negb (String.eqb s "")
  | JArr _ | JObj _ => true
  end.

Definition truthy_opt (v : option json) : bool :=
  match v with Some j => truthy j | None => false end.

(** [v != null]: neither [null] nor [undefined]. *)
Definition present (v : option json) : bool :=
  match v with Some JNull | None => false | Some _ => true end.

End Json.

(** ** Syntactic validity of a JSON text

    A pushdown recognizer for the grammar of RFC 8259, one character at a
    time: the mode says what may come next, the stack lists the arrays and
    objects that are open. *)

Module JsonSyntax.

Inductive container := InArray | InObject.

Inductive mode :=
| Value                 (* a value must follow *)
| ArrFirst              (* after [[]: a value or []] *)
| ObjFirst              (* after [{]: a key or [}] *)
| Key                   (* after [,] in an object: a key *)
| Colon                 (* after a key: [:] *)
| After                 (* after a value: [,], a closer or the end *)
| InStr (key : bool)    (* inside a string literal *)
| StrEsc (key : bool)   (* after a backslash *)
| StrHex (key : bool) (more : nat) (* inside \uXXXX, [S more] digits to go *)
| NumMinus              (* after [-]: a digit *)
| NumZero               (* after a leading 0 *)
| NumInt                (* inside the integer part *)
| NumDot                (* after [.]: a digit *)
| NumFrac               (* inside the fraction *)
| NumE                  (* after [e]: a sign or a digit *)
| NumSign               (* after the sign of the exponent: a digit *)
| NumExp                (* inside the exponent *)
| Word (rest : list ascii). (* inside true, false or null *)

Definition state : Type := mode * list container.

Definition is_ws (c : ascii) : bool :=
  let n := nat_of_ascii c in (n =? 32) || (n =? 9) || (n =? 10) || (n =? 13).
Definition is_digit (c : ascii) : bool := Chars.in_range "0" "9" c.
Definition is_digit19 (c : ascii) : bool := Chars.in_range "1" "9" c.
Definition is_hex (c : ascii) : bool :=
  Chars.in_range "0" "9" c || Chars.in_range "a" "f" c || Chars.in_range "A" "F" c.
Definition is_escape (c : ascii) : bool :=
  existsb (Ascii.eqb c) [Json.dq; "\"; "/"; "b"; "f"; "n"; "r"; "t"]%char.

(** The first character of a value. *)
Definition begin_value (c : ascii) (stack : list container) : option state :=
  if Ascii.eqb c "{" then Some (ObjFirst, InObject :: stack)
  else if Ascii.eqb c "[" then Some (ArrFirst, InArray :: stack)
  else if Ascii.eqb c Json.dq then Some (InStr false, stack)
  else if Ascii.eqb c "-" then Some (NumMinus, stack)
  else if Ascii.eqb c "0" then Some (NumZero, stack)
  else if is_digit19 c then Some (NumInt, stack)
  else if Ascii.eqb c "t" then Some (Word ["r"; "u"; "e"]%char, stack)
  else if Ascii.eqb c "f" then Some (Word ["a"; "l"; "s"; "e"]%char, stack)
  else if Ascii.eqb c "n" then Some (Word ["u"; "l"; "l"]%char, stack)
  else None.

(** The character that follows a complete value. *)
Definition after_value (c : ascii) (stack : list container) : option state :=
  if is_ws c then Some (After, stack)
  else match stack with
       | InArray :: stack' =>
           if Ascii.eqb c "," then Some (Value, stack)
           else if Ascii.eqb c "]" then Some (After, stack')
           else None
       | InObject :: stack' =>
           if Ascii.eqb c "," then Some (Key, stack)
           else if Ascii.eqb c "}" then Some (After, stack')
           else None
       | [] => None
       end.

Definition begin_key (c : ascii) (stack : list container) : option state :=
  if Ascii.eqb c Json.dq then Some (InStr true, stack) else None.

Definition step (st : state) (c : ascii) : option state :=
  let (m, stack) := st in
  match m with
  | Value => if is_ws c then Some (Value, stack) else begin_value c stack
  | ArrFirst =>
      if is_ws c then Some (ArrFirst, stack)
      else if Ascii.eqb c "]" then
        match stack with _ :: stack' => Some (After, stack') | [] => None end
      else begin_value c stack
  | ObjFirst =>
      if is_ws c then Some (ObjFirst, stack)
      else if Ascii.eqb c "}" then
        match stack with _ :: stack' => Some (After, stack') | [] => None end
      else begin_key c stack
  | Key => if is_ws c then Some (Key, stack) else begin_key c stack
  | Colon =>
      if is_ws c then Some (Colon, stack)
      else if Ascii.eqb c ":" then Some (Value, stack) else None
  | After => after_value c stack
  | InStr k =>
      if Ascii.eqb c Json.dq then Some (if k then Colon else After, stack)
      else if Ascii.eqb c "\" then Some (StrEsc k, stack)
      else if nat_of_ascii c <? 32 then None
      else Some (InStr k, stack)
  | StrEsc k =>
      if Ascii.eqb c "u" then Some (StrHex k 3, stack)
      else if is_escape c then Some (InStr k, stack) else None
  | StrHex k more =>
      if is_hex c
      then Some (match more with 0 => InStr k | S l => StrHex k l end, stack)
      else None
  | NumMinus =>
      if Ascii.eqb c "0" then Some (NumZero, stack)
      else if is_digit19 c then Some (NumInt, stack) else None
  | NumZero =>
      if Ascii.eqb c "." then Some (NumDot, stack)
      else if Ascii.eqb c "e" || Ascii.eqb c "E" then Some (NumE, stack)
      else after_value c stack
  | NumInt =>
      if is_digit c then Some (NumInt, stack)
      else if Ascii.eqb c "." then Some (NumDot, stack)
      else if Ascii.eqb c "e" || Ascii.eqb c "E" then Some (NumE, stack)
      else after_value c stack
  | NumDot => if is_digit c then Some (NumFrac, stack) else None
  | NumFrac =>
      if is_digit c then Some (NumFrac, stack)
      else if Ascii.eqb c "e" || Ascii.eqb c "E" then Some (NumE, stack)
      else after_value c stack
  | NumE =>
      if Ascii.eqb c "+" || Ascii.eqb c "-" then Some (NumSign, stack)
      else if is_digit c then Some (NumExp, stack) else None
  | NumSign => if is_digit c then Some (NumExp, stack) else None
  | NumExp =>
      if is_digit c then Some (NumExp, stack) else after_value c stack
  | Word rest =>
      match rest with
      | [] => after_value c stack
      | c' :: rest' => if Ascii.eqb c c' then Some (Word rest', stack) else None
      end
  end.

Fixpoint run (st : state) (s : list ascii) : option state :=
  match s with
  | [] => Some st
  | c :: s' => match step st c with
               | Some st' => run st' s'
               | None => None
               end
  end.

(** The modes in which a value is complete. *)
Definition complete (m : mode) : bool :=
  match m with
  | After | NumZero | NumInt | NumFrac | NumExp | Word [] => true
  | _ => false
  end.

Definition accepting (st : state) : bool :=
  complete (fst st) && match snd st with [] => true | _ :: _ => false end.

(** The text is one JSON value, with optional white space around it. *)
Definition valid (s : string) : bool :=
  match run (Value, []) (chars s) with
  | Some st => accepting st
  | None => false
  end.

Fixpoint skip_ws (s : list ascii) : list ascii :=
  match s with
  | c :: s' => if is_ws c then skip_ws s' else s
  | [] => []
  end.

(** The text is a JSON value, and that value is an object. *)
Definition valid_object (s : string) : bool :=
  valid s && match skip_ws (chars s) with
             | c :: _ => Ascii.eqb c "{"
             | [] => false
             end.

End JsonSyntax.

(** ** JavaScript objects with observable key order

    An object is the list of its properties in the order of their first
    insertion; [enumerate] gives the order in which they are visited. *)

Module Obj.

Fixpoint digits_value (acc : N) (s : list ascii) : option N :=
  match s with
  | [] => Some acc
  | c :: s' =>
      if Chars.in_range "0" "9" c
      then digits_value (10 * acc + (N_of_ascii c - 48)) s'
      else None
  end.

(** The number a key spells when it is an array index: the canonical
    decimal form of an integer below 2^32 - 1. *)
Definition index_of (key : string) : option N :=
  match chars key with
  | [] => None
  | l =>
      match digits_value 0 l with
      | Some n =>
          if String.eqb (Json.decimal (Z.of_N n)) key && (n <? 4294967295)%N
          then Some n else None
      | None => None
      end
  end.

Section Obj.
Context {V : Type}.

Definition t : Type := list (string * V).

Definition get (key : string) (o : t) : option V :=
  snd <$> find (fun kv => String.eqb (fst kv) key) o.

(** [o[key] = v]: in place when the key exists, at the end otherwise. *)
Fixpoint set (key : string) (v : V) (o : t) : t :=
  match o with
  | [] => [(key, v)]
  | (k, v') :: o' =>
      if String.eqb k key then (k, v) :: o' else (k, v') :: set key v o'
  end.

(** [delete o[key]]. *)
Definition del (key : string) (o : t) : t :=
  List.filter (fun kv => negb (String.eqb (fst kv) key)) o.

Definition keys (o : t) : list string := map fst o.

Definition has (key : string) (o : t) : bool :=
  existsb (fun kv => String.eqb (fst kv) key) o.

Fixpoint insert_index (n : N) (kv : string * V) (l : list (N * (string * V)))
    : list (N * (string * V)) :=
  match l with
  | [] => [(n, kv)]
  | (m, kv') :: l' =>
      if (n <? m)%N then (n, kv) :: l else (m, kv') :: insert_index n kv l'
  end.

(** The properties in the order in which [Object.keys] and [JSON.stringify]
    visit them: the array indices in ascending order, then the other keys
    in the order of their insertion. *)
Definition enumerate (o : t) : t :=
  map snd (fold_right (fun kv acc =>
                         match index_of (fst kv) with
                         | Some n => insert_index n kv acc
                         | None => acc
                         end) [] o)
  ++ List.filter (fun kv => match index_of (fst kv) with
                            | Some _ => false
                            | None => true
                            end) o.
End Obj.
Arguments t : clear implicits.
End Obj.

(** ** The response serializer *)

(** A value of a response object: a string, or [undefined]. The template
    literal renders the latter as the word undefined. *)
Definition template (v : option string) : string :=
  match v with Some s => s | None => "undefined" end.

(** The text of one entry: ["key": value]. *)
Definition entry (key : string) (v : option string) : string :=
  Json.quote +:+ key +:+ Json.quote +:+ ": " +:+ template v.

Definition serializeResponse (response : Obj.t (option string)) : string :=
  "{" +:+ Json.join ", "
            (map (fun kv => entry (fst kv) (snd kv)) (Obj.enumerate response))
      +:+ "}".


(** The keys the handlers write into a response object. *)
Definition response_keys : list string :=
  [ "blocks"; "mempool-blocks"; "mempoolInfo"; "vBytesPerSecond"; "fees"; "da";
    "tomahawk"; "txReplaced"; "tx"; "txPosition"; "track-addresses-error";
    "track-scriptpubkeys-error"; "projected-block-transactions"; "rbfLatest";
    "rbfLatestSummary"; "pong"; "transactions"; "address-removed-transactions";
    "address-transactions"; "multi-address-transactions";
    "multi-scriptpubkey-transactions"; "utxoSpent"; "rbfTransaction"; "rbfInfo";
    "block"; "txConfirmed"; "block-transactions" ].

(** A key that reads the same between quotes: no quote, no backslash, no
    control character. *)
Definition plain_key (key : string) : bool :=
  forallb (fun c => negb (Ascii.eqb c Json.dq) && negb (Ascii.eqb c "\")
                    && (32 <=? nat_of_ascii c)) (chars key).

(** The value of an entry is defined and is a valid JSON text. *)
Definition defined_valid (kv : string * option string) : Prop :=
  exists v, snd kv = Some v /\ JsonSyntax.valid v = true.

(** ** Configuration, collaborators and the shared snapshot *)

Module Server.
Import Json.

(** The entries of [config] the handler reads. *)
Record Config := {
  INITIAL_BLOCKS_AMOUNT : nat;
  MAX_TRACKED_ADDRESSES : nat;
  BACKEND_esplora : bool            (* config.MEMPOOL.BACKEND === 'esplora' *)
}.

(** The output an input spends, when the backend knows it. *)
Record Prevout := {
  prevout_scriptpubkey : option string;
  prevout_scriptpubkey_address : option string
}.

Record Vin := {
  vin_txid : string;
  vin_vout : nat;
  prevout : option Prevout;
  is_pegin : bool;
  issuance_asset_id : option string     (* vin.issuance.asset_id *)
}.

Record Vout := {
  scriptpubkey : option string;
  scriptpubkey_address : option string;
  pegout : bool;
  asset : option string
}.

(** [tx.status], as the new-block fan-out writes it. *)
Record Status := {
  confirmed : bool;
  block_height : Z;
  block_hash : string;
  block_time : Z
}.

(** A mempool transaction, with the fields the handler reads or writes. How
    the whole object is serialized is left to [stringify_tx] below. *)
Record Tx := {
  txid : string;
  vin : list Vin;
  vout : list Vout;
  position : option (Obj.t json);   (* the fields of tx.position *)
  acceleration : option bool;
  cpfpDirty : bool;
  ancestors : option json;
  bestDescendant : option json;
  descendants : option json;
  effectiveFeePerVsize : option json;
  sigops : option json;
  adjustedVsize : option json;
  status : option Status
}.

(** A projected block with its transactions; [transactions] may be
    missing. *)
Record MempoolBlock := {
  transactions : option (list json)
}.

(** The change of one projected block: the transactions it gained, and the
    whole object as it is serialized. *)
Record Delta := {
  added : list json;
  delta_value : json
}.

(** What the collaborators answer while one frame or one event is
    processed. A value of type [json] is an object of the collaborator the
    handler only serializes. *)
Record Collab := {
  getBlocks : list json;                        (* blocks.getBlocks() *)
  getDifficultyAdjustment : option json;        (* null when unknown *)
  getMempoolInfo : json;
  getVBytesPerSecond : json;
  getLatestPrices : json;
  getMempoolBlocks : json;
  getLatestTransactions : json;
  getBackendInfo : json;
  getLoadingIndicators : json;
  getRecommendedFee : json;
  getHealthStatus : json;                       (* bitcoinApi.getHealthStatus() *)
  getMempool : gmap string Tx;                  (* memPool.getMempool() *)
  isInSync : bool;                              (* memPool.isInSync() *)
  getReplacedBy : string -> option string;      (* rbfCache.getReplacedBy *)
  (* transactionUtils.$getMempoolTransactionExtended(txid, true);
     [None] when the promise rejects *)
  getMempoolTransactionExtended : string -> option Tx;
  stringify_tx : Tx -> string;                  (* JSON.stringify(tx) *)
  getMempoolBlocksWithTransactions : list MempoolBlock;
  getMempoolBlockDeltas : list Delta;
  compressTx : json -> json;                    (* mempoolBlocks.compressTx *)
  getRbfTrees : bool -> json;                   (* rbfCache.getRbfTrees(full) *)
  getRbfChanges_trees : Obj.t json;             (* rbfCache.getRbfChanges().trees *)
  getRbfChanges_map : gmap string string;       (* rbfCache.getRbfChanges().map *)
  getLatestRbfSummary : json;                   (* rbfCache.getLatestRbfSummary() *)
  nativeAssetId : string                        (* Common.nativeAssetId *)
}.

(** The state of the handler object that the decoder reads and writes. *)
Record State := {
  socketData : Obj.t string;
  serializedInitData : string
}.

Definition initial : State :=
  {| socketData := []; serializedInitData := "{}" |}.

(** One iteration of the loop of [updateSocketDataFields]. *)
Definition update_field (sd : Obj.t string) (kv : string * option json) : Obj.t string :=
  if present (snd kv) then Obj.set (fst kv) (stringify (default JNull (snd kv))) sd
  else Obj.del (fst kv) sd.

Definition serializeInitData (sd : Obj.t string) : string :=
  "{" +:+ join ", " (map (fun kv => quote +:+ fst kv +:+ quote +:+ ": " +:+ snd kv)
                          (Obj.enumerate sd))
      +:+ "}".

Definition updateSocketDataFields (data : Obj.t (option json)) (s : State) : State :=
  let sd := fold_left update_field data (socketData s) in
  {| socketData := sd; serializedInitData := serializeInitData sd |}.

(** [array.slice(-n)]: the last [n] elements, and the whole array when [n]
    is 0. *)
Definition slice_last {A} (n : nat) (l : list A) : list A :=
  if n =? 0 then l else skipn (length l - n) l.

(** [da?.previousTime ? da : undefined]. *)
Definition da_if_known (da : option json) : option json :=
  match da with
  | Some d => if truthy_opt (field "previousTime" d) then Some d else None
  | None => None
  end.

Definition updateSocketData (cfg : Config) (col : Collab) (s : State) : State :=
  let _blocks := slice_last (INITIAL_BLOCKS_AMOUNT cfg) (getBlocks col) in
  let da := getDifficultyAdjustment col in
  updateSocketDataFields
    [ ("mempoolInfo", Some (getMempoolInfo col));
      ("vBytesPerSecond", Some (getVBytesPerSecond col));
      ("blocks", Some (JArr _blocks));
      ("conversions", Some (getLatestPrices col));
      ("mempool-blocks", Some (getMempoolBlocks col));
      ("transactions", Some (getLatestTransactions col));
      ("backendInfo", Some (getBackendInfo col));
      ("loadingIndicators", Some (getLoadingIndicators col));
      ("da", da_if_known da);
      ("fees", Some (getRecommendedFee col)) ] s.

End Server.

(** ** The client session and the inbound frames *)

Module Session.

(** The slot [track-mempool-block]: never written, cleared to [null], or an
    index. The fan-out compares it with [>= 0], which [null] passes and
    [undefined] does not. *)
Inductive BlockSlot := Unset | Cleared | Index (n : nat).

(** The fields the handler keeps on the socket object. A flag that was
    never written reads as [false], a slot that was never written or was
    cleared as [None]: the handler only tests them for truthiness. *)
Record Client := {
  remoteAddress : string;
  ready_open : bool;
  want_blocks : bool;
  want_mempool_blocks : bool;
  want_live_2h_chart : bool;
  want_stats : bool;
  want_tomahawk : bool;
  wants : bool;
  track_tx : option string;
  track_mempool_tx : option string;
  track_address : option string;
  track_addresses : option (Obj.t string);
  track_scriptpubkeys : option (list string);
  track_asset : option string;
  track_mempool_block : BlockSlot;
  track_rbf : option string;
  track_rbf_summary : bool;
  track_donation : option string;
  track_bisq_market : option string
}.

Definition fresh (address : string) : Client :=
  {| remoteAddress := address; ready_open := true; want_blocks := false;
     want_mempool_blocks := false; want_live_2h_chart := false;
     want_stats := false; want_tomahawk := false; wants := false;
     track_tx := None; track_mempool_tx := None; track_address := None;
     track_addresses := None; track_scriptpubkeys := None;
     track_asset := None; track_mempool_block := Unset; track_rbf := None;
     track_rbf_summary := false; track_donation := None;
     track_bisq_market := None |}.

(** [client['want-' + sub]], read and written. *)
Definition want (sub : string) (c : Client) : bool :=
  if String.eqb sub "blocks" then want_blocks c
  else if String.eqb sub "mempool-blocks" then want_mempool_blocks c
  else if String.eqb sub "live-2h-chart" then want_live_2h_chart c
  else if String.eqb sub "stats" then want_stats c
  else if String.eqb sub "tomahawk" then want_tomahawk c
  else false.

Definition set_want (sub : string) (b : bool) (c : Client) : Client :=
  {| remoteAddress := remoteAddress c; ready_open := ready_open c;
     want_blocks := (if String.eqb sub "blocks" then b else want_blocks c);
     want_mempool_blocks := (if String.eqb sub "mempool-blocks" then b else want_mempool_blocks c);
     want_live_2h_chart := (if String.eqb sub "live-2h-chart" then b else want_live_2h_chart c);
     want_stats := (if String.eqb sub "stats" then b else want_stats c);
     want_tomahawk := (if String.eqb sub "tomahawk" then b else want_tomahawk c);
     wants := wants c; track_tx := track_tx c;
     track_mempool_tx := track_mempool_tx c;
     track_address := track_address c; track_addresses := track_addresses c;
     track_scriptpubkeys := track_scriptpubkeys c;
     track_asset := track_asset c;
     track_mempool_block := track_mempool_block c; track_rbf := track_rbf c;
     track_rbf_summary := track_rbf_summary c;
     track_donation := track_donation c;
     track_bisq_market := track_bisq_market c |}.

(** Assignments to the other fields. *)
Definition set_wants (v : bool) (c : Client) : Client :=
  {| remoteAddress := remoteAddress c; ready_open := ready_open c;
     want_blocks := want_blocks c;
     want_mempool_blocks := want_mempool_blocks c;
     want_live_2h_chart := want_live_2h_chart c; want_stats := want_stats c;
     want_tomahawk := want_tomahawk c; wants := v; track_tx := track_tx c;
     track_mempool_tx := track_mempool_tx c;
     track_address := track_address c; track_addresses := track_addresses c;
     track_scriptpubkeys := track_scriptpubkeys c;
     track_asset := track_asset c;
     track_mempool_block := track_mempool_block c; track_rbf := track_rbf c;
     track_rbf_summary := track_rbf_summary c;
     track_donation := track_donation c;
     track_bisq_market := track_bisq_market c |}.
Definition set_track_tx (v : option string) (c : Client) : Client :=
  {| remoteAddress := remoteAddress c; ready_open := ready_open c;
     want_blocks := want_blocks c;
     want_mempool_blocks := want_mempool_blocks c;
     want_live_2h_chart := want_live_2h_chart c; want_stats := want_stats c;
     want_tomahawk := want_tomahawk c; wants := wants c; track_tx := v;
     track_mempool_tx := track_mempool_tx c;
     track_address := track_address c; track_addresses := track_addresses c;
     track_scriptpubkeys := track_scriptpubkeys c;
     track_asset := track_asset c;
     track_mempool_block := track_mempool_block c; track_rbf := track_rbf c;
     track_rbf_summary := track_rbf_summary c;
     track_donation := track_donation c;
     track_bisq_market := track_bisq_market c |}.
Definition set_track_mempool_tx (v : option string) (c : Client) : Client :=
  {| remoteAddress := remoteAddress c; ready_open := ready_open c;
     want_blocks := want_blocks c;
     want_mempool_blocks := want_mempool_blocks c;
     want_live_2h_chart := want_live_2h_chart c; want_stats := want_stats c;
     want_tomahawk := want_tomahawk c; wants := wants c;
     track_tx := track_tx c; track_mempool_tx := v;
     track_address := track_address c; track_addresses := track_addresses c;
     track_scriptpubkeys := track_scriptpubkeys c;
     track_asset := track_asset c;
     track_mempool_block := track_mempool_block c; track_rbf := track_rbf c;
     track_rbf_summary := track_rbf_summary c;
     track_donation := track_donation c;
     track_bisq_market := track_bisq_market c |}.
Definition set_track_address (v : option string) (c : Client) : Client :=
  {| remoteAddress := remoteAddress c; ready_open := ready_open c;
     want_blocks := want_blocks c;
     want_mempool_blocks := want_mempool_blocks c;
     want_live_2h_chart := want_live_2h_chart c; want_stats := want_stats c;
     want_tomahawk := want_tomahawk c; wants := wants c;
     track_tx := track_tx c; track_mempool_tx := track_mempool_tx c;
     track_address := v; track_addresses := track_addresses c;
     track_scriptpubkeys := track_scriptpubkeys c;
     track_asset := track_asset c;
     track_mempool_block := track_mempool_block c; track_rbf := track_rbf c;
     track_rbf_summary := track_rbf_summary c;
     track_donation := track_donation c;
     track_bisq_market := track_bisq_market c |}.
Definition set_track_addresses (v : option (Obj.t string)) (c : Client) : Client :=
  {| remoteAddress := remoteAddress c; ready_open := ready_open c;
     want_blocks := want_blocks c;
     want_mempool_blocks := want_mempool_blocks c;
     want_live_2h_chart := want_live_2h_chart c; want_stats := want_stats c;
     want_tomahawk := want_tomahawk c; wants := wants c;
     track_tx := track_tx c; track_mempool_tx := track_mempool_tx c;
     track_address := track_address c; track_addresses := v;
     track_scriptpubkeys := track_scriptpubkeys c;
     track_asset := track_asset c;
     track_mempool_block := track_mempool_block c; track_rbf := track_rbf c;
     track_rbf_summary := track_rbf_summary c;
     track_donation := track_donation c;
     track_bisq_market := track_bisq_market c |}.
Definition set_track_scriptpubkeys (v : option (list string)) (c : Client) : Client :=
  {| remoteAddress := remoteAddress c; ready_open := ready_open c;
     want_blocks := want_blocks c;
     want_mempool_blocks := want_mempool_blocks c;
     want_live_2h_chart := want_live_2h_chart c; want_stats := want_stats c;
     want_tomahawk := want_tomahawk c; wants := wants c;
     track_tx := track_tx c; track_mempool_tx := track_mempool_tx c;
     track_address := track_address c; track_addresses := track_addresses c;
     track_scriptpubkeys := v; track_asset := track_asset c;
     track_mempool_block := track_mempool_block c; track_rbf := track_rbf c;
     track_rbf_summary := track_rbf_summary c;
     track_donation := track_donation c;
     track_bisq_market := track_bisq_market c |}.
Definition set_track_asset (v : option string) (c : Client) : Client :=
  {| remoteAddress := remoteAddress c; ready_open := ready_open c;
     want_blocks := want_blocks c;
     want_mempool_blocks := want_mempool_blocks c;
     want_live_2h_chart := want_live_2h_chart c; want_stats := want_stats c;
     want_tomahawk := want_tomahawk c; wants := wants c;
     track_tx := track_tx c; track_mempool_tx := track_mempool_tx c;
     track_address := track_address c; track_addresses := track_addresses c;
     track_scriptpubkeys := track_scriptpubkeys c; track_asset := v;
     track_mempool_block := track_mempool_block c; track_rbf := track_rbf c;
     track_rbf_summary := track_rbf_summary c;
     track_donation := track_donation c;
     track_bisq_market := track_bisq_market c |}.
Definition set_track_mempool_block (v : BlockSlot) (c : Client) : Client :=
  {| remoteAddress := remoteAddress c; ready_open := ready_open c;
     want_blocks := want_blocks c;
     want_mempool_blocks := want_mempool_blocks c;
     want_live_2h_chart := want_live_2h_chart c; want_stats := want_stats c;
     want_tomahawk := want_tomahawk c; wants := wants c;
     track_tx := track_tx c; track_mempool_tx := track_mempool_tx c;
     track_address := track_address c; track_addresses := track_addresses c;
     track_scriptpubkeys := track_scriptpubkeys c;
     track_asset := track_asset c; track_mempool_block := v;
     track_rbf := track_rbf c; track_rbf_summary := track_rbf_summary c;
     track_donation := track_donation c;
     track_bisq_market := track_bisq_market c |}.
Definition set_track_rbf (v : option string) (c : Client) : Client :=
  {| remoteAddress := remoteAddress c; ready_open := ready_open c;
     want_blocks := want_blocks c;
     want_mempool_blocks := want_mempool_blocks c;
     want_live_2h_chart := want_live_2h_chart c; want_stats := want_stats c;
     want_tomahawk := want_tomahawk c; wants := wants c;
     track_tx := track_tx c; track_mempool_tx := track_mempool_tx c;
     track_address := track_address c; track_addresses := track_addresses c;
     track_scriptpubkeys := track_scriptpubkeys c;
     track_asset := track_asset c;
     track_mempool_block := track_mempool_block c; track_rbf := v;
     track_rbf_summary := track_rbf_summary c;
     track_donation := track_donation c;
     track_bisq_market := track_bisq_market c |}.
Definition set_track_rbf_summary (v : bool) (c : Client) : Client :=
  {| remoteAddress := remoteAddress c; ready_open := ready_open c;
     want_blocks := want_blocks c;
     want_mempool_blocks := want_mempool_blocks c;
     want_live_2h_chart := want_live_2h_chart c; want_stats := want_stats c;
     want_tomahawk := want_tomahawk c; wants := wants c;
     track_tx := track_tx c; track_mempool_tx := track_mempool_tx c;
     track_address := track_address c; track_addresses := track_addresses c;
     track_scriptpubkeys := track_scriptpubkeys c;
     track_asset := track_asset c;
     track_mempool_block := track_mempool_block c; track_rbf := track_rbf c;
     track_rbf_summary := v; track_donation := track_donation c;
     track_bisq_market := track_bisq_market c |}.
Definition set_track_donation (v : option string) (c : Client) : Client :=
  {| remoteAddress := remoteAddress c; ready_open := ready_open c;
     want_blocks := want_blocks c;
     want_mempool_blocks := want_mempool_blocks c;
     want_live_2h_chart := want_live_2h_chart c; want_stats := want_stats c;
     want_tomahawk := want_tomahawk c; wants := wants c;
     track_tx := track_tx c; track_mempool_tx := track_mempool_tx c;
     track_address := track_address c; track_addresses := track_addresses c;
     track_scriptpubkeys := track_scriptpubkeys c;
     track_asset := track_asset c;
     track_mempool_block := track_mempool_block c; track_rbf := track_rbf c;
     track_rbf_summary := track_rbf_summary c; track_donation := v;
     track_bisq_market := track_bisq_market c |}.
Definition set_track_bisq_market (v : option string) (c : Client) : Client :=
  {| remoteAddress := remoteAddress c; ready_open := ready_open c;
     want_blocks := want_blocks c;
     want_mempool_blocks := want_mempool_blocks c;
     want_live_2h_chart := want_live_2h_chart c; want_stats := want_stats c;
     want_tomahawk := want_tomahawk c; wants := wants c;
     track_tx := track_tx c; track_mempool_tx := track_mempool_tx c;
     track_address := track_address c; track_addresses := track_addresses c;
     track_scriptpubkeys := track_scriptpubkeys c;
     track_asset := track_asset c;
     track_mempool_block := track_mempool_block c; track_rbf := track_rbf c;
     track_rbf_summary := track_rbf_summary c;
     track_donation := track_donation c; track_bisq_market := v |}.

(** A value of [track-mempool-block] in a frame: an integer, or anything
    else (a fraction, a string, [null], ...). *)
Inductive BlockArg := IntArg (n : Z) | OtherArg.

(** A value where the protocol expects a string: a string, or another JSON
    value (a number, a boolean, [null], an array, an object). Of such a
    value the handler uses its conversion to a string only, in
    [RegExp.test] and as a property key: [12] converts to ["12"], [["aa"]]
    to ["aa"], [null] to ["null"]. [coerced] is [None] when the conversion
    itself throws, as it does for [{"toString": 1}]. A method of strings
    called on such a value ([toLowerCase]) throws a [TypeError]. *)
Inductive Entry := Str (s : string) | Other (coerced : option string).

(** A frame after [JSON.parse]. A key that is absent is [None] (or [false]
    where the handler only tests truthiness). [data], [track-addresses] and
    [track-scriptpubkeys] are [Some] when the value is an array. The value
    of [track-address] and the entries of [track-addresses] and of
    [track-scriptpubkeys] are any JSON value; a value of [track-address]
    that is falsy and no string ([0], [false], [null]) is skipped by the
    handler like an absent one and is read as [None]. The other keys are
    read at the types the protocol gives them. *)
Record Frame := {
  action : option string;
  data : option (list string);
  refresh_blocks : bool;
  f_track_tx : option string;
  watch_mempool : bool;
  f_track_address : option Entry;
  f_track_addresses : option (list Entry);
  f_track_scriptpubkeys : option (list Entry);
  f_track_asset : option string;
  f_track_mempool_block : option BlockArg;
  f_track_rbf : option string;
  f_track_rbf_summary : option bool;
  f_track_donation : option string;
  f_track_bisq_market : option string
}.

(** The frame with no key at all, [{}]. *)
Definition empty_frame : Frame :=
  {| action := None; data := None; refresh_blocks := false;
     f_track_tx := None; watch_mempool := false; f_track_address := None;
     f_track_addresses := None; f_track_scriptpubkeys := None;
     f_track_asset := None; f_track_mempool_block := None; f_track_rbf := None;
     f_track_rbf_summary := None; f_track_donation := None;
     f_track_bisq_market := None |}.

End Session.
(** ** The inbound protocol decoder

    The ['message'] callback of [setupConnectionHandling], one key of the
    frame after the other, in the order of the source. *)

Module Decoder.
Import Json Server Session.

(* /^[a-fA-F0-9]{64}$/ *)
Definition re_hex64 : regex := anchored (times (Cls Address.hex) 64).
(* /^[a-fA-F0-9]+$/ *)
Definition re_hex : regex := anchored (plus (Cls Address.hex)).
(* /^[a-z]{3}_[a-z]{3}$/ *)
Definition re_market : regex :=
  anchored (Seq (times (Cls Address.lower_alpha) 3)
                (Seq (Lit "_") (times (Cls Address.lower_alpha) 3))).

(** The valid ['want'] subscriptions. *)
Definition wantable : list string :=
  ["blocks"; "mempool-blocks"; "live-2h-chart"; "stats"; "tomahawk"].

(** Truthiness of a string that may be undefined. *)
Definition truthy_str (v : option string) : bool :=
  match v with Some s => negb (String.eqb s "") | None => false end.

(** [array.includes(x)]. *)
Definition includes (x : string) (l : list string) : bool :=
  existsb (String.eqb x) l.

(** The session and the response under construction. *)
Record Work := {
  client : Client;
  response : Obj.t (option string)
}.

Definition on_client (g : Client -> Client) (w : Work) : Work :=
  {| client := g (client w); response := response w |}.
Definition respond (key : string) (v : option string) (w : Work) : Work :=
  {| client := client w; response := Obj.set key v (response w) |}.

(** *** action: want *)

(** One turn of the loop over [wantable]; [wantNow] collects the classes
    that are newly turned on. *)
Definition want_turn (data : list string) (acc : Client * list string)
    (sub : string) : Client * list string :=
  let c := fst acc in
  let wants_sub := includes sub data in
  (set_want sub wants_sub c,
   if wants_sub && negb (want sub c) then snd acc ++ [sub] else snd acc).

Definition handle_want (f : Frame) (c : Client) : Client * list string :=
  match action f, data f with
  | Some a, Some d =>
      if String.eqb a "want" then
        let acc := fold_left (want_turn d) wantable (c, []) in
        (set_wants true (fst acc), snd acc)
      else (c, [])
  | _, _ => (c, [])
  end.

(** The initial data of the classes that were just turned on, copied from
    the snapshot; a field the snapshot lacks is copied as [undefined]. *)
Definition seed (s : State) (col : Collab) (f : Frame) (wantNow : list string)
    (w : Work) : Work :=
  let snapshot key := Obj.get key (socketData s) in
  let w := if includes "blocks" wantNow || refresh_blocks f
           then respond "blocks" (snapshot "blocks") w else w in
  let w := if includes "mempool-blocks" wantNow
           then respond "mempool-blocks" (snapshot "mempool-blocks") w else w in
  let w := if includes "stats" wantNow
           then respond "da" (snapshot "da")
                  (respond "fees" (snapshot "fees")
                     (respond "vBytesPerSecond" (snapshot "vBytesPerSecond")
                        (respond "mempoolInfo" (snapshot "mempoolInfo") w)))
           else w in
  if includes "tomahawk" wantNow
  then respond "tomahawk" (Some (stringify (getHealthStatus col))) w else w.

(** *** track-tx *)

(** [{...tx.position}], with [accelerated] added for an accelerated
    transaction. *)
Definition position_of (tx : Tx) (p : Obj.t json) : json :=
  JObj (if default false (acceleration tx)
        then Obj.set "accelerated" (JBool true) p else p).

Definition watch_for (cfg : Config) (col : Collab) (trackTxid : string)
    (w : Work) : Work :=
  if truthy_str (getReplacedBy col trackTxid) then
    on_client (set_track_tx None)
      (respond "txReplaced"
         (Some (stringify
                  (JObj [("txid", JStr (default "" (getReplacedBy col trackTxid)))])))
         w)
  else
    match getMempool col !! trackTxid with
    | Some tx =>
        if BACKEND_esplora cfg then respond "tx" (Some (stringify_tx col tx)) w
        else match getMempoolTransactionExtended col (txid tx) with
             | Some fullTx => respond "tx" (Some (stringify_tx col fullTx)) w
             | None => w
             end
    | None =>
        match getMempoolTransactionExtended col trackTxid with
        | Some fullTx => respond "tx" (Some (stringify_tx col fullTx)) w
        | None => on_client (set_track_mempool_tx (Some trackTxid)) w
        end
    end.

Definition handle_track_tx (cfg : Config) (col : Collab) (f : Frame)
    (w : Work) : Work :=
  if truthy_str (f_track_tx f) then
    let trackTxid := default "" (f_track_tx f) in
    if test re_hex64 trackTxid then
      let w := on_client (set_track_tx (Some trackTxid)) w in
      let w := if watch_mempool f then watch_for cfg col trackTxid w else w in
      match getMempool col !! trackTxid with
      | Some tx =>
          match position tx with
          | Some p =>
              respond "txPosition"
                (Some (stringify (JObj [("txid", JStr trackTxid);
                                        ("position", position_of tx p)]))) w
          | None => w
          end
      | None => w
      end
    else on_client (set_track_tx None) w
  else w.

(** *** track-address, track-addresses, track-scriptpubkeys *)

(** The conversion of a value to a string where it is used as a property
    key; it is reached only after [RegExp.test] has converted the value. *)
Definition key_of (e : Entry) : string :=
  match e with Str s => s | Other coerced => default "" coerced end.

(** Truthiness of a value of [track-address]. *)
Definition truthy_entry (e : Entry) : bool :=
  match e with Str s => negb (String.eqb s "") | Other _ => true end.

(** [testAddress] on a value that need not be a string: the canonical form,
    [false], or an exception. On a string it is [Address.testAddress]. On
    another value, each [RegExp.test] converts it; [address.toLowerCase()]
    throws; and the last branch returns the value itself, which is truthy
    and which the session then holds. The session uses a tracked address as
    a property key only, so it is held here as that key. *)
Inductive Tested := Valid (canonical : string) | Invalid | Throws.

Definition testEntry (address : Entry) : Tested :=
  match address with
  | Str s =>
      match Address.testAddress s with
      | Some validAddress => Valid validAddress
      | None => Invalid
      end
  | Other None => Throws
  | Other (Some t) =>
      if test Address.re_address t then
        if test Address.re_lowercase t then Throws
        else if test Address.re_uncompressed t then Valid ("41" +:+ t +:+ "ac")
        else if test Address.re_compressed t then Valid ("21" +:+ t +:+ "ac")
        else Valid t
      else Invalid
  end.

(** A step of the callback that may throw: [Done] with the work that goes
    on, or [Thrown] with the work as the exception leaves it. What was
    assigned to the session before the exception stays assigned. *)
Inductive Outcome := Done (w : Work) | Thrown (w : Work).

Definition and_then (o : Outcome) (k : Work -> Outcome) : Outcome :=
  match o with Done w => k w | Thrown w => Thrown w end.

Definition handle_track_address (f : Frame) (w : Work) : Outcome :=
  match f_track_address f with
  | Some address =>
      if truthy_entry address then
        match testEntry address with
        | Valid validAddress =>
            Done (on_client (set_track_address (Some validAddress)) w)
        | Invalid => Done (on_client (set_track_address None) w)
        | Throws => Thrown w
        end
      else Done w
  | None => Done w
  end.

(** The loop that fills [addressMap]: the valid entries, keyed by the raw
    entry; [None] when [testAddress] throws on an entry. *)
Fixpoint fill_addresses (l : list Entry) (addressMap : Obj.t string)
    : option (Obj.t string) :=
  match l with
  | [] => Some addressMap
  | address :: rest =>
      match testEntry address with
      | Valid validAddress =>
          fill_addresses rest (Obj.set (key_of address) validAddress addressMap)
      | Invalid => fill_addresses rest addressMap
      | Throws => None
      end
  end.

Definition too_many (what : string) (cfg : Config) : string :=
  quote +:+ "too many " +:+ what
    +:+ " requested, this connection supports tracking a maximum of "
    +:+ decimal (Z.of_nat (MAX_TRACKED_ADDRESSES cfg)) +:+ " " +:+ what +:+ quote.

Definition handle_track_addresses (cfg : Config) (f : Frame) (w : Work) : Outcome :=
  match f_track_addresses f with
  | Some l =>
      match fill_addresses l [] with
      | Some addressMap =>
          if MAX_TRACKED_ADDRESSES cfg <? length (Obj.keys addressMap) then
            Done (on_client (set_track_addresses None)
                    (respond "track-addresses-error"
                       (Some (too_many "addresses" cfg)) w))
          else if 0 <? length (Obj.keys addressMap) then
            Done (on_client (set_track_addresses (Some addressMap)) w)
          else Done (on_client (set_track_addresses None) w)
      | None => Thrown w
      end
  | None => Done w
  end.

(** The loop that fills [spks]; [None] when [spk.toLowerCase()] throws: on
    an entry that is no string and whose conversion passes the test. *)
Fixpoint fill_scriptpubkeys (l : list Entry) (spks : list string)
    : option (list string) :=
  match l with
  | [] => Some spks
  | spk :: rest =>
      match spk with
      | Str s =>
          if test re_hex s then fill_scriptpubkeys rest (spks ++ [toLowerCase s])
          else fill_scriptpubkeys rest spks
      | Other (Some t) =>
          if test re_hex t then None else fill_scriptpubkeys rest spks
      | Other None => None
      end
  end.

Definition handle_track_scriptpubkeys (cfg : Config) (f : Frame) (w : Work)
    : Outcome :=
  match f_track_scriptpubkeys f with
  | Some l =>
      match fill_scriptpubkeys l [] with
      | Some spks =>
          if MAX_TRACKED_ADDRESSES cfg <? length spks then
            Done (on_client (set_track_scriptpubkeys None)
                    (respond "track-scriptpubkeys-error"
                       (Some (too_many "scriptpubkeys" cfg)) w))
          else if 0 <? length spks then
            Done (on_client (set_track_scriptpubkeys (Some spks)) w)
          else Done (on_client (set_track_scriptpubkeys None) w)
      | None => Thrown w
      end
  | None => Done w
  end.

(** *** track-asset, track-mempool-block, track-rbf, track-rbf-summary *)

Definition handle_track_asset (f : Frame) (w : Work) : Work :=
  if truthy_str (f_track_asset f) then
    if test re_hex64 (default "" (f_track_asset f))
    then on_client (set_track_asset (f_track_asset f)) w
    else on_client (set_track_asset None) w
  else w.

(** [(mBlocksWithTransactions[index]?.transactions || [])]. *)
Definition transactions_at (blocks : list MempoolBlock) (index : nat) : list json :=
  match nth_error blocks index with
  | Some b => default [] (transactions b)
  | None => []
  end.

Definition handle_track_mempool_block (col : Collab) (f : Frame) (w : Work) : Work :=
  match f_track_mempool_block f with
  | Some (IntArg n) =>
      if (0 <=? n)%Z then
        let index := Z.to_nat n in
        respond "projected-block-transactions"
          (Some (stringify
                   (JObj [("index", JNum n);
                          ("blockTransactions",
                           JArr (map (compressTx col)
                                   (transactions_at
                                      (getMempoolBlocksWithTransactions col) index)))])))
          (on_client (set_track_mempool_block (Index index)) w)
      else on_client (set_track_mempool_block Cleared) w
  | Some OtherArg => on_client (set_track_mempool_block Cleared) w
  | None => w
  end.

Definition handle_track_rbf (col : Collab) (f : Frame) (w : Work) : Work :=
  match f_track_rbf f with
  | Some v =>
      if includes v ["all"; "fullRbf"] then
        respond "rbfLatest"
          (Some (stringify (getRbfTrees col (String.eqb v "fullRbf"))))
          (on_client (set_track_rbf (Some v)) w)
      else on_client (set_track_rbf None) w
  | None => w
  end.

Definition handle_track_rbf_summary (s : State) (f : Frame) (w : Work) : Work :=
  match f_track_rbf_summary f with
  | Some true =>
      let w := on_client (set_track_rbf_summary true) w in
      match Obj.get "rbfSummary" (socketData s) with
      | Some summary => respond "rbfLatestSummary" (Some summary) w
      | None => w
      end
  | Some false => on_client (set_track_rbf_summary false) w
  | None => w
  end.

(** *** action: init *)

(** [!text?.length] and [!text], which agree on a string or [undefined]. *)
Definition blank (v : option string) : bool := negb (truthy_str v).

Definition needs_refresh (sd : Obj.t string) : bool :=
  blank (Obj.get "blocks" sd) || blank (Obj.get "da" sd)
  || blank (Obj.get "backendInfo" sd) || blank (Obj.get "conversions" sd).

(** The snapshot after the refresh, if one is due. *)
Definition refreshed (cfg : Config) (col : Collab) (s : State) : State :=
  if needs_refresh (socketData s) then updateSocketData cfg col s else s.

(** *** ping, track-donation, track-bisq-market *)

Definition handle_ping (f : Frame) (w : Work) : Work :=
  if String.eqb (default "" (action f)) "ping"
  then respond "pong" (Some (stringify (JBool true))) w else w.

Definition handle_track_donation (f : Frame) (w : Work) : Work :=
  if truthy_str (f_track_donation f)
     && (String.length (default "" (f_track_donation f)) =? 22)
  then on_client (set_track_donation (f_track_donation f)) w else w.

Definition handle_track_bisq_market (f : Frame) (w : Work) : Work :=
  if truthy_str (f_track_bisq_market f) then
    if test re_market (default "" (f_track_bisq_market f))
    then on_client (set_track_bisq_market (f_track_bisq_market f)) w
    else on_client (set_track_bisq_market None) w
  else w.

(** *** The whole callback *)

(** What processing one message leaves behind: the snapshot, the session,
    the response object, the frames sent in order, and whether the socket
    was closed. *)
Record Result := {
  server : State;
  session : Client;
  reply : Obj.t (option string);
  sent : list string;
  closed : bool
}.

(** Everything up to [action: init]. *)
Definition before_init (cfg : Config) (col : Collab) (s : State) (c : Client)
    (f : Frame) : Outcome :=
  let wanted := handle_want f c in
  let w := {| client := fst wanted; response := [] |} in
  let w := seed s col f (snd wanted) w in
  let w := handle_track_tx cfg col f w in
  and_then (handle_track_address f w) (fun w =>
  and_then (handle_track_addresses cfg f w) (fun w =>
  and_then (handle_track_scriptpubkeys cfg f w) (fun w =>
  let w := handle_track_asset f w in
  let w := handle_track_mempool_block col f w in
  let w := handle_track_rbf col f w in
  Done (handle_track_rbf_summary s f w)))).

(** Everything after it, down to the final send. *)
Definition after_init (f : Frame) (w : Work) : Work :=
  handle_track_bisq_market f (handle_track_donation f (handle_ping f w)).

Definition send_response (r : Obj.t (option string)) : list string :=
  if 0 <? length (Obj.keys r) then [serializeResponse r] else [].

(** [msg] is the parsed frame; [None] stands for a text that [JSON.parse]
    rejects or parses to [null], on which the callback throws. Whenever the
    callback throws, the [catch] closes the socket: nothing is sent, the
    snapshot is as it was, and the session keeps what was assigned to it
    before the exception. *)
Definition onMessage (cfg : Config) (col : Collab) (s : State) (c : Client)
    (msg : option Frame) : Result :=
  match msg with
  | None =>
      {| server := s; session := c; reply := []; sent := []; closed := true |}
  | Some f =>
      match before_init cfg col s c f with
      | Thrown w =>
          {| server := s; session := client w; reply := response w;
             sent := []; closed := true |}
      | Done w =>
          if String.eqb (default "" (action f)) "init" then
            let s' := refreshed cfg col s in
            if blank (Obj.get "blocks" (socketData s')) then
              (* return *)
              {| server := s'; session := client w; reply := response w;
                 sent := []; closed := false |}
            else
              let w := after_init f w in
              {| server := s'; session := client w; reply := response w;
                 sent := serializedInitData s' :: send_response (response w);
                 closed := false |}
          else
            let w := after_init f w in
            {| server := s; session := client w; reply := response w;
               sent := send_response (response w); closed := false |}
      end
  end.

End Decoder.
(** ** Sample frames and collaborators *)

Module Sample.
Import Json Server Session.

(** [{"action":"init"}], [{"action":"want","data":[...]}] and the frames
    that carry one tracking list and nothing else: [entries_frame] and
    [keys_frame] with any entries, [addresses_frame] and
    [scriptpubkeys_frame] with strings. *)
Definition init_frame : Frame :=
  {| action := Some "init"; data := None; refresh_blocks := false;
     f_track_tx := None; watch_mempool := false; f_track_address := None;
     f_track_addresses := None; f_track_scriptpubkeys := None;
     f_track_asset := None; f_track_mempool_block := None; f_track_rbf := None;
     f_track_rbf_summary := None; f_track_donation := None;
     f_track_bisq_market := None |}.

Definition want_frame (classes : list string) : Frame :=
  {| action := Some "want"; data := Some classes; refresh_blocks := false;
     f_track_tx := None; watch_mempool := false; f_track_address := None;
     f_track_addresses := None; f_track_scriptpubkeys := None;
     f_track_asset := None; f_track_mempool_block := None; f_track_rbf := None;
     f_track_rbf_summary := None; f_track_donation := None;
     f_track_bisq_market := None |}.

Definition entries_frame (l : list Entry) : Frame :=
  {| action := None; data := None; refresh_blocks := false;
     f_track_tx := None; watch_mempool := false; f_track_address := None;
     f_track_addresses := Some l; f_track_scriptpubkeys := None;
     f_track_asset := None; f_track_mempool_block := None; f_track_rbf := None;
     f_track_rbf_summary := None; f_track_donation := None;
     f_track_bisq_market := None |}.


Definition addresses_frame (l : list string) : Frame :=
  entries_frame (map Str l).


(** A configuration that tracks one address per connection. *)
Definition cfg : Config :=
  {| INITIAL_BLOCKS_AMOUNT := 8; MAX_TRACKED_ADDRESSES := 1;
     BACKEND_esplora := true |}.

(** A backend that has just started: no block is known, the difficulty
    adjustment is not yet computed, the mempool is empty. *)
Definition starting : Collab :=
  {| getBlocks := [];
     getDifficultyAdjustment := None;
     getMempoolInfo := JObj [("size", JNum 0)];
     getVBytesPerSecond := JNum 0;
     getLatestPrices := JObj [("USD", JNum 0)];
     getMempoolBlocks := JArr [];
     getLatestTransactions := JArr [];
     getBackendInfo := JObj [("hostname", JStr "node")];
     getLoadingIndicators := JObj [];
     getRecommendedFee := JObj [("fastestFee", JNum 1)];
     getHealthStatus := JArr [];
     getMempool := ∅;
     isInSync := true;
     getReplacedBy := fun _ => None;
     getMempoolTransactionExtended := fun _ => None;
     stringify_tx := fun tx => stringify (JObj [("txid", JStr (txid tx))]);
     getMempoolBlocksWithTransactions := [];
     getMempoolBlockDeltas := [];
     compressTx := fun tx => tx;
     getRbfTrees := fun _ => JArr [];
     getRbfChanges_trees := [];
     getRbfChanges_map := ∅;
     getLatestRbfSummary := JNull;
     nativeAssetId := "6f0279e9ed041c3d710a9f57d0c02928416460c4b722ae3457a11eec381c526d" |}.

Definition peer : Client := fresh "127.0.0.1".

Definition address_a : string := "bc1qw508d6qejxtdg4y5r3zarvary0c5xw7kv8f3t4".
Definition address_b : string := "1BvBMSEYstWetqTFn5Au4m4GFg7xJaNVN2".
(** [address_a] in capitals, which [testAddress] turns to lower case. *)
Definition address_caps : string := "BC1QW508D6QEJXTDG4Y5R3ZARVARY0C5XW7KV8F3T4".

End Sample.
(** ** Vocabulary of the claims on subscriptions *)

Module Subscriptions.
Import Session Decoder.

(** The session after a ['want'] frame that lists the classes [d]: every
    class is on exactly when it is listed, and the marker [wants] is set. *)
Definition relisted (d : list string) (c : Client) : Client :=
  set_wants true
    (fold_left (fun c sub => set_want sub (includes sub d) c) wantable c).

(** The classes such a frame newly turns on. *)
Definition newly_on (d : list string) (c : Client) : list string :=
  List.filter (fun sub => includes sub d && negb (want sub c)) wantable.

End Subscriptions.

(** ** Vocabulary of the claims on the tracking lists *)

Module Tracking.
Import Server Session Decoder.

Definition valid_address (a : string) : bool :=
  match Address.testAddress a with Some _ => true | None => false end.

(** The entries of a list that pass the validator, each counted once. *)
Definition distinct_valid (l : list string) : list string :=
  remove_dups (List.filter valid_address l).

Definition valid_scriptpubkey (spk : string) : bool := test re_hex spk.

(** The map and the list that the two loops build from entries that are
    strings. *)
Definition collect_addresses (l : list string) : Obj.t string :=
  fold_left (fun addressMap address =>
               match Address.testAddress address with
               | Some validAddress => Obj.set address validAddress addressMap
               | None => addressMap
               end) l [].

Definition collect_scriptpubkeys (l : list string) : list string :=
  map toLowerCase (List.filter valid_scriptpubkey l).

(** The entries on which the loop of [track-addresses], and that of
    [track-scriptpubkeys], throws. *)
Definition throws (e : Entry) : bool :=
  match testEntry e with Throws => true | _ => false end.

Definition key_throws (e : Entry) : bool :=
  match e with
  | Str _ => false
  | Other (Some t) => test re_hex t
  | Other None => true
  end.

(** The frames on which one of the three handlers throws. *)
Definition address_throws (f : Frame) : bool :=
  match f_track_address f with
  | Some e => truthy_entry e && throws e
  | None => false
  end.

Definition addresses_throw (f : Frame) : bool :=
  match f_track_addresses f with Some l => existsb throws l | None => false end.

Definition scriptpubkeys_throw (f : Frame) : bool :=
  match f_track_scriptpubkeys f with
  | Some l => existsb key_throws l
  | None => false
  end.

Definition raises (f : Frame) : bool :=
  address_throws f || addresses_throw f || scriptpubkeys_throw f.

(** The frames in which the value of [track-address] and the entries of
    the two lists are strings. *)
Definition is_string (e : Entry) : bool :=
  match e with Str _ => true | Other _ => false end.

Definition strings_only (f : Frame) : bool :=
  match f_track_address f with Some e => is_string e | None => true end
  && match f_track_addresses f with
     | Some l => forallb is_string l
     | None => true
     end
  && match f_track_scriptpubkeys f with
     | Some l => forallb is_string l
     | None => true
     end.

(** The two tracking lists of a session, and the two error entries of a
    response. *)
Definition lists (c : Client) : option (Obj.t string) * option (list string) :=
  (track_addresses c, track_scriptpubkeys c).
Definition errors (r : Obj.t (option string)) : option (option string) * option (option string) :=
  (Obj.get "track-addresses-error" r, Obj.get "track-scriptpubkeys-error" r).


(** What a frame does to the address list of a session and to the error
    entry of the response when its handler does not throw, read off the
    handler of [track-addresses]. *)
Definition addresses_outcome (cfg : Config) (f : Frame) (c : Client)
    : option (Obj.t string) * option (option string) :=
  match f_track_addresses f with
  | Some l =>
      let m := collect_addresses (map key_of l) in
      let n := length (Obj.keys m) in
      if MAX_TRACKED_ADDRESSES cfg <? n
      then (None, Some (Some (too_many "addresses" cfg)))
      else if 0 <? n then (Some m, None) else (None, None)
  | None => (track_addresses c, None)
  end.

Definition scriptpubkeys_outcome (cfg : Config) (f : Frame) (c : Client)
    : option (list string) * option (option string) :=
  match f_track_scriptpubkeys f with
  | Some l =>
      let spks := collect_scriptpubkeys (map key_of l) in
      let n := length spks in
      if MAX_TRACKED_ADDRESSES cfg <? n
      then (None, Some (Some (too_many "scriptpubkeys" cfg)))
      else if 0 <? n then (Some spks, None) else (None, None)
  | None => (track_scriptpubkeys c, None)
  end.

End Tracking.
(** ** The event fan-out: shared pieces

    One upstream event refreshes the snapshot, precomputes what all clients
    share and then visits the clients in turn. A turn builds the response of
    one client; the cache of serialized values is handed from turn to turn.
    Where the source suspends a turn (to enrich a transaction in a backend
    other than esplora), the turns are modelled one after the other: they
    share nothing but the cache, whose entries do not depend on who filled
    them. *)

Module Fanout.
Import Json Server Session.

Definition truthy_str := Decoder.truthy_str.

(** [JSON.stringify] of an array of transactions. *)
Definition stringify_txs (col : Collab) (l : list Tx) : string :=
  "[" +:+ join "," (map (stringify_tx col) l) +:+ "]".

(** [JSON.stringify] of an object whose values are serialized by [f]. *)
Definition stringify_map {V} (f : V -> string) (o : Obj.t V) : string :=
  "{" +:+ join "," (map (fun kv => quoted (fst kv) +:+ ":" +:+ f (snd kv))
                      (Obj.enumerate o))
      +:+ "}".

Record AddressTransactions := {
  at_mempool : list Tx;
  at_confirmed : list Tx;
  at_removed : list Tx
}.

Definition stringify_address_transactions (col : Collab) (a : AddressTransactions)
    : string :=
  "{" +:+ quoted "mempool" +:+ ":" +:+ stringify_txs col (at_mempool a)
      +:+ "," +:+ quoted "confirmed" +:+ ":" +:+ stringify_txs col (at_confirmed a)
      +:+ "," +:+ quoted "removed" +:+ ":" +:+ stringify_txs col (at_removed a)
      +:+ "}".

(** The state of one turn: the session, the response under construction
    and the cache. *)
Record Turn := {
  t_client : Client;
  t_response : Obj.t (option string);
  t_cache : Obj.t string
}.

Definition put (key : string) (v : option string) (t : Turn) : Turn :=
  {| t_client := t_client t;
     t_response := Obj.set key v (t_response t);
     t_cache := t_cache t |}.

(** [getCachedResponse]: the cached text, serialized on the first miss. *)
Definition getCachedResponse (key : string) (data : json) (cache : Obj.t string)
    : string * Obj.t string :=
  if truthy_str (Obj.get key cache) then (default "" (Obj.get key cache), cache)
  else (stringify data, Obj.set key (stringify data) cache).

(** [response[key] = getCachedResponse(cacheKey, data)]. *)
Definition put_cached (key cacheKey : string) (data : json) (t : Turn) : Turn :=
  let hit := getCachedResponse cacheKey data (t_cache t) in
  {| t_client := t_client t;
     t_response := Obj.set key (Some (fst hit)) (t_response t);
     t_cache := snd hit |}.

(** *** makeAddressCache *)

(** [set.add(tx)]: transactions of one event are told apart by their
    txid. *)
Definition add_tx (tx : Tx) (set : list Tx) : list Tx :=
  if existsb (fun t => String.eqb (txid t) (txid tx)) set then set else set ++ [tx].

Definition cache_add (key : option string) (tx : Tx) (cache : Obj.t (list Tx))
    : Obj.t (list Tx) :=
  if truthy_str key then
    Obj.set (default "" key)
      (add_tx tx (default [] (Obj.get (default "" key) cache))) cache
  else cache.

Definition makeAddressCache (txs : list Tx) : Obj.t (list Tx) :=
  fold_left
    (fun addressCache tx =>
       let addressCache :=
         fold_left (fun addressCache vin =>
                      cache_add (prevout vin ≫= prevout_scriptpubkey) tx
                        (cache_add (prevout vin ≫= prevout_scriptpubkey_address) tx
                           addressCache))
           (vin tx) addressCache in
       fold_left (fun addressCache vout =>
                    cache_add (scriptpubkey vout) tx
                      (cache_add (scriptpubkey_address vout) tx addressCache))
         (vout tx) addressCache)
    txs [].

(** [Array.from(addressCache[key]?.values() || [])]. *)
Definition cached_txs (cache : Obj.t (list Tx)) (key : string) : list Tx :=
  default [] (Obj.get key cache).

(** [getFullTransactions]: each transaction is replaced by its full form,
    or kept when the fetch fails. *)
Definition getFullTransactions (col : Collab) (txs : list Tx) : list Tx :=
  map (fun tx => default tx (getMempoolTransactionExtended col (txid tx))) txs.

(** An object literal whose undefined fields [JSON.stringify] omits. *)
Definition obj_of (fields : list (string * option json)) : json :=
  JObj (omap (fun kv => match snd kv with
                        | Some v => Some (fst kv, v)
                        | None => None
                        end) fields).

(** [x || null]. *)
Definition or_null (v : option json) : json :=
  if truthy_opt v then default JNull v else JNull.

(** [{...tx.position, accelerated: tx.acceleration || undefined}]. *)
Definition position_data (tx : Tx) (p : Obj.t json) : json :=
  JObj (if default false (acceleration tx)
        then Obj.set "accelerated" (JBool true) p
        else Obj.del "accelerated" p).

(** The transactions that touch a tracked asset. *)
Definition touches_asset (col : Collab) (asset_id : string) (tx : Tx) : bool :=
  if String.eqb asset_id (nativeAssetId col) then
    existsb is_pegin (vin tx) || existsb pegout (vout tx)
  else
    existsb (fun vin => match issuance_asset_id vin with
                        | Some a => String.eqb a asset_id
                        | None => false
                        end) (vin tx)
    || existsb (fun vout => truthy_str (asset vout)
                            && String.eqb (default "" (asset vout)) asset_id)
         (vout tx).

(** The frame a turn ends with, if any. *)
Definition frame_of (t : Turn) : option string :=
  if 0 <? length (Obj.keys (t_response t))
  then Some (serializeResponse (t_response t)) else None.

End Fanout.
(** ** The mempool-delta fan-out: [$handleMempoolChange] *)

Module MempoolFanout.
Import Json Server Session Fanout.

(** The arguments of [$handleMempoolChange]; [mempoolSize] and
    [accelerationDelta] are only handed on to the template builder. *)
Record Change := {
  newMempool : gmap string Tx;
  mempoolSize : nat;
  newTransactions : list Tx;
  deletedTransactions : list Tx;
  accelerationDelta : list string
}.

(** *** What is computed once, before the clients are visited *)

(** The replacement trees and their summary, fetched only when the RBF cache
    reports new trees. *)
Definition rbf_changed (col : Collab) : bool :=
  0 <? length (Obj.keys (getRbfChanges_trees col)).
Definition rbfReplacements (col : Collab) : option json :=
  if rbf_changed col then Some (getRbfTrees col false) else None.
Definition fullRbfReplacements (col : Collab) : option json :=
  if rbf_changed col then Some (getRbfTrees col true) else None.
Definition rbfSummary (col : Collab) : option json :=
  if rbf_changed col then Some (getLatestRbfSummary col) else None.

Definition socketDataFields (col : Collab) : Obj.t (option json) :=
  [ ("mempoolInfo", Some (getMempoolInfo col));
    ("vBytesPerSecond", Some (getVBytesPerSecond col));
    ("mempool-blocks", Some (getMempoolBlocks col));
    ("transactions", Some (getLatestTransactions col));
    ("loadingIndicators", Some (getLoadingIndicators col));
    ("da", da_if_known (getDifficultyAdjustment col));
    ("fees", Some (getRecommendedFee col)) ]
  ++ (if truthy_opt (rbfSummary col) then [("rbfSummary", rbfSummary col)] else []).

(** The txids some client follows. *)
Definition trackedTxs (clients : list Client) : gset string :=
  fold_left (fun tracked c =>
               if truthy_str (track_tx c)
               then tracked ∪ {[ default "" (track_tx c) ]} else tracked)
    clients ∅.

(** One input of a new transaction, recorded in the outspend index if the
    transaction it spends is followed: [vin.txid] maps to an object that
    maps [vin.vout] to the input index and the txid of the spender. *)
Definition record_spend (tracked : gset string) (spender : string)
    (outspendCache : Obj.t (Obj.t (nat * string))) (input : nat * Vin)
    : Obj.t (Obj.t (nat * string)) :=
  let i := fst input in
  let vin := snd input in
  if bool_decide (vin_txid vin ∈ tracked) then
    match Obj.get (vin_txid vin) outspendCache with
    | None =>
        Obj.set (vin_txid vin)
          [(decimal (Z.of_nat (vin_vout vin)), (i, spender))] outspendCache
    | Some outspends =>
        Obj.set (vin_txid vin)
          (Obj.set (decimal (Z.of_nat (vin_vout vin))) (i, spender) outspends)
          outspendCache
    end
  else outspendCache.

(** The inputs of a transaction with their indices. *)
Definition indexed_vin (tx : Tx) : list (nat * Vin) :=
  combine (seq 0 (length (vin tx))) (vin tx).

Definition make_outspendCache (clients : list Client) (txs : list Tx)
    : Obj.t (Obj.t (nat * string)) :=
  let tracked := trackedTxs clients in
  if 0 <? size tracked then
    fold_left (fun cache tx =>
                 fold_left (record_spend tracked (txid tx)) (indexed_vin tx) cache)
      txs []
  else [].

(** [JSON.stringify(outspends)]. *)
Definition stringify_outspends (outspends : Obj.t (nat * string)) : string :=
  stringify_map (fun spend =>
                   stringify (JObj [("vin", JNum (Z.of_nat (fst spend)));
                                    ("txid", JStr (snd spend))]))
    outspends.

(** *** The turn of one client *)

Section Turn.
Variable cfg : Config.
Variable col : Collab.
Variable chg : Change.
Variable outspendCache : Obj.t (Obj.t (nat * string)).
Variable addressCache : Obj.t (list Tx).
Variable removedAddressCache : Obj.t (list Tx).

(** Transactions may miss their prevouts in backends other than esplora,
    where they are fetched in full. *)
Definition full_transactions (txs : list Tx) : list Tx :=
  if BACKEND_esplora cfg then txs else getFullTransactions col txs.

Definition turn_stats (t : Turn) : Turn :=
  if want_stats (t_client t) then
    let t := put_cached "mempoolInfo" "mempoolInfo" (getMempoolInfo col) t in
    let t := put_cached "vBytesPerSecond" "vBytesPerSecond" (getVBytesPerSecond col) t in
    let t := put_cached "transactions" "transactions" (getLatestTransactions col) t in
    let t := match da_if_known (getDifficultyAdjustment col) with
             | Some da => put_cached "da" "da" da t
             | None => t
             end in
    put_cached "fees" "fees" (getRecommendedFee col) t
  else t.

Definition turn_mempool_blocks (t : Turn) : Turn :=
  if want_mempool_blocks (t_client t)
  then put_cached "mempool-blocks" "mempool-blocks" (getMempoolBlocks col) t
  else t.

Definition turn_tomahawk (t : Turn) : Turn :=
  if want_tomahawk (t_client t)
  then put_cached "tomahawk" "tomahawk" (getHealthStatus col) t
  else t.

Definition clear_track_mempool_tx (t : Turn) : Turn :=
  {| t_client := set_track_mempool_tx None (t_client t);
     t_response := t_response t; t_cache := t_cache t |}.

Definition turn_track_mempool_tx (t : Turn) : Turn :=
  if truthy_str (track_mempool_tx (t_client t)) then
    match find (fun tx => String.eqb (txid tx)
                            (default "" (track_mempool_tx (t_client t))))
            (newTransactions chg) with
    | Some tx =>
        let t :=
          if negb (BACKEND_esplora cfg) then
            match getMempoolTransactionExtended col (txid tx) with
            | Some fullTx => put "tx" (Some (stringify_tx col fullTx)) t
            | None => t
            end
          else put "tx" (Some (stringify_tx col tx)) t in
        clear_track_mempool_tx t
    | None => t
    end
  else t.

Definition turn_track_address (t : Turn) : Turn :=
  if truthy_str (track_address (t_client t)) then
    let address := default "" (track_address (t_client t)) in
    let removedTransactions := cached_txs removedAddressCache address in
    let fullTransactions := full_transactions (cached_txs addressCache address) in
    let t := if 0 <? length removedTransactions
             then put "address-removed-transactions"
                    (Some (stringify_txs col removedTransactions)) t
             else t in
    if 0 <? length fullTransactions
    then put "address-transactions" (Some (stringify_txs col fullTransactions)) t
    else t
  else t.

(** The entry of one tracked address or script, if it has new
    transactions. *)
Definition add_entry (name key : string) (m : Obj.t AddressTransactions)
    : Obj.t AddressTransactions :=
  let fullTransactions := full_transactions (cached_txs addressCache key) in
  if 0 <? length fullTransactions then
    Obj.set name {| at_mempool := fullTransactions; at_confirmed := [];
                    at_removed := cached_txs removedAddressCache key |} m
  else m.

Definition turn_track_addresses (t : Turn) : Turn :=
  match track_addresses (t_client t) with
  | Some tracked =>
      let addressMap :=
        fold_left (fun m entry => add_entry (fst entry) (snd entry) m)
          (Obj.enumerate tracked) [] in
      if 0 <? length (Obj.keys addressMap)
      then put "multi-address-transactions"
             (Some (stringify_map (stringify_address_transactions col) addressMap)) t
      else t
  | None => t
  end.

Definition turn_track_scriptpubkeys (t : Turn) : Turn :=
  match track_scriptpubkeys (t_client t) with
  | Some spks =>
      let spkMap := fold_left (fun m spk => add_entry spk spk m) spks [] in
      if 0 <? length (Obj.keys spkMap)
      then put "multi-scriptpubkey-transactions"
             (Some (stringify_map (stringify_address_transactions col) spkMap)) t
      else t
  | None => t
  end.

Definition turn_track_asset (t : Turn) : Turn :=
  if truthy_str (track_asset (t_client t)) then
    let foundTransactions :=
      List.filter (touches_asset col (default "" (track_asset (t_client t))))
        (newTransactions chg) in
    if 0 <? length foundTransactions
    then put "address-transactions" (Some (stringify_txs col foundTransactions)) t
    else t
  else t.

(** [positionData], with the CPFP details of a transaction whose CPFP data
    changed. *)
Definition positionData (trackTxid : string) (tx : Tx) (p : Obj.t json) : json :=
  JObj ([("txid", JStr trackTxid); ("position", position_data tx p)]
        ++ if cpfpDirty tx then
             [("cpfp",
               obj_of [("ancestors", ancestors tx);
                       ("bestDescendant", Some (or_null (bestDescendant tx)));
                       ("descendants", Some (or_null (descendants tx)));
                       ("effectiveFeePerVsize",
                        Some (or_null (effectiveFeePerVsize tx)));
                       ("sigops", sigops tx);
                       ("adjustedVsize", adjustedVsize tx);
                       ("acceleration", JBool <$> acceleration tx)])]
           else []).

Definition turn_track_tx (t : Turn) : Turn :=
  if truthy_str (track_tx (t_client t)) then
    let trackTxid := default "" (track_tx (t_client t)) in
    let t := match Obj.get trackTxid outspendCache with
             | Some outspends =>
                 if 0 <? length (Obj.keys outspends)
                 then put "utxoSpent" (Some (stringify_outspends outspends)) t
                 else t
             | None => t
             end in
    let rbfChange := getRbfChanges_map col !! trackTxid in
    let t := if truthy_str rbfChange && truthy_str (getReplacedBy col trackTxid)
             then put "rbfTransaction"
                    (Some (stringify
                             (JObj [("txid",
                                     JStr (default "" (getReplacedBy col trackTxid)))])))
                    t
             else t in
    let t := if truthy_str rbfChange
             then put "rbfInfo"
                    (stringify <$> Obj.get (default "" rbfChange)
                                     (getRbfChanges_trees col)) t
             else t in
    match newMempool chg !! trackTxid with
    | Some mempoolTx =>
        match position mempoolTx with
        | Some p =>
            put "txPosition" (Some (stringify (positionData trackTxid mempoolTx p))) t
        | None => t
        end
    | None => t
    end
  else t.

(** [client['track-mempool-block'] >= 0], which [null] passes; the deltas
    have no entry at [null]. *)
Definition turn_track_mempool_block (t : Turn) : Turn :=
  match track_mempool_block (t_client t) with
  | Index index =>
      if isInSync col then
        match nth_error (getMempoolBlockDeltas col) index with
        | Some d =>
            put_cached "projected-block-transactions"
              ("projected-block-transactions-" +:+ decimal (Z.of_nat index))
              (JObj [("index", JNum (Z.of_nat index)); ("delta", delta_value d)]) t
        | None => t
        end
      else t
  | Cleared | Unset => t
  end.

Definition turn_track_rbf (t : Turn) : Turn :=
  if String.eqb (default "" (track_rbf (t_client t))) "all"
     && truthy_opt (rbfReplacements col)
  then put_cached "rbfLatest" "rbfLatest" (default JNull (rbfReplacements col)) t
  else if String.eqb (default "" (track_rbf (t_client t))) "fullRbf"
          && truthy_opt (fullRbfReplacements col)
  then put_cached "rbfLatest" "fullrbfLatest"
         (default JNull (fullRbfReplacements col)) t
  else t.

Definition turn_track_rbf_summary (t : Turn) : Turn :=
  if track_rbf_summary (t_client t) && truthy_opt (rbfSummary col)
  then put_cached "rbfLatestSummary" "rbfLatestSummary"
         (default JNull (rbfSummary col)) t
  else t.

(** The body of the loop over the clients, for an open socket. *)
Definition turn (c : Client) (cache : Obj.t string) : Turn :=
  let t := {| t_client := c; t_response := []; t_cache := cache |} in
  let t := turn_stats t in
  let t := turn_mempool_blocks t in
  let t := turn_tomahawk t in
  let t := turn_track_mempool_tx t in
  let t := turn_track_address t in
  let t := turn_track_addresses t in
  let t := turn_track_scriptpubkeys t in
  let t := turn_track_asset t in
  let t := turn_track_tx t in
  let t := turn_track_mempool_block t in
  let t := turn_track_rbf t in
  turn_track_rbf_summary t.

End Turn.

(** *** The whole handler *)

(** A client after the event, and the frame it was sent, if any. *)
Definition Visit : Type := Client * option string.

Definition visit (run : Client -> Obj.t string -> Turn)
    (acc : Obj.t string * list Visit) (c : Client) : Obj.t string * list Visit :=
  if ready_open c then
    let t := run c (fst acc) in
    (t_cache t, snd acc ++ [(t_client t, frame_of t)])
  else (fst acc, snd acc ++ [(c, None)]).

(** [col] is what the collaborators answer once the projected blocks have
    been updated for the new mempool. *)
Definition handleMempoolChange (cfg : Config) (col : Collab) (chg : Change)
    (s : State) (clients : list Client) : State * list Visit :=
  let s := updateSocketDataFields (socketDataFields col) s in
  let responseCache := socketData s in
  let outspendCache := make_outspendCache clients (newTransactions chg) in
  let addressCache := makeAddressCache (newTransactions chg) in
  let removedAddressCache := makeAddressCache (deletedTransactions chg) in
  (s, snd (fold_left
             (visit (turn cfg col chg outspendCache addressCache removedAddressCache))
             clients (responseCache, []))).

End MempoolFanout.
(** ** The new-block fan-out: [handleNewBlock]

    From the removal of the mined transactions on; what precedes it in the
    source (accelerations, audit) writes to the repositories and to
    [block.extras], which are part of the block as it is serialized here. *)

Module BlockFanout.
Import Json Server Session Fanout.

(** The block, with the fields the handler reads. *)
Record Block := {
  block_value : json;       (* the object as it is serialized *)
  height : Z;
  id : string;
  timestamp : Z
}.

(** The arguments of [handleNewBlock]. *)
Record NewBlock := {
  block : Block;
  txIds : list string;
  block_txs : list Tx       (* the argument [transactions] *)
}.

(** [_memPool] once the mined transactions are deleted from it. *)
Definition mempool_after (col : Collab) (ev : NewBlock) : gmap string Tx :=
  fold_left (fun m txId => delete txId m) (txIds ev) (getMempool col).

Definition confirmedTxids (ev : NewBlock) : gset string :=
  fold_left (fun confirmed txId => confirmed ∪ {[ txId ]}) (txIds ev) ∅.

Definition socketDataFields (cfg : Config) (col : Collab) (ev : NewBlock)
    : Obj.t (option json) :=
  [ ("mempoolInfo", Some (getMempoolInfo col));
    ("blocks", Some (JArr (slice_last (INITIAL_BLOCKS_AMOUNT cfg)
                             (getBlocks col ++ [block_value (block ev)]))));
    ("mempool-blocks", Some (getMempoolBlocks col));
    ("loadingIndicators", Some (getLoadingIndicators col));
    ("da", da_if_known (getDifficultyAdjustment col));
    ("fees", Some (getRecommendedFee col)) ].

(** [tx.status = {confirmed: true, ...}]. The transactions are objects
    shared by all turns: once stamped, a transaction stays stamped. *)
Definition stamp (ev : NewBlock) (tx : Tx) : Tx :=
  {| txid := txid tx; vin := vin tx; vout := vout tx; position := position tx;
     acceleration := acceleration tx; cpfpDirty := cpfpDirty tx;
     ancestors := ancestors tx; bestDescendant := bestDescendant tx;
     descendants := descendants tx;
     effectiveFeePerVsize := effectiveFeePerVsize tx; sigops := sigops tx;
     adjustedVsize := adjustedVsize tx;
     status := Some {| confirmed := true; block_height := height (block ev);
                       block_hash := id (block ev);
                       block_time := timestamp (block ev) |} |}.

(** A turn of this fan-out also carries the txids of the transactions
    stamped so far. *)
Record BlockTurn := {
  bt : Turn;
  stamped : gset string
}.

Definition lift (g : Turn -> Turn) (b : BlockTurn) : BlockTurn :=
  {| bt := g (bt b); stamped := stamped b |}.

(** A transaction as the turn sees it. *)
Definition seen (ev : NewBlock) (marks : gset string) (tx : Tx) : Tx :=
  if bool_decide (txid tx ∈ marks) then stamp ev tx else tx.

(** Stamp the found transactions and serialize them under
    [block-transactions]. *)
Definition put_stamped (col : Collab) (ev : NewBlock) (found : list Tx)
    (b : BlockTurn) : BlockTurn :=
  {| bt := put "block-transactions"
             (Some (stringify_txs col (map (stamp ev) found))) (bt b);
     stamped := fold_left (fun marks tx => marks ∪ {[ txid tx ]}) found (stamped b) |}.

Section Turn.
Variable cfg : Config.
Variable col : Collab.
Variable ev : NewBlock.
Variable addressCache : Obj.t (list Tx).

Definition turn_blocks (t : Turn) : Turn :=
  if want_blocks (t_client t)
  then put_cached "block" "block" (block_value (block ev)) t else t.

Definition turn_stats (t : Turn) : Turn :=
  if want_stats (t_client t) then
    let t := put_cached "mempoolInfo" "mempoolInfo" (getMempoolInfo col) t in
    let t := put_cached "vBytesPerSecond" "vBytesPerSecond" (getVBytesPerSecond col) t in
    let t := put_cached "fees" "fees" (getRecommendedFee col) t in
    match da_if_known (getDifficultyAdjustment col) with
    | Some da => put_cached "da" "da" da t
    | None => t
    end
  else t.

Definition turn_mempool_blocks (t : Turn) : Turn :=
  if truthy (getMempoolBlocks col) && want_mempool_blocks (t_client t)
  then put_cached "mempool-blocks" "mempool-blocks" (getMempoolBlocks col) t
  else t.

Definition turn_tomahawk (t : Turn) : Turn :=
  if want_tomahawk (t_client t)
  then put_cached "tomahawk" "tomahawk" (getHealthStatus col) t
  else t.

Definition turn_track_tx (t : Turn) : Turn :=
  if truthy_str (track_tx (t_client t)) then
    let trackTxid := default "" (track_tx (t_client t)) in
    if bool_decide (trackTxid ∈ confirmedTxids ev) then
      put "txConfirmed" (Some (stringify (JStr trackTxid))) t
    else
      match mempool_after col ev !! trackTxid with
      | Some mempoolTx =>
          match position mempoolTx with
          | Some p =>
              put "txPosition"
                (Some (stringify (JObj [("txid", JStr trackTxid);
                                        ("position", position_data mempoolTx p)]))) t
          | None => t
          end
      | None => t
      end
  else t.

Definition turn_track_address (b : BlockTurn) : BlockTurn :=
  if truthy_str (track_address (t_client (bt b))) then
    let foundTransactions :=
      cached_txs addressCache (default "" (track_address (t_client (bt b)))) in
    if 0 <? length foundTransactions
    then put_stamped col ev foundTransactions b else b
  else b.

(** The entry of one tracked address or script, if the block has
    transactions for it. *)
Definition add_entry (marks : gset string) (name key : string)
    (m : Obj.t AddressTransactions) : Obj.t AddressTransactions :=
  let fullTransactions := map (seen ev marks) (cached_txs addressCache key) in
  if 0 <? length fullTransactions then
    Obj.set name {| at_mempool := []; at_confirmed := fullTransactions;
                    at_removed := [] |} m
  else m.

Definition turn_track_addresses (b : BlockTurn) : BlockTurn :=
  match track_addresses (t_client (bt b)) with
  | Some tracked =>
      let addressMap :=
        fold_left (fun m entry => add_entry (stamped b) (fst entry) (snd entry) m)
          (Obj.enumerate tracked) [] in
      if 0 <? length (Obj.keys addressMap)
      then lift (put "multi-address-transactions"
                   (Some (stringify_map (stringify_address_transactions col)
                            addressMap))) b
      else b
  | None => b
  end.

Definition turn_track_scriptpubkeys (b : BlockTurn) : BlockTurn :=
  match track_scriptpubkeys (t_client (bt b)) with
  | Some spks =>
      let spkMap :=
        fold_left (fun m spk => add_entry (stamped b) spk spk m) spks [] in
      if 0 <? length (Obj.keys spkMap)
      then lift (put "multi-scriptpubkey-transactions"
                   (Some (stringify_map (stringify_address_transactions col)
                            spkMap))) b
      else b
  | None => b
  end.

Definition turn_track_asset (b : BlockTurn) : BlockTurn :=
  if truthy_str (track_asset (t_client (bt b))) then
    let foundTransactions :=
      List.filter (touches_asset col (default "" (track_asset (t_client (bt b)))))
        (block_txs ev) in
    if 0 <? length foundTransactions
    then put_stamped col ev foundTransactions b else b
  else b.

(** The projected block a client follows: the delta when it adds at most
    half of the transactions of the block, the whole block otherwise;
    nothing when there is no delta or the block has no transaction. *)
Definition turn_track_mempool_block (t : Turn) : Turn :=
  match track_mempool_block (t_client t) with
  | Index index =>
      if isInSync col then
        match nth_error (getMempoolBlockDeltas col) index with
        | Some d =>
            match nth_error (getMempoolBlocksWithTransactions col) index
                    ≫= transactions with
            | Some txs =>
                if 0 <? length txs then
                  if length txs <? 2 * length (added d) then
                    put_cached "projected-block-transactions"
                      ("projected-block-transactions-full-"
                         +:+ decimal (Z.of_nat index))
                      (JObj [("index", JNum (Z.of_nat index));
                             ("blockTransactions", JArr (map (compressTx col) txs))])
                      t
                  else
                    put_cached "projected-block-transactions"
                      ("projected-block-transactions-delta-"
                         +:+ decimal (Z.of_nat index))
                      (JObj [("index", JNum (Z.of_nat index));
                             ("delta", delta_value d)])
                      t
                else t
            | None => t
            end
        | None => t
        end
      else t
  | Cleared | Unset => t
  end.

(** The body of the loop over the clients, for an open socket. *)
Definition turn (c : Client) (cache : Obj.t string) (marks : gset string)
    : BlockTurn :=
  let b := {| bt := {| t_client := c; t_response := []; t_cache := cache |};
              stamped := marks |} in
  let b := lift turn_blocks b in
  let b := lift turn_stats b in
  let b := lift turn_mempool_blocks b in
  let b := lift turn_tomahawk b in
  let b := lift turn_track_tx b in
  let b := turn_track_address b in
  let b := turn_track_addresses b in
  let b := turn_track_scriptpubkeys b in
  let b := turn_track_asset b in
  lift turn_track_mempool_block b.

End Turn.

(** The clients visited so far, the cache and the stamped transactions. *)
Record Progress := {
  p_cache : Obj.t string;
  p_stamped : gset string;
  p_visits : list (Client * option string)
}.

Definition visit (run : Client -> Obj.t string -> gset string -> BlockTurn)
    (acc : Progress) (c : Client) : Progress :=
  if ready_open c then
    let b := run c (p_cache acc) (p_stamped acc) in
    {| p_cache := t_cache (bt b); p_stamped := stamped b;
       p_visits := p_visits acc ++ [(t_client (bt b), frame_of (bt b))] |}
  else
    {| p_cache := p_cache acc; p_stamped := p_stamped acc;
       p_visits := p_visits acc ++ [(c, None)] |}.

(** [col] is what the collaborators answer once the templates have been
    rebuilt for the mempool without the mined transactions, except
    [getMempool], which is the mempool before their removal. *)
Definition handleNewBlock (cfg : Config) (col : Collab) (ev : NewBlock)
    (s : State) (clients : list Client) : State * list (Client * option string) :=
  let addressCache := makeAddressCache (block_txs ev) in
  let s := updateSocketDataFields (socketDataFields cfg col ev) s in
  let responseCache := socketData s in
  (s, p_visits (fold_left (visit (turn col ev addressCache)) clients
                  {| p_cache := responseCache; p_stamped := ∅; p_visits := [] |})).

End BlockFanout.
(** ** Vocabulary of the claims on the fan-outs *)

Module Outspends.
Import Json Server Session Fanout MempoolFanout.

(** The outputs the inputs of the transactions spend, in order. *)
Definition spent_outpoints (txs : list Tx) : list (string * nat) :=
  flat_map (fun tx => map (fun vin => (vin_txid vin, vin_vout vin)) (vin tx)) txs.

(** [outspendCache[t][v]]. *)
Definition spend_at (outspendCache : Obj.t (Obj.t (nat * string))) (t : string)
    (v : nat) : option (nat * string) :=
  Obj.get t outspendCache ≫= Obj.get (decimal (Z.of_nat v)).

(** The writes of the two nested loops, one after the other: the txid of the
    spender with each of its indexed inputs. *)
Definition writes (txs : list Tx) : list (string * (nat * Vin)) :=
  flat_map (fun tx => map (fun input => (txid tx, input)) (indexed_vin tx)) txs.

Definition outpoint (w : string * (nat * Vin)) : string * nat :=
  (vin_txid (snd (snd w)), vin_vout (snd (snd w))).

(** The input spends output [v] of the transaction [t]. *)
Definition spends (input : Vin) (t : string) (v : nat) : Prop :=
  vin_txid input = t /\ vin_vout input = v.

(** Input [i] of [b] is the last input of [txs] that spends output [v] of
    [t], in the order of the two nested loops: no input of [b] behind it
    and no input of a transaction behind [b] spends that output. *)
Definition last_spend (txs : list Tx) (t : string) (v : nat) (b : Tx) (i : nat)
    : Prop :=
  exists before after earlier input later,
    txs = before ++ b :: after /\
    vin b = earlier ++ input :: later /\ length earlier = i /\
    spends input t v /\
    (forall input', In input' later -> ~ spends input' t v) /\
    (forall b' input', In b' after -> In input' (vin b') -> ~ spends input' t v).

End Outspends.

Module FanoutSample.
Import Json Server Session Fanout MempoolFanout Sample.

Definition txid_a : string :=
  "aaaaaaaaaaaaaaaaaaaaaaaaaaaaaaaaaaaaaaaaaaaaaaaaaaaaaaaaaaaaaaaa".
Definition txid_b : string :=
  "bbbbbbbbbbbbbbbbbbbbbbbbbbbbbbbbbbbbbbbbbbbbbbbbbbbbbbbbbbbbbbbb".

(** A transaction with the given inputs and nothing else of interest. *)
Definition plain_tx (id : string) (inputs : list Vin) : Tx :=
  {| txid := id; vin := inputs; vout := []; position := None;
     acceleration := None; cpfpDirty := false; ancestors := None;
     bestDescendant := None; descendants := None;
     effectiveFeePerVsize := None; sigops := None; adjustedVsize := None;
     status := None |}.

Definition spend (id : string) (n : nat) : Vin :=
  {| vin_txid := id; vin_vout := n; prevout := None; is_pegin := false;
     issuance_asset_id := None |}.

(** The transaction [bb..bb], whose first input spends output 0 of
    [aa..aa]. *)
Definition tx_b : Tx := plain_tx txid_b [spend txid_a 0].

Definition change_b : Change :=
  {| newMempool := {[ txid_b := tx_b ]}; mempoolSize := 1;
     newTransactions := [tx_b]; deletedTransactions := [];
     accelerationDelta := [] |}.

(** A client that follows [aa..aa]. *)
Definition follower : Client := set_track_tx (Some txid_a) peer.

(** A second transaction, [cc..cc], whose second input spends output 0 of
    [aa..aa] as well, and the delta that adds both. *)
Definition txid_c : string :=
  "cccccccccccccccccccccccccccccccccccccccccccccccccccccccccccccccc".

Definition tx_c : Tx := plain_tx txid_c [spend txid_b 1; spend txid_a 0].

Definition change_bc : Change :=
  {| newMempool := {[ txid_b := tx_b; txid_c := tx_c ]}; mempoolSize := 2;
     newTransactions := [tx_b; tx_c]; deletedTransactions := [];
     accelerationDelta := [] |}.

(** A client that follows [aa..aa] and whose socket is not open. *)
Definition closed_follower : Client :=
  {| remoteAddress := "127.0.0.1"; ready_open := false; want_blocks := false;
     want_mempool_blocks := false; want_live_2h_chart := false;
     want_stats := false; want_tomahawk := false; wants := false;
     track_tx := Some txid_a; track_mempool_tx := None; track_address := None;
     track_addresses := None; track_scriptpubkeys := None;
     track_asset := None; track_mempool_block := Unset; track_rbf := None;
     track_rbf_summary := false; track_donation := None;
     track_bisq_market := None |}.

End FanoutSample.

(** ** The projected block a client follows *)

Module Projected.
Import Json Server Session Fanout BlockFanout.

(** The cache keys of the two forms of a projected block, and the texts
    that belong under them. *)
Definition full_key (index : nat) : string :=
  "projected-block-transactions-full-" +:+ decimal (Z.of_nat index).
Definition delta_key (index : nat) : string :=
  "projected-block-transactions-delta-" +:+ decimal (Z.of_nat index).

Definition full_text (col : Collab) (index : nat) (txs : list json) : string :=
  stringify (JObj [("index", JNum (Z.of_nat index));
                   ("blockTransactions", JArr (map (compressTx col) txs))]).
Definition delta_text (index : nat) (d : Delta) : string :=
  stringify (JObj [("index", JNum (Z.of_nat index)); ("delta", delta_value d)]).

(** The transactions of the projected block at [index], if it has a list
    of them. *)
Definition projected_txs (col : Collab) (index : nat) : option (list json) :=
  nth_error (getMempoolBlocksWithTransactions col) index ≫= transactions.

(** A cache whose entries for projected blocks, where it has any, are the
    texts of this event. *)
Definition cache_sound (col : Collab) (cache : Obj.t string) : Prop :=
  forall index,
    (Obj.get (full_key index) cache = None \/
     exists txs, projected_txs col index = Some txs /\
                 Obj.get (full_key index) cache = Some (full_text col index txs)) /\
    (Obj.get (delta_key index) cache = None \/
     exists d, nth_error (getMempoolBlockDeltas col) index = Some d /\
               Obj.get (delta_key index) cache = Some (delta_text index d)).

(** No field of the snapshot is named like a cache key of a projected
    block. *)
Definition no_projected_field (s : State) : Prop :=
  forall index,
    Obj.get (full_key index) (socketData s) = None /\
    Obj.get (delta_key index) (socketData s) = None.

(** The guard of the step is not met: the client follows no projected
    block, or the mempool is not in sync, or there is no delta at the
    index, or no projected block with at least one transaction. *)
Definition nothing_projected (col : Collab) (c : Client) : Prop :=
  match track_mempool_block c with
  | Index index =>
      isInSync col = false \/
      nth_error (getMempoolBlockDeltas col) index = None \/
      projected_txs col index = None \/
      projected_txs col index = Some []
  | Cleared | Unset => True
  end.

(** A key that is not a cache key of a projected block. *)
Definition other_key (key : string) : Prop :=
  forall index, key <> full_key index /\ key <> delta_key index.

End Projected.

Module BlockSample.
Import Json Server Session Fanout BlockFanout Sample.

(** A block that confirmed the whole mempool: the projected block 0 is
    gone, and its delta lists what left it. *)
Definition emptied : Collab :=
  {| getBlocks := [];
     getDifficultyAdjustment := None;
     getMempoolInfo := JObj [("size", JNum 0)];
     getVBytesPerSecond := JNum 0;
     getLatestPrices := JObj [("USD", JNum 0)];
     getMempoolBlocks := JArr [];
     getLatestTransactions := JArr [];
     getBackendInfo := JObj [("hostname", JStr "node")];
     getLoadingIndicators := JObj [];
     getRecommendedFee := JObj [("fastestFee", JNum 1)];
     getHealthStatus := JArr [];
     getMempool := ∅;
     isInSync := true;
     getReplacedBy := fun _ => None;
     getMempoolTransactionExtended := fun _ => None;
     stringify_tx := fun tx => stringify (JObj [("txid", JStr (txid tx))]);
     getMempoolBlocksWithTransactions := [];
     getMempoolBlockDeltas :=
       [{| added := [];
           delta_value := JObj [("added", JArr []);
                                ("removed", JArr [JStr "cc"]);
                                ("changed", JArr [])] |}];
     compressTx := fun tx => tx;
     getRbfTrees := fun _ => JArr [];
     getRbfChanges_trees := [];
     getRbfChanges_map := ∅;
     getLatestRbfSummary := JNull;
     nativeAssetId := "6f0279e9ed041c3d710a9f57d0c02928416460c4b722ae3457a11eec381c526d" |}.

(** A projected block 0 of two transactions, of which the delta adds one
    ([added_one]) or both ([added_two]). *)
Definition projecting (gained : list json) : Collab :=
  {| getBlocks := [];
     getDifficultyAdjustment := None;
     getMempoolInfo := JObj [("size", JNum 2)];
     getVBytesPerSecond := JNum 0;
     getLatestPrices := JObj [("USD", JNum 0)];
     getMempoolBlocks := JArr [];
     getLatestTransactions := JArr [];
     getBackendInfo := JObj [("hostname", JStr "node")];
     getLoadingIndicators := JObj [];
     getRecommendedFee := JObj [("fastestFee", JNum 1)];
     getHealthStatus := JArr [];
     getMempool := ∅;
     isInSync := true;
     getReplacedBy := fun _ => None;
     getMempoolTransactionExtended := fun _ => None;
     stringify_tx := fun tx => stringify (JObj [("txid", JStr (txid tx))]);
     getMempoolBlocksWithTransactions :=
       [{| transactions := Some [JStr "t1"; JStr "t2"] |}];
     getMempoolBlockDeltas :=
       [{| added := gained;
           delta_value := JObj [("added", JArr gained);
                                ("removed", JArr []);
                                ("changed", JArr [])] |}];
     compressTx := fun tx => tx;
     getRbfTrees := fun _ => JArr [];
     getRbfChanges_trees := [];
     getRbfChanges_map := ∅;
     getLatestRbfSummary := JNull;
     nativeAssetId := "6f0279e9ed041c3d710a9f57d0c02928416460c4b722ae3457a11eec381c526d" |}.

Definition mined : NewBlock :=
  {| block := {| block_value := JObj [("height", JNum 800000)];
                 height := 800000; id := "00"; timestamp := 0 |};
     txIds := []; block_txs := [] |}.

(** A client that follows the projected block 0. *)
Definition watcher : Client := set_track_mempool_block (Index 0) peer.

End BlockSample.
(* ================================================================== *)
(** * Properties *)

(** ** Strings *)

Lemma chars_app s t : chars (s +:+ t) = chars s ++ chars t.
Proof. induction s as [|c s IH]; simpl; [reflexivity|]. unfold chars in *. simpl. now rewrite IH. Qed.

Lemma chars_text l : chars (text l) = l.
Proof. apply list_ascii_of_string_of_list_ascii. Qed.

Lemma text_chars s : text (chars s) = s.
Proof. apply string_of_list_ascii_of_string. Qed.

Lemma chars_inj s t : chars s = chars t -> s = t.
Proof. intros H. rewrite <- (text_chars s), <- (text_chars t). now rewrite H. Qed.

Lemma chars_toLowerCase s : chars (toLowerCase s) = map Chars.lower (chars s).
Proof. unfold toLowerCase. apply chars_text. Qed.

(** Every character is one of the 256 listed ones, so a property of
    characters can be checked by evaluation. *)
Lemma all_ascii_complete c : In c Chars.all_ascii.
Proof.
  unfold Chars.all_ascii. rewrite <- (ascii_nat_embedding c).
  apply in_map, in_seq. pose proof (nat_ascii_bounded c). lia.
Qed.

Lemma forall_ascii (P : ascii -> bool) :
  forallb P Chars.all_ascii = true -> forall c, P c = true.
Proof. intros H c. rewrite forallb_forall in H. apply H, all_ascii_complete. Qed.
(** ** Regular expressions *)

Section Matching.
Variable n : nat.

Lemma in_match_bol s r : In r (match_from n Bol s) <-> r = s /\ length s = n.
Proof.
  simpl. destruct (Nat.eqb_spec (length s) n); simpl; intuition congruence.
Qed.

Lemma in_match_eol s r : In r (match_from n Eol s) <-> r = [] /\ s = [].
Proof. destruct s; simpl; intuition congruence. Qed.

Lemma in_match_lit c s r : In r (match_from n (Lit c) s) <-> s = c :: r.
Proof.
  destruct s as [|c' s]; simpl; [intuition congruence|].
  destruct (Ascii.eqb_spec c c'); simpl; intuition congruence.
Qed.

Lemma in_match_cls rg s r :
  In r (match_from n (Cls rg) s) <-> exists c, s = c :: r /\ Chars.in_class rg c = true.
Proof.
  destruct s as [|c' s]; simpl.
  - split; [tauto | intros (c & H & _); discriminate].
  - destruct (Chars.in_class rg c') eqn:E; simpl.
    + split.
      * intros [<- | []]. eauto.
      * intros (c & [= <- <-] & _). auto.
    + split; [tauto | intros (c & [= <- <-] & H); congruence].
Qed.

Lemma in_match_seq r1 r2 s r :
  In r (match_from n (Seq r1 r2) s) <->
  exists m, In m (match_from n r1 s) /\ In r (match_from n r2 m).
Proof. simpl. apply in_flat_map. Qed.

Lemma in_match_alt r1 r2 s r :
  In r (match_from n (Alt r1 r2) s) <->
  In r (match_from n r1 s) \/ In r (match_from n r2 s).
Proof. simpl. apply in_app_iff. Qed.

(** Counted repetition of a character class consumes a prefix of class
    characters whose length lies within the bounds. *)
Lemma in_iter_cls rg hi : forall lo s r,
  In r (iter_from (match_from n (Cls rg)) lo hi s) <->
  exists pre, s = pre ++ r /\ lo <= length pre <= hi /\
              Forall (fun c => Chars.in_class rg c = true) pre.
Proof.
  induction hi as [|hi IH]; intros lo s r.
  - cbn [iter_from]. destruct lo; simpl.
    + split.
      * intros [<- | []]. exists []. repeat split; auto.
      * intros (pre & -> & [_ Hl] & _). destruct pre; [auto | simpl in Hl; lia].
    + split; [tauto | intros (pre & _ & [H1 H2] & _); lia].
  - cbn [iter_from]. rewrite in_app_iff, in_flat_map. split.
    + intros [H | (m & Hm & Hr)].
      * destruct lo; simpl in H; [|tauto]. destruct H as [<- | []].
        exists []. repeat split; simpl; auto; lia.
      * apply in_match_cls in Hm as (c & -> & Hc).
        apply IH in Hr as (pre & -> & Hl & Hall).
        exists (c :: pre). repeat split; simpl; auto; lia.
    + intros (pre & -> & [Hlo Hhi] & Hall). destruct pre as [|c pre].
      * left. destruct lo; [simpl; auto | simpl in Hlo; lia].
      * right. exists (pre ++ r). split.
        -- apply in_match_cls. exists c. inversion Hall; auto.
        -- apply IH. exists pre. inversion Hall; subst.
           repeat split; auto; simpl in *; lia.
Qed.

Lemma in_match_between rg lo hi s r :
  In r (match_from n (between (Cls rg) lo hi) s) <->
  exists pre, s = pre ++ r /\ lo <= length pre <= hi /\
              Forall (fun c => Chars.in_class rg c = true) pre.
Proof. apply in_iter_cls. Qed.

Lemma in_match_times rg k s r :
  In r (match_from n (times (Cls rg) k) s) <->
  exists pre, s = pre ++ r /\ length pre = k /\
              Forall (fun c => Chars.in_class rg c = true) pre.
Proof.
  etransitivity; [apply (in_iter_cls rg k k s r)|].
  split; intros (pre & ? & ? & ?); exists pre; repeat split; auto; lia.
Qed.

Lemma in_match_plus rg s r :
  In r (match_from n (plus (Cls rg)) s) <->
  exists pre, s = pre ++ r /\ 1 <= length pre /\
              Forall (fun c => Chars.in_class rg c = true) pre.
Proof.
  etransitivity; [apply (in_iter_cls rg (1 + length s) 1 s r)|].
  split; intros (pre & Hs & Hl & Hall); exists pre; repeat split; auto; try lia.
  subst s. rewrite length_app. lia.
Qed.
End Matching.

Lemma nonempty_In {A} (l : list A) : nonempty l = true <-> exists x, In x l.
Proof.
  destruct l; simpl; split; try discriminate; eauto.
  - intros [x []].
Qed.

Lemma in_tails t : forall s, In t (tails s) <-> exists pre, s = pre ++ t.
Proof.
  induction s as [|c s IH].
  - simpl. split.
    + intros [<- | []]. exists []. reflexivity.
    + intros (pre & H). symmetry in H. apply app_eq_nil in H as [_ ->]. auto.
  - cbn [tails]. cbn [In]. rewrite IH. split.
    + intros [<- | (pre & ->)]; [exists [] | exists (c :: pre)]; reflexivity.
    + intros ([|c' pre] & H); simpl in H.
      * left. auto.
      * right. injection H as -> ->. eauto.
Qed.

(** [test] succeeds when the expression matches at some offset. *)
Lemma test_spec r s :
  test r s = true <->
  exists pre t rest, chars s = pre ++ t /\ In rest (match_from (length (chars s)) r t).
Proof.
  unfold test. rewrite existsb_exists. split.
  - intros (t & Ht & Hm). apply in_tails in Ht as (pre & Hs).
    apply nonempty_In in Hm as (rest & Hr). eauto.
  - intros (pre & t & rest & Hs & Hr). exists t. split.
    + apply in_tails. eauto.
    + apply nonempty_In. eauto.
Qed.

Lemma test_alt r1 r2 s : test (Alt r1 r2) s = test r1 s || test r2 s.
Proof.
  apply eq_true_iff_eq. rewrite orb_true_iff, !test_spec. split.
  - intros (pre & t & rest & Hs & Hr). apply in_match_alt in Hr as [Hr | Hr]; eauto 6.
  - intros [(pre & t & rest & Hs & Hr) | (pre & t & rest & Hs & Hr)];
      exists pre, t, rest; split; auto; apply in_match_alt; auto.
Qed.

(** With [^] in front, the match starts at offset 0. *)
Lemma test_bol r s :
  test (Seq Bol r) s = true <->
  exists rest, In rest (match_from (length (chars s)) r (chars s)).
Proof.
  rewrite test_spec. split.
  - intros (pre & t & rest & Hs & Hr).
    apply in_match_seq in Hr as (m & Hm & Hr).
    apply in_match_bol in Hm as [-> Hl].
    rewrite Hs, length_app in Hl.
    assert (pre = []) as -> by (destruct pre; simpl in *; [auto|lia]).
    simpl in Hs. subst t. exists rest. exact Hr.
  - intros (rest & Hr). exists [], (chars s), rest. split; [reflexivity|].
    apply in_match_seq. exists (chars s). split; [apply in_match_bol|]; auto.
Qed.

(** Between [^] and [$], the match covers the whole subject. *)
Lemma test_anchored r s :
  test (anchored r) s = true <-> In [] (match_from (length (chars s)) r (chars s)).
Proof.
  unfold anchored. rewrite test_bol. split.
  - intros (rest & Hr). apply in_match_seq in Hr as (m & Hm & Hr).
    apply in_match_eol in Hr as [-> ->]. auto.
  - intros H. exists []. apply in_match_seq. exists []. split; auto.
    apply in_match_eol. auto.
Qed.

Lemma test_anchored_alt r1 r2 s :
  test (anchored (Alt r1 r2)) s = test (anchored r1) s || test (anchored r2) s.
Proof.
  apply eq_true_iff_eq. rewrite orb_true_iff, !test_anchored. apply in_match_alt.
Qed.

Lemma char_impl (P Q : ascii -> bool) :
  forallb (fun c => implb (P c) (Q c)) Chars.all_ascii = true ->
  forall c, P c = true -> Q c = true.
Proof.
  intros H c Hp. apply forall_ascii with (c := c) in H. rewrite Hp in H. exact H.
Qed.

(** ** The address validator *)

Module AddressFacts.
Import Address.

(** Facts about single characters, checked on all 256 of them. *)
Lemma lower_upper_alpha c :
  Chars.in_class upper_alpha c = true -> Chars.in_class lower_alpha (Chars.lower c) = true.
Proof. revert c. apply char_impl. vm_compute. reflexivity. Qed.

Lemma lower_bech32_upper c :
  Chars.in_class bech32_upper c = true -> Chars.in_class bech32_lower (Chars.lower c) = true.
Proof. revert c. apply char_impl. vm_compute. reflexivity. Qed.

Lemma lower_hex c :
  Chars.in_class hex c = true -> Chars.in_class hex (Chars.lower c) = true.
Proof. revert c. apply char_impl. vm_compute. reflexivity. Qed.

Lemma lower_fixes_lower_alpha c :
  Chars.in_class lower_alpha c = true -> Ascii.eqb (Chars.lower c) c = true.
Proof. revert c. apply char_impl. vm_compute. reflexivity. Qed.

Lemma lower_fixes_bech32_lower c :
  Chars.in_class bech32_lower c = true -> Ascii.eqb (Chars.lower c) c = true.
Proof. revert c. apply char_impl. vm_compute. reflexivity. Qed.

Lemma lower_alpha_not_zero c :
  Chars.in_class lower_alpha c = true -> Ascii.eqb c "0" = false.
Proof.
  intros H. apply negb_true_iff. revert c H.
  apply (char_impl _ (fun c => negb (Ascii.eqb c "0"))). vm_compute. reflexivity.
Qed.

Lemma all_in_map_lower rg rg' l :
  (forall c, Chars.in_class rg c = true -> Chars.in_class rg' (Chars.lower c) = true) ->
  all_in rg l -> all_in rg' (map Chars.lower l).
Proof.
  intros H Hl. unfold all_in in *. rewrite Forall_map.
  eapply Forall_impl; [exact Hl|]. exact H.
Qed.

Lemma map_lower_fixed rg l :
  (forall c, Chars.in_class rg c = true -> Ascii.eqb (Chars.lower c) c = true) ->
  all_in rg l -> map Chars.lower l = l.
Proof.
  intros H Hl. induction Hl as [|c l Hc _ IH]; simpl; [reflexivity|].
  rewrite IH. f_equal. apply Ascii.eqb_eq, H, Hc.
Qed.

(** The shapes of the alternatives. *)
Lemma legacy_short_shape n l rest :
  In rest (match_from n legacy_short l) <->
  exists p, l = p ++ rest /\ 26 <= length p <= 35 /\ all_in base58 p.
Proof. apply in_match_between. Qed.

Lemma legacy_long_shape n l rest :
  In rest (match_from n legacy_long l) <->
  exists p, l = p ++ rest /\ length p = 80 /\ all_in base58 p.
Proof. apply in_match_times. Qed.

Lemma bech32_like_shape n rgA rgD l rest :
  In rest (match_from n
    (Seq (between (Cls rgA) 2 5) (Seq (Lit "1") (between (Cls rgD) 8 100))) l) <->
  exists h d, l = h ++ "1"%char :: d ++ rest /\
              2 <= length h <= 5 /\ all_in rgA h /\
              8 <= length d <= 100 /\ all_in rgD d.
Proof.
  rewrite in_match_seq. split.
  - intros (m & Hh & Hm). apply in_match_between in Hh as (h & -> & Hlh & Hah).
    apply in_match_seq in Hm as (m' & H1 & Hd). apply in_match_lit in H1 as ->.
    apply in_match_between in Hd as (d & -> & Hld & Had).
    exists h, d. auto.
  - intros (h & d & -> & Hlh & Hah & Hld & Had).
    exists ("1"%char :: d ++ rest). split.
    + apply in_match_between. exists h. auto.
    + apply in_match_seq. exists (d ++ rest). split.
      * apply in_match_lit. reflexivity.
      * apply in_match_between. exists d. auto.
Qed.

Lemma uncompressed_shape n l rest :
  In rest (match_from n uncompressed l) <->
  exists k, l = "0"%char :: "4"%char :: k ++ rest /\ length k = 128 /\ all_in hex k.
Proof.
  unfold uncompressed. rewrite in_match_seq. split.
  - intros (m & H0 & Hm). apply in_match_lit in H0 as ->.
    apply in_match_seq in Hm as (m' & H4 & Hk). apply in_match_lit in H4 as ->.
    apply in_match_times in Hk as (k & -> & Hl & Ha). exists k. auto.
  - intros (k & -> & Hl & Ha). eexists. split; [apply in_match_lit; reflexivity|].
    apply in_match_seq. eexists. split; [apply in_match_lit; reflexivity|].
    apply in_match_times. exists k. auto.
Qed.

Lemma compressed_shape n l rest :
  In rest (match_from n compressed l) <->
  exists b k, l = "0"%char :: b :: k ++ rest /\ (b = "2"%char \/ b = "3"%char) /\
              length k = 64 /\ all_in hex k.
Proof.
  unfold compressed. rewrite in_match_seq. split.
  - intros (m & Hp & Hk). apply in_match_times in Hk as (k & -> & Hl & Ha).
    apply in_match_alt in Hp as [Hp | Hp];
      apply in_match_seq in Hp as (m' & H0 & Hb);
      apply in_match_lit in H0 as ->; apply in_match_lit in Hb as ->;
      eexists _, k; eauto.
  - intros (b & k & -> & Hb & Hl & Ha). exists (k ++ rest). split.
    + apply in_match_alt.
      destruct Hb as [-> | ->]; [left | right];
        (apply in_match_seq; eexists; split; apply in_match_lit; reflexivity).
    + apply in_match_times. exists k. auto.
Qed.

Lemma re_address_split s :
  test re_address s =
  is_legacy s || (is_bech32 s || (is_bech32_caps s || (is_uncompressed s || is_compressed s))).
Proof.
  unfold re_address, is_legacy, is_bech32, is_bech32_caps, is_uncompressed,
    is_compressed, re_uncompressed, re_compressed.
  rewrite !test_anchored_alt. now rewrite <- !orb_assoc.
Qed.

Lemma re_lowercase_split s :
  test re_lowercase s =
  caps_prefix s || (test uncompressed s || test (Seq compressed Eol) s).
Proof. unfold re_lowercase, caps_prefix. now rewrite !test_alt. Qed.

Lemma is_legacy_spec s :
  is_legacy s = true <->
  all_in base58 (chars s) /\ (26 <= length (chars s) <= 35 \/ length (chars s) = 80).
Proof.
  unfold is_legacy. rewrite orb_true_iff, !test_anchored,
    legacy_short_shape, legacy_long_shape. split.
  - intros [(p & Hp & Hl & Ha) | (p & Hp & Hl & Ha)];
      rewrite app_nil_r in Hp; subst p; auto.
  - intros (Ha & [Hl | Hl]); [left | right]; exists (chars s);
      rewrite app_nil_r; auto.
Qed.

Lemma is_bech32_spec s :
  is_bech32 s = true <->
  exists h d, chars s = h ++ "1"%char :: d /\
              2 <= length h <= 5 /\ all_in lower_alpha h /\
              8 <= length d <= 100 /\ all_in bech32_lower d.
Proof.
  unfold is_bech32. rewrite test_anchored. unfold bech32. rewrite bech32_like_shape.
  split; intros (h & d & Hs & H); exists h, d; rewrite app_nil_r in *; auto.
Qed.

Lemma is_bech32_caps_spec s :
  is_bech32_caps s = true <->
  exists h d, chars s = h ++ "1"%char :: d /\
              2 <= length h <= 5 /\ all_in upper_alpha h /\
              8 <= length d <= 100 /\ all_in bech32_upper d.
Proof.
  unfold is_bech32_caps. rewrite test_anchored. unfold bech32_caps.
  rewrite bech32_like_shape.
  split; intros (h & d & Hs & H); exists h, d; rewrite app_nil_r in *; auto.
Qed.

Lemma is_uncompressed_spec s :
  is_uncompressed s = true <->
  exists k, chars s = "0"%char :: "4"%char :: k /\ length k = 128 /\ all_in hex k.
Proof.
  unfold is_uncompressed, re_uncompressed. rewrite test_anchored, uncompressed_shape.
  split; intros (k & Hs & H); exists k; rewrite app_nil_r in *; auto.
Qed.

Lemma is_compressed_spec s :
  is_compressed s = true <->
  exists b k, chars s = "0"%char :: b :: k /\ (b = "2"%char \/ b = "3"%char) /\
              length k = 64 /\ all_in hex k.
Proof.
  unfold is_compressed, re_compressed. rewrite test_anchored, compressed_shape.
  split; intros (b & k & Hs & H); exists b, k; rewrite app_nil_r in *; auto.
Qed.

(** A public key begins with the digit 0. *)
Lemma pubkey_head s :
  is_uncompressed s = true \/ is_compressed s = true ->
  exists l, chars s = "0"%char :: l.
Proof.
  intros [H | H].
  - apply is_uncompressed_spec in H as (k & -> & _). eauto.
  - apply is_compressed_spec in H as (b & k & -> & _). eauto.
Qed.

Lemma not_pubkey_of_head s c l :
  chars s = c :: l -> Ascii.eqb c "0" = false ->
  is_uncompressed s = false /\ is_compressed s = false.
Proof.
  intros Hs Hc.
  split; apply not_true_is_false; intros H;
    (destruct (pubkey_head s) as (l' & Hl'); [auto|]);
    rewrite Hs in Hl'; injection Hl' as -> _; discriminate.
Qed.

(** The validator, once the lowercasing step is settled. *)
Lemma testAddress_unfold s :
  test re_address s = true ->
  forall a, a = (if test re_lowercase s then toLowerCase s else s) ->
  testAddress s =
    if is_uncompressed a then Some ("41" +:+ a +:+ "ac")
    else if is_compressed a then Some ("21" +:+ a +:+ "ac")
    else Some a.
Proof. intros H a ->. unfold testAddress. rewrite H. reflexivity. Qed.

Lemma toLowerCase_bech32 s : is_bech32 s = true -> toLowerCase s = s.
Proof.
  intros H. apply is_bech32_spec in H as (h & d & Hs & _ & Hh & _ & Hd).
  apply chars_inj. rewrite chars_toLowerCase, Hs, map_app. simpl.
  rewrite (map_lower_fixed lower_alpha h), (map_lower_fixed bech32_lower d); auto.
  - apply lower_fixes_bech32_lower.
  - apply lower_fixes_lower_alpha.
Qed.

(** Lowercase bech32 is returned as it is. *)
Lemma testAddress_bech32 s : is_bech32 s = true -> testAddress s = Some s.
Proof.
  intros H.
  assert (Ha : (if test re_lowercase s then toLowerCase s else s) = s).
  { destruct (test re_lowercase s); [apply toLowerCase_bech32, H | reflexivity]. }
  rewrite (testAddress_unfold s) with (a := s); auto.
  2:{ rewrite re_address_split, H. now rewrite !orb_true_r. }
  pose proof H as H'.
  apply is_bech32_spec in H' as (h & d & Hs & Hl & Hh & _).
  destruct h as [|c h]; [simpl in Hl; lia|]. inversion Hh; subst.
  destruct (not_pubkey_of_head s c (h ++ "1"%char :: d)) as [-> ->]; auto.
  now apply lower_alpha_not_zero.
Qed.

Lemma base58_no_zero l : all_in base58 l -> ~ In "0"%char l.
Proof.
  intros Ha Hin. unfold all_in in Ha. rewrite List.Forall_forall in Ha.
  apply Ha in Hin. vm_compute in Hin. discriminate.
Qed.

(** A legacy string is returned as it is, unless it begins like an
    uppercase bech32 string. *)
Lemma testAddress_legacy s :
  is_legacy s = true -> caps_prefix s = false -> testAddress s = Some s.
Proof.
  intros H Hp. pose proof H as H'. apply is_legacy_spec in H' as [Ha Hl].
  pose proof (base58_no_zero _ Ha) as Hz.
  assert (Hlow : test re_lowercase s = false).
  { rewrite re_lowercase_split, Hp. simpl. apply orb_false_iff.
    split; apply not_true_is_false; intros Ht;
      apply test_spec in Ht as (pre & t & rest & Hs & Hr).
    - apply uncompressed_shape in Hr as (k & -> & _).
      apply Hz. rewrite Hs. apply in_or_app. right. left. reflexivity.
    - apply in_match_seq in Hr as (m & Hr & _).
      apply compressed_shape in Hr as (b & k & -> & _).
      apply Hz. rewrite Hs. apply in_or_app. right. left. reflexivity. }
  rewrite (testAddress_unfold s) with (a := s).
  - assert (is_uncompressed s = false /\ is_compressed s = false) as [-> ->]; auto.
    split; apply not_true_is_false; intros Ht;
      (destruct (pubkey_head s) as (l & Hs); [auto|]);
      apply Hz; rewrite Hs; left; reflexivity.
  - rewrite re_address_split, H. reflexivity.
  - now rewrite Hlow.
Qed.

Lemma is_bech32_toLowerCase s :
  is_bech32_caps s = true -> is_bech32 (toLowerCase s) = true.
Proof.
  intros H. apply is_bech32_caps_spec in H as (h & d & Hs & Hlh & Hh & Hld & Hd).
  apply is_bech32_spec. exists (map Chars.lower h), (map Chars.lower d).
  rewrite chars_toLowerCase, Hs, map_app, !length_map. simpl.
  repeat split; try lia; try reflexivity.
  - eapply all_in_map_lower; [apply lower_upper_alpha | exact Hh].
  - eapply all_in_map_lower; [apply lower_bech32_upper | exact Hd].
Qed.

(** Uppercase bech32 is lowercased. *)
Lemma testAddress_bech32_caps s :
  is_bech32_caps s = true -> testAddress s = Some (toLowerCase s).
Proof.
  intros H.
  assert (Hlow : test re_lowercase s = true).
  { rewrite re_lowercase_split. apply orb_true_iff. left.
    unfold caps_prefix. apply test_bol. exists [].
    unfold is_bech32_caps in H. now apply test_anchored in H. }
  rewrite (testAddress_unfold s) with (a := toLowerCase s).
  - pose proof (is_bech32_toLowerCase s H) as Hb.
    apply is_bech32_spec in Hb as (h & d & Hs & Hl & Hh & _).
    destruct h as [|c h]; [simpl in Hl; lia|]. inversion Hh; subst.
    destruct (not_pubkey_of_head (toLowerCase s) c (h ++ "1"%char :: d)) as [-> ->]; auto.
    now apply lower_alpha_not_zero.
  - rewrite re_address_split, H. now rewrite !orb_true_r.
  - now rewrite Hlow.
Qed.

(** An uncompressed public key becomes the pay-to-pubkey script of its
    lowercased form. *)
Lemma testAddress_uncompressed s :
  is_uncompressed s = true ->
  testAddress s = Some ("41" +:+ toLowerCase s +:+ "ac").
Proof.
  intros H. pose proof H as H'. apply is_uncompressed_spec in H' as (k & Hs & Hl & Hk).
  assert (Hlow : test re_lowercase s = true).
  { rewrite re_lowercase_split. apply orb_true_iff. right. apply orb_true_iff. left.
    apply test_spec. exists [], (chars s), []. split; [reflexivity|].
    apply uncompressed_shape. exists k. rewrite app_nil_r. auto. }
  rewrite (testAddress_unfold s) with (a := toLowerCase s).
  - assert (is_uncompressed (toLowerCase s) = true) as ->; [|reflexivity].
    apply is_uncompressed_spec. exists (map Chars.lower k).
    rewrite chars_toLowerCase, Hs, length_map. repeat split; auto.
    eapply all_in_map_lower; [apply lower_hex | exact Hk].
  - rewrite re_address_split, H. now rewrite !orb_true_r.
  - now rewrite Hlow.
Qed.

(** A compressed public key becomes the pay-to-pubkey script of its
    lowercased form. *)
Lemma testAddress_compressed s :
  is_compressed s = true ->
  testAddress s = Some ("21" +:+ toLowerCase s +:+ "ac").
Proof.
  intros H. pose proof H as H'.
  apply is_compressed_spec in H' as (b & k & Hs & Hb & Hl & Hk).
  assert (Hlow : test re_lowercase s = true).
  { rewrite re_lowercase_split. apply orb_true_iff. right. apply orb_true_iff. right.
    apply test_spec. exists [], (chars s), []. split; [reflexivity|].
    apply in_match_seq. exists []. split; [|apply in_match_eol; auto].
    apply compressed_shape. exists b, k. rewrite app_nil_r. auto. }
  rewrite (testAddress_unfold s) with (a := toLowerCase s).
  - assert (is_uncompressed (toLowerCase s) = false) as ->.
    { apply not_true_is_false. intros Hu.
      apply is_uncompressed_spec in Hu as (k' & Hs' & Hl' & _).
      apply (f_equal (@length ascii)) in Hs'.
      rewrite chars_toLowerCase, length_map, Hs in Hs'. simpl in Hs'. lia. }
    assert (is_compressed (toLowerCase s) = true) as ->; [|reflexivity].
    apply is_compressed_spec. exists b, (map Chars.lower k).
    rewrite chars_toLowerCase, Hs, length_map. repeat split; auto.
    + simpl. destruct Hb as [-> | ->]; reflexivity.
    + eapply all_in_map_lower; [apply lower_hex | exact Hk].
  - rewrite re_address_split, H. now rewrite !orb_true_r.
  - now rewrite Hlow.
Qed.

End AddressFacts.

(** ** Claims C2 and C3: the validator on each class of input *)

Module AddressClaims.
Import Address AddressFacts.

(** C2, as stated, fails on a public key written with capital hex digits:
    the script is built from the lowercased key, not from the key as
    given. *)
Lemma testAddress_capital_key_counterexample :
  is_uncompressed sample_capital_key = true /\
  testAddress sample_capital_key <>
    Some ("41" +:+ sample_capital_key +:+ "ac").
Proof. split; [vm_compute; reflexivity | vm_compute; discriminate]. Qed.

(** C2 (amended): the validator returns the lowercased form of an uppercase
    bech32 string; the script 41 ++ lowercased key ++ ac for an uncompressed
    public key and 21 ++ lowercased key ++ ac for a compressed one; the
    input unchanged for a lowercase bech32 string and for a legacy base58
    string that does not begin like an uppercase bech32 string; and the
    failure value for a string in none of the classes. *)
Theorem testAddress_by_class (s : string) :
  (is_bech32_caps s = true -> testAddress s = Some (toLowerCase s)) /\
  (is_uncompressed s = true ->
     testAddress s = Some ("41" +:+ toLowerCase s +:+ "ac")) /\
  (is_compressed s = true ->
     testAddress s = Some ("21" +:+ toLowerCase s +:+ "ac")) /\
  (is_bech32 s = true -> testAddress s = Some s) /\
  (is_legacy s = true -> caps_prefix s = false -> testAddress s = Some s) /\
  (is_legacy s = false -> is_bech32 s = false -> is_bech32_caps s = false ->
   is_uncompressed s = false -> is_compressed s = false ->
     testAddress s = None).
Proof.
  repeat split.
  - apply testAddress_bech32_caps.
  - apply testAddress_uncompressed.
  - apply testAddress_compressed.
  - apply testAddress_bech32.
  - apply testAddress_legacy.
  - intros H1 H2 H3 H4 H5. unfold testAddress.
    now rewrite re_address_split, H1, H2, H3, H4, H5.
Qed.

Lemma testAddress_by_class_witness :
  testAddress "BC1QW508D6QEJXTDG4Y5R3ZARVARY0C5XW7KV8F3T4"
    = Some "bc1qw508d6qejxtdg4y5r3zarvary0c5xw7kv8f3t4" /\
  testAddress sample_capital_key
    = Some ("41" +:+ toLowerCase sample_capital_key +:+ "ac") /\
  testAddress sample_compressed_key
    = Some ("21" +:+ sample_compressed_key +:+ "ac") /\
  testAddress "bc1qw508d6qejxtdg4y5r3zarvary0c5xw7kv8f3t4"
    = Some "bc1qw508d6qejxtdg4y5r3zarvary0c5xw7kv8f3t4" /\
  testAddress "1BvBMSEYstWetqTFn5Au4m4GFg7xJaNVN2"
    = Some "1BvBMSEYstWetqTFn5Au4m4GFg7xJaNVN2" /\
  testAddress "not an address" = None.
Proof.
  split; [|split; [|split; [|split; [|split]]]].
  - apply (proj1 (testAddress_by_class "BC1QW508D6QEJXTDG4Y5R3ZARVARY0C5XW7KV8F3T4")).
    vm_compute. reflexivity.
  - apply (proj1 (proj2 (testAddress_by_class sample_capital_key))).
    vm_compute. reflexivity.
  - change sample_compressed_key with (toLowerCase sample_compressed_key) at 2.
    apply (proj1 (proj2 (proj2 (testAddress_by_class sample_compressed_key)))).
    vm_compute. reflexivity.
  - apply (proj1 (proj2 (proj2 (proj2 (testAddress_by_class _))))).
    vm_compute. reflexivity.
  - apply (proj1 (proj2 (proj2 (proj2 (proj2 (testAddress_by_class _))))));
      vm_compute; reflexivity.
  - apply (proj2 (proj2 (proj2 (proj2 (proj2 (testAddress_by_class _))))));
      vm_compute; reflexivity.
Defined.

(** C3, as stated, fails on public keys: the canonical form of a key is a
    script, which the validator rejects. *)
Lemma testAddress_script_counterexample :
  testAddress sample_compressed_key
    = Some ("21" +:+ sample_compressed_key +:+ "ac") /\
  testAddress ("21" +:+ sample_compressed_key +:+ "ac") = None.
Proof. split; vm_compute; reflexivity. Qed.

(** C3 (amended): on every bech32 input, of either case, and on every legacy
    base58 input that does not begin like an uppercase bech32 string, the
    validator is idempotent: it accepts its own result and returns it
    again. *)
Theorem testAddress_idempotent (s c : string) :
  testAddress s = Some c ->
  is_bech32_caps s = true \/ is_bech32 s = true \/
    (is_legacy s = true /\ caps_prefix s = false) ->
  testAddress c = Some c.
Proof.
  intros Hs [H | [H | [H Hp]]].
  - rewrite (testAddress_bech32_caps s H) in Hs. injection Hs as <-.
    apply testAddress_bech32, is_bech32_toLowerCase, H.
  - rewrite (testAddress_bech32 s H) in Hs. injection Hs as <-.
    apply testAddress_bech32, H.
  - rewrite (testAddress_legacy s H Hp) in Hs. injection Hs as <-.
    apply testAddress_legacy; assumption.
Qed.

Lemma testAddress_idempotent_witness :
  testAddress "bc1qw508d6qejxtdg4y5r3zarvary0c5xw7kv8f3t4"
    = Some "bc1qw508d6qejxtdg4y5r3zarvary0c5xw7kv8f3t4".
Proof.
  apply (testAddress_idempotent "BC1QW508D6QEJXTDG4Y5R3ZARVARY0C5XW7KV8F3T4").
  - vm_compute. reflexivity.
  - left. vm_compute. reflexivity.
Defined.

End AddressClaims.

(** ** Syntactic validity of JSON texts *)

Module JsonSyntaxFacts.
Import Json JsonSyntax.

Lemma run_app st a b :
  run st (a ++ b) = match run st a with Some st' => run st' b | None => None end.
Proof.
  revert st. induction a as [|c a IH]; intros st; simpl; [reflexivity|].
  destruct (step st c); [apply IH | reflexivity].
Qed.

Lemma after_value_frame c s K st :
  after_value c s = Some st -> after_value c (s ++ K) = Some (fst st, snd st ++ K).
Proof.
  unfold after_value. destruct (is_ws c).
  - intros [= <-]. reflexivity.
  - destruct s as [|[] s]; simpl; [discriminate| |];
      repeat (match goal with |- context [if ?b then _ else _] => destruct b end);
      intros [= <-]; reflexivity.
Qed.

Lemma begin_value_frame c s K st :
  begin_value c s = Some st -> begin_value c (s ++ K) = Some (fst st, snd st ++ K).
Proof.
  unfold begin_value.
  repeat (match goal with |- context [if ?b then _ else _] => destruct b end);
    intros [= <-]; reflexivity.
Qed.

(** A step looks at the top of the stack only: what lies below is carried
    along. *)
Lemma step_frame m s c K st :
  step (m, s) c = Some st -> step (m, s ++ K) c = Some (fst st, snd st ++ K).
Proof.
  destruct m; cbn [step];
    try (repeat (match goal with
                 | |- context [if ?b then _ else _] => destruct b
                 end);
         first [ intros [= <-]; reflexivity
               | apply after_value_frame
               | apply begin_value_frame
               | idtac ]).
  - destruct s; [discriminate | intros [= <-]; reflexivity].
  - destruct s; [discriminate | intros [= <-]; reflexivity].
  - unfold begin_key. destruct (Ascii.eqb c dq); intros [= <-]; reflexivity.
  - unfold begin_key. destruct (Ascii.eqb c dq); intros [= <-]; reflexivity.
  - destruct rest as [|c' rest]; [apply after_value_frame|].
    destruct (Ascii.eqb c c'); intros [= <-]; reflexivity.
Qed.

Lemma run_frame v : forall m s K st,
  run (m, s) v = Some st -> run (m, s ++ K) v = Some (fst st, snd st ++ K).
Proof.
  induction v as [|c v IH]; intros m s K st; cbn [run].
  - intros [= <-]. reflexivity.
  - destruct (step (m, s) c) as [[m' s']|] eqn:E; [|discriminate].
    rewrite (step_frame _ _ _ K _ E). cbn [fst snd]. apply IH.
Qed.

(** A valid text, read where a value is expected inside open containers,
    leaves them open and the value complete. *)
Lemma valid_inside v K :
  valid v = true ->
  exists m, complete m = true /\ run (Value, K) (chars v) = Some (m, K).
Proof.
  unfold valid. destruct (run (Value, []) (chars v)) as [[m s]|] eqn:E; [|discriminate].
  unfold accepting. simpl. intros H. apply andb_true_iff in H as [Hm Hs].
  destruct s; [|discriminate]. exists m. split; [exact Hm|].
  apply (run_frame _ _ _ K) in E. exact E.
Qed.

Lemma complete_comma m K :
  complete m = true -> step (m, InObject :: K) "," = Some (Key, InObject :: K).
Proof.
  destruct m; try discriminate; try reflexivity.
  destruct rest; [reflexivity | discriminate].
Qed.

Lemma complete_close m K :
  complete m = true -> step (m, InObject :: K) "}" = Some (After, K).
Proof.
  destruct m; try discriminate; try reflexivity.
  destruct rest; [reflexivity | discriminate].
Qed.

Lemma run_plain_key key K :
  plain_key key = true ->
  run (InStr true, K) (chars key ++ [dq]) = Some (Colon, K).
Proof.
  unfold plain_key. induction (chars key) as [|c l IH]; [reflexivity|].
  cbn [forallb]. intros H. apply andb_true_iff in H as [Hc Hl].
  apply andb_true_iff in Hc as [Hc H32]. apply andb_true_iff in Hc as [Hq Hb].
  apply negb_true_iff in Hq, Hb. apply Nat.leb_le in H32.
  cbn [app run step]. rewrite Hq, Hb.
  destruct (Nat.ltb_spec (nat_of_ascii c) 32); [lia|]. apply IH, Hl.
Qed.

End JsonSyntaxFacts.

(** ** The response serializer *)

Module SerializerFacts.
Import Json JsonSyntax JsonSyntaxFacts.

Lemma chars_entry key v :
  chars (entry key (Some v)) = dq :: chars key ++ [dq] ++ [":"; " "]%char ++ chars v.
Proof.
  unfold entry, quote, template. rewrite !chars_app. reflexivity.
Qed.

(** One entry, read where a key may begin. *)
Lemma run_entry start key v K :
  start = ObjFirst \/ start = Key ->
  plain_key key = true -> valid v = true ->
  exists m, complete m = true /\
    run (start, InObject :: K) (chars (entry key (Some v))) = Some (m, InObject :: K).
Proof.
  intros Hstart Hk Hv. rewrite chars_entry.
  destruct (valid_inside v (InObject :: K) Hv) as (m & Hm & Hrun).
  exists m. split; [exact Hm|].
  assert (Hfirst : step (start, InObject :: K) dq = Some (InStr true, InObject :: K))
    by (destruct Hstart as [-> | ->]; reflexivity).
  cbn [run]. rewrite Hfirst. rewrite app_assoc, run_app, run_plain_key by exact Hk.
  rewrite run_app. simpl. exact Hrun.
Qed.

Lemma run_entries es : forall start K,
  es <> [] ->
  start = ObjFirst \/ start = Key ->
  Forall (fun kv => plain_key (fst kv) = true) es ->
  Forall defined_valid es ->
  exists m, complete m = true /\
    run (start, InObject :: K)
        (chars (join ", " (map (fun kv => entry (fst kv) (snd kv)) es)))
      = Some (m, InObject :: K).
Proof.
  induction es as [|[key ov] es IH]; intros start K Hne Hstart Hkeys Hvals;
    [congruence|].
  inversion Hkeys as [|? ? Hk Hkeys']; subst.
  inversion Hvals as [|? ? (v & Hv & Hvalid) Hvals']; subst.
  simpl in Hv, Hk. subst ov.
  destruct (run_entry start key v K Hstart Hk Hvalid) as (m & Hm & Hrun).
  destruct es as [|e es'].
  - simpl. eauto.
  - destruct (IH Key K ltac:(discriminate) (or_intror eq_refl) Hkeys' Hvals')
      as (m' & Hm' & Hrun').
    exists m'. split; [exact Hm'|].
    change (map _ ((key, Some v) :: e :: es'))
      with (entry key (Some v) :: map (fun kv => entry (fst kv) (snd kv)) (e :: es')).
    change (join ", " (entry key (Some v) :: ?l))
      with (entry key (Some v) +:+ ", " +:+ join ", " l) at 1.
    cbn [join map]. cbn [join map] in Hrun'.
    rewrite !chars_app, run_app, Hrun.
    change (chars ", ") with [","; " "]%char.
    cbn [app run]. rewrite (complete_comma m K Hm). cbn [step is_ws].
    simpl. exact Hrun'.
Qed.

Lemma response_keys_plain key : In key response_keys -> plain_key key = true.
Proof.
  intros Hin.
  assert (H : forallb plain_key response_keys = true) by (vm_compute; reflexivity).
  rewrite forallb_forall in H. apply H, Hin.
Qed.

(** Enumeration visits the properties of the object, each once. *)
Lemma In_insert_index {V} n (kv x : string * V) l :
  In x (map snd (Obj.insert_index n kv l)) <-> x = kv \/ In x (map snd l).
Proof.
  induction l as [|[m kv'] l IH]; simpl.
  - intuition.
  - destruct (n <? m)%N; simpl; [intuition | rewrite IH; intuition].
Qed.

Lemma In_enumerate {V} (o : Obj.t V) x : In x (Obj.enumerate o) -> In x o.
Proof.
  unfold Obj.enumerate. rewrite in_app_iff, filter_In. intros [H | [H _]]; [|exact H].
  induction o as [|kv o IH]; simpl in H; [contradiction|].
  destruct (Obj.index_of (fst kv)).
  - apply In_insert_index in H as [-> | H]; [left; reflexivity | right; auto].
  - right. auto.
Qed.

Lemma enumerate_In {V} (o : Obj.t V) x : In x o -> In x (Obj.enumerate o).
Proof.
  intros Hx. unfold Obj.enumerate. rewrite in_app_iff, filter_In.
  destruct (Obj.index_of (fst x)) as [n|] eqn:E; [left | right; auto].
  induction o as [|kv o IH]; [destruct Hx|]. cbn [fold_right].
  destruct Hx as [-> | Hx].
  - rewrite E. apply In_insert_index. now left.
  - destruct (Obj.index_of (fst kv)); [apply In_insert_index; right|]; auto.
Qed.

(** The enumeration lists every property once. *)
Lemma insert_index_Permutation {V} n (kv : string * V) l :
  Permutation (Obj.insert_index n kv l) ((n, kv) :: l).
Proof.
  induction l as [|[m kv'] l IH]; simpl; [reflexivity|].
  destruct (n <? m)%N; [reflexivity|]. rewrite IH. apply perm_swap.
Qed.

Lemma enumerate_Permutation {V} (o : Obj.t V) : Permutation (Obj.enumerate o) o.
Proof.
  unfold Obj.enumerate. induction o as [|kv o IH]; [reflexivity|].
  cbn [fold_right List.filter]. destruct (Obj.index_of (fst kv)) as [n|].
  - rewrite insert_index_Permutation. cbn [map snd app].
    apply perm_skip, IH.
  - rewrite <- Permutation_middle. apply perm_skip, IH.
Qed.

Lemma enumerate_keys {V} (o : Obj.t V) :
  NoDup (Obj.keys o) -> NoDup (map fst (Obj.enumerate o)).
Proof.
  intros H. unfold Obj.keys in H.
  now rewrite (Permutation_map fst (enumerate_Permutation o)).
Qed.

Lemma enumerate_plain {V} (o : Obj.t V) :
  Forall (fun kv => Obj.index_of (fst kv) = None) o -> Obj.enumerate o = o.
Proof.
  intros H. unfold Obj.enumerate.
  assert (E : fold_right (fun (kv : string * V) acc =>
                match Obj.index_of (fst kv) with
                | Some n => Obj.insert_index n kv acc
                | None => acc
                end) [] o = []).
  { induction H as [|kv o' Hkv _ IH]; simpl; [reflexivity|]. now rewrite Hkv. }
  rewrite E. simpl.
  induction H as [|kv o' Hkv _ IH]; simpl; [reflexivity|].
  rewrite Hkv. f_equal. apply IH.
  simpl in E. now rewrite Hkv in E.
Qed.

Lemma enumerate_nonempty {V} (o : Obj.t V) : o <> [] -> Obj.enumerate o <> [].
Proof.
  destruct o as [|kv o]; [congruence|]. intros _. unfold Obj.enumerate.
  cbn [fold_right List.filter]. destruct (Obj.index_of (fst kv)).
  - intros H. apply app_eq_nil in H as [H _].
    destruct (fold_right _ [] o) as [|[m kv'] l]; simpl in H; [discriminate|].
    destruct (n <? m)%N; discriminate.
  - intros H. apply app_eq_nil in H as [_ H]. discriminate.
Qed.

Lemma serializeResponse_valid_object response :
  response <> [] ->
  Forall (fun kv => plain_key (fst kv) = true) response ->
  Forall defined_valid response ->
  valid_object (serializeResponse response) = true.
Proof.
  intros Hne Hkeys Hvals.
  assert (Hsub : forall P : string * option string -> Prop,
            Forall P response -> Forall P (Obj.enumerate response)).
  { intros P HP. rewrite List.Forall_forall in *. intros x Hx.
    apply HP, In_enumerate, Hx. }
  destruct (run_entries (Obj.enumerate response) ObjFirst []
              (enumerate_nonempty _ Hne) (or_introl eq_refl)
              (Hsub _ Hkeys) (Hsub _ Hvals))
    as (m & Hm & Hrun).
  unfold valid_object, valid, serializeResponse. rewrite !chars_app.
  change (chars "{") with ["{"]%char. change (chars "}") with ["}"]%char.
  cbn [app run skip_ws step].
  change (is_ws "{") with false.
  change (begin_value "{" []) with (Some (ObjFirst, [InObject])).
  cbn iota. rewrite run_app, Hrun. cbn [run]. rewrite (complete_close m [] Hm).
  reflexivity.
Qed.

Lemma response_keys_no_index key : In key response_keys -> Obj.index_of key = None.
Proof.
  intros Hin.
  assert (H : forallb (fun k => match Obj.index_of k with None => true | _ => false end)
                response_keys = true) by (vm_compute; reflexivity).
  rewrite forallb_forall in H. specialize (H _ Hin).
  now destruct (Obj.index_of key).
Qed.

End SerializerFacts.

(** ** Claim C5: the serializer emits a valid JSON object *)

Module SerializerClaims.
Import Json JsonSyntax SerializerFacts.

(** C5: for every non-empty response object, with the keys of the handlers,
    whose values are all valid JSON texts, the serializer returns an opening
    brace, the entries [key: value] joined by a comma and a space, each value
    as it was given, and a closing brace; and that text is a valid JSON
    object. *)
Theorem serializeResponse_valid (response : Obj.t (option string)) :
  response <> [] ->
  Forall (fun kv => In (fst kv) response_keys) response ->
  Forall (fun kv => exists v, snd kv = Some v /\ valid v = true) response ->
  serializeResponse response =
    "{" +:+ join ", "
              (map (fun kv => quote +:+ fst kv +:+ quote +:+ ": "
                                +:+ default "" (snd kv)) response)
        +:+ "}"
  /\ valid_object (serializeResponse response) = true.
Proof.
  intros Hne Hkeys Hvals. split.
  - unfold serializeResponse. rewrite enumerate_plain.
    2:{ eapply Forall_impl; [exact Hkeys|]. intros kv. apply response_keys_no_index. }
    do 3 f_equal. apply map_ext_in.
    intros [key ov] Hin. rewrite Forall_forall in Hvals.
    destruct (Hvals _ (proj2 (list_elem_of_In _ _) Hin)) as (v & Hv & _).
    simpl in *. now subst ov.
  - apply serializeResponse_valid_object; [exact Hne | | exact Hvals].
    eapply Forall_impl; [exact Hkeys|]. intros kv. apply response_keys_plain.
Qed.

Lemma serializeResponse_valid_witness :
  serializeResponse [("pong", Some "true"); ("blocks", Some "[]")]
    = "{" +:+ quote +:+ "pong" +:+ quote +:+ ": true, "
          +:+ quote +:+ "blocks" +:+ quote +:+ ": []}"
  /\ valid_object
       (serializeResponse [("pong", Some "true"); ("blocks", Some "[]")]) = true.
Proof.
  apply (serializeResponse_valid [("pong", Some "true"); ("blocks", Some "[]")]).
  - discriminate.
  - repeat constructor; simpl; tauto.
  - repeat constructor; simpl; eexists; (split; [reflexivity | vm_compute; reflexivity]).
Defined.

End SerializerClaims.

(** ** Objects *)

Module ObjFacts.
Section ObjFacts.
Context {V : Type}.
Implicit Types (o : Obj.t V) (k key : string) (v : V).

Lemma get_set_eq k v o : Obj.get k (Obj.set k v o) = Some v.
Proof.
  unfold Obj.get. induction o as [|[k' v'] o IH]; simpl.
  - now rewrite String.eqb_refl.
  - destruct (String.eqb_spec k' k) as [->|Hne]; simpl.
    + now rewrite String.eqb_refl.
    + destruct (String.eqb_spec k' k); [congruence | exact IH].
Qed.

Lemma get_set_ne k key v o : k <> key -> Obj.get k (Obj.set key v o) = Obj.get k o.
Proof.
  intros Hne. unfold Obj.get. induction o as [|[k' v'] o IH]; simpl.
  - destruct (String.eqb_spec key k); [congruence | reflexivity].
  - destruct (String.eqb_spec k' key) as [->|Hne']; simpl.
    + destruct (String.eqb_spec key k); [congruence | reflexivity].
    + destruct (String.eqb_spec k' k); [reflexivity | exact IH].
Qed.

Lemma get_del_ne k key o : k <> key -> Obj.get k (Obj.del key o) = Obj.get k o.
Proof.
  intros Hne. unfold Obj.get, Obj.del. induction o as [|[k' v'] o IH]; simpl.
  - reflexivity.
  - destruct (String.eqb_spec k' key) as [->|Hne']; simpl.
    + destruct (String.eqb_spec key k); [congruence | exact IH].
    + destruct (String.eqb_spec k' k); [reflexivity | exact IH].
Qed.

Lemma has_In key o : Obj.has key o = true <-> In key (Obj.keys o).
Proof.
  unfold Obj.has, Obj.keys. induction o as [|[k' v'] o IH]; simpl.
  - split; [discriminate | tauto].
  - rewrite orb_true_iff, IH. destruct (String.eqb_spec k' key); intuition congruence.
Qed.

Lemma get_None key o : Obj.get key o = None <-> ~ In key (Obj.keys o).
Proof.
  unfold Obj.get, Obj.keys. induction o as [|[k' v'] o IH]; simpl.
  - tauto.
  - destruct (String.eqb_spec k' key); simpl.
    + split; [discriminate | intros H; exfalso; auto].
    + rewrite IH. tauto.
Qed.

(** Writing a key keeps the order of the keys; a new key goes last. *)
Lemma keys_set key v o :
  Obj.keys (Obj.set key v o) =
  if Obj.has key o then Obj.keys o else Obj.keys o ++ [key].
Proof.
  unfold Obj.keys, Obj.has. induction o as [|[k' v'] o IH]; simpl.
  - reflexivity.
  - destruct (String.eqb_spec k' key) as [->|Hne]; simpl; [reflexivity|].
    rewrite IH. now destruct (existsb _ o).
Qed.

Lemma get_Some_In k v o : Obj.get k o = Some v -> In (k, v) o.
Proof.
  unfold Obj.get. induction o as [|[k' v'] o IH]; simpl; [discriminate|].
  destruct (String.eqb_spec k' k) as [->|Hne]; simpl.
  - intros [= ->]. now left.
  - intros H. right. auto.
Qed.

Lemma In_get k v o : NoDup (Obj.keys o) -> In (k, v) o -> Obj.get k o = Some v.
Proof.
  unfold Obj.get, Obj.keys.
  induction o as [|[k' v'] o IH]; simpl; intros Hnd Hin; [destruct Hin|].
  apply NoDup_cons in Hnd as [Hk Hnd]. destruct Hin as [[= -> ->] | Hin].
  - now rewrite String.eqb_refl.
  - destruct (String.eqb_spec k' k) as [->|Hne]; simpl; [|auto].
    exfalso. apply Hk, list_elem_of_In, in_map_iff. exists (k, v). auto.
Qed.

Lemma NoDup_keys_set key v o :
  NoDup (Obj.keys o) -> NoDup (Obj.keys (Obj.set key v o)).
Proof.
  intros Hnd. rewrite keys_set. destruct (Obj.has key o) eqn:Eh; [exact Hnd|].
  apply NoDup_app. repeat split; [exact Hnd | | apply NoDup_singleton].
  intros y Hy Hy'. apply list_elem_of_In in Hy, Hy'.
  destruct Hy' as [<- | []]. apply has_In in Hy. congruence.
Qed.

Lemma set_nonempty key v o : Obj.set key v o <> [].
Proof. destruct o as [|[k' v'] o]; simpl; [|destruct (String.eqb k' key)]; discriminate. Qed.
End ObjFacts.
End ObjFacts.

(** ** The shared snapshot *)

Module ServerFacts.
Import Json Server ObjFacts.

Lemma get_update_field_ne key sd kv :
  key <> fst kv -> Obj.get key (update_field sd kv) = Obj.get key sd.
Proof.
  intros Hne. unfold update_field.
  destruct (present (snd kv)); [apply get_set_ne | apply get_del_ne]; exact Hne.
Qed.

Lemma get_update_field_present key v sd :
  Obj.get key (update_field sd (key, Some (JArr v))) = Some (stringify (JArr v)).
Proof. unfold update_field. simpl. apply get_set_eq. Qed.

(** After [updateSocketData] the snapshot holds the serialized list of
    blocks, whatever the list. *)
Lemma updateSocketData_blocks cfg col s :
  Obj.get "blocks" (socketData (updateSocketData cfg col s)) =
  Some (stringify (JArr (slice_last (INITIAL_BLOCKS_AMOUNT cfg) (getBlocks col)))).
Proof.
  unfold updateSocketData, updateSocketDataFields. cbn [socketData fold_left].
  rewrite !get_update_field_ne by (cbn [fst]; discriminate).
  apply get_update_field_present.
Qed.

End ServerFacts.

(** ** The inbound protocol decoder *)

Module DecoderFacts.
Import Json Server Session Decoder Tracking ObjFacts ServerFacts.

(** The serialized list of blocks is never the empty text, so the gate of
    [action: init] lets every request through. *)
Lemma refreshed_not_blank cfg col s :
  blank (Obj.get "blocks" (socketData (refreshed cfg col s))) = false.
Proof.
  unfold refreshed. destruct (needs_refresh (socketData s)) eqn:E.
  - rewrite updateSocketData_blocks. reflexivity.
  - unfold needs_refresh in E. rewrite !orb_false_iff in E. tauto.
Qed.

(** A frame on which the callback does not throw. *)
Lemma onMessage_done cfg col s c f w :
  before_init cfg col s c f = Done w ->
  let r := onMessage cfg col s c (Some f) in
  session r = client (after_init f w) /\
  reply r = response (after_init f w) /\
  sent r = (if String.eqb (default "" (action f)) "init"
            then [serializedInitData (refreshed cfg col s)] else [])
           ++ send_response (reply r) /\
  closed r = false.
Proof.
  intros H. cbn [onMessage]. rewrite H.
  destruct (String.eqb (default "" (action f)) "init").
  - rewrite refreshed_not_blank. repeat split.
  - repeat split.
Qed.

(** A frame on which it throws. *)
Lemma onMessage_thrown cfg col s c f w :
  before_init cfg col s c f = Thrown w ->
  let r := onMessage cfg col s c (Some f) in
  session r = client w /\ sent r = [] /\ closed r = true /\ server r = s.
Proof. intros H. cbn [onMessage]. rewrite H. repeat split. Qed.

Lemma onMessage_sent cfg col s c f :
  closed (onMessage cfg col s c (Some f)) = false ->
  sent (onMessage cfg col s c (Some f)) =
  (if String.eqb (default "" (action f)) "init"
   then [serializedInitData (refreshed cfg col s)] else [])
  ++ send_response (reply (onMessage cfg col s c (Some f))).
Proof.
  destruct (before_init cfg col s c f) as [w|w] eqn:E.
  - intros _. apply (onMessage_done cfg col s c f w E).
  - destruct (onMessage_thrown cfg col s c f w E) as (_ & _ & -> & _).
    discriminate.
Qed.

Ltac split_handler :=
  repeat match goal with
         | |- context [match ?x with _ => _ end] => destruct x eqn:?
         end;
  unfold lists, errors;
  cbn [client response on_client respond
       track_addresses track_scriptpubkeys
       set_track_tx set_track_mempool_tx set_track_address set_track_asset
       set_track_mempool_block set_track_rbf set_track_rbf_summary
       set_track_donation set_track_bisq_market set_track_addresses
       set_track_scriptpubkeys];
  rewrite ?get_set_ne by discriminate; try reflexivity.

Lemma seed_client s col f wn w : client (seed s col f wn w) = client w.
Proof. unfold seed. split_handler. Qed.

Lemma seed_errors s col f wn w :
  errors (response (seed s col f wn w)) = errors (response w).
Proof. unfold seed, errors. split_handler. Qed.

Lemma track_tx_keeps cfg col f w :
  lists (client (handle_track_tx cfg col f w)) = lists (client w)
  /\ errors (response (handle_track_tx cfg col f w)) = errors (response w).
Proof. unfold handle_track_tx, watch_for. split; split_handler. Qed.

(** The handler of [track-address] goes on unless it throws on the value,
    and then leaves the work as it found it. *)
Lemma track_address_cases f w :
  match handle_track_address f w with
  | Done w' => address_throws f = false
               /\ lists (client w') = lists (client w)
               /\ errors (response w') = errors (response w)
  | Thrown w' => address_throws f = true /\ w' = w
  end.
Proof.
  unfold handle_track_address, address_throws, throws.
  destruct (f_track_address f) as [e|]; [|repeat split].
  destruct (truthy_entry e); [|repeat split].
  destruct (testEntry e); repeat split.
Qed.

Lemma track_asset_keeps f w :
  lists (client (handle_track_asset f w)) = lists (client w)
  /\ errors (response (handle_track_asset f w)) = errors (response w).
Proof. unfold handle_track_asset. split; split_handler. Qed.

Lemma track_mempool_block_keeps col f w :
  lists (client (handle_track_mempool_block col f w)) = lists (client w)
  /\ errors (response (handle_track_mempool_block col f w)) = errors (response w).
Proof. unfold handle_track_mempool_block. split; split_handler. Qed.

Lemma track_rbf_keeps col f w :
  lists (client (handle_track_rbf col f w)) = lists (client w)
  /\ errors (response (handle_track_rbf col f w)) = errors (response w).
Proof. unfold handle_track_rbf. split; split_handler. Qed.

Lemma track_rbf_summary_keeps s f w :
  lists (client (handle_track_rbf_summary s f w)) = lists (client w)
  /\ errors (response (handle_track_rbf_summary s f w)) = errors (response w).
Proof. unfold handle_track_rbf_summary. split; split_handler. Qed.

Lemma after_init_keeps f w :
  lists (client (after_init f w)) = lists (client w)
  /\ errors (response (after_init f w)) = errors (response w).
Proof.
  unfold after_init, handle_track_bisq_market, handle_track_donation, handle_ping.
  split; split_handler.
Qed.

Lemma handle_want_lists f c : lists (fst (handle_want f c)) = lists c.
Proof.
  unfold handle_want. destruct (action f), (data f); try reflexivity.
  destruct (String.eqb _ _); reflexivity.
Qed.

(** The address list of a frame, once collected. *)
Lemma collect_from_keys l : forall acc,
  NoDup (Obj.keys acc) ->
  let m := fold_left (fun addressMap address =>
               match Address.testAddress address with
               | Some validAddress => Obj.set address validAddress addressMap
               | None => addressMap
               end) l acc in
  NoDup (Obj.keys m) /\
  (forall a, In a (Obj.keys m) <->
             In a (Obj.keys acc) \/ (In a l /\ valid_address a = true)).
Proof.
  induction l as [|x l IH]; intros acc Hnd; cbn [fold_left].
  - split; [exact Hnd | intros a; simpl; tauto].
  - unfold valid_address in *. destruct (Address.testAddress x) as [v|] eqn:Ex.
    + assert (Hnd' : NoDup (Obj.keys (Obj.set x v acc))).
      { rewrite keys_set. destruct (Obj.has x acc) eqn:Eh; [exact Hnd|].
        apply NoDup_app. repeat split; [exact Hnd | | apply NoDup_singleton].
        intros y Hy Hy'. apply list_elem_of_In in Hy, Hy'.
        destruct Hy' as [<- | []]. apply has_In in Hy. congruence. }
      destruct (IH _ Hnd') as [H1 H2]. split; [exact H1|].
      intros a. rewrite H2, keys_set.
      destruct (Obj.has x acc) eqn:Eh.
      * apply has_In in Eh. simpl. split.
        -- intros [H | [H Hv]]; auto.
        -- intros [H | [[<- | H] Hv]]; auto.
      * rewrite in_app_iff. simpl. split.
        -- intros [[H | [<- | []]] | [H Hv]]; auto.
           right. rewrite Ex. auto.
        -- intros [H | [[<- | H] Hv]]; auto.
    + destruct (IH _ Hnd) as [H1 H2]. split; [exact H1|].
      intros a. rewrite H2. simpl. split.
      * intros [H | [H Hv]]; auto.
      * intros [H | [[<- | H] Hv]]; auto. rewrite Ex in Hv. discriminate.
Qed.

Lemma collect_addresses_keys l :
  NoDup (Obj.keys (collect_addresses l)) /\
  (forall a, In a (Obj.keys (collect_addresses l)) <->
             In a l /\ valid_address a = true).
Proof.
  destruct (collect_from_keys l [] (NoDup_nil_2 : NoDup (@Obj.keys string []))) as [H1 H2].
  split; [exact H1|]. intros a. unfold collect_addresses. rewrite H2. simpl. tauto.
Qed.

(** The map has one key for each distinct valid entry. *)
Lemma collect_addresses_length l :
  length (Obj.keys (collect_addresses l)) = length (distinct_valid l).
Proof.
  destruct (collect_addresses_keys l) as [Hnd Hin].
  apply Permutation_length, NoDup_Permutation.
  - exact Hnd.
  - apply NoDup_remove_dups.
  - intros a. unfold distinct_valid.
    rewrite elem_of_remove_dups, !list_elem_of_In, Hin, filter_In. tauto.
Qed.

End DecoderFacts.

Module TrackingFacts.
Import Json Server Session Decoder Tracking ObjFacts ServerFacts DecoderFacts.

(** Where [testAddress] does not throw on a value, it answers as it does on
    the conversion of that value to a string. *)
Lemma testEntry_key e :
  match testEntry e with
  | Valid v => Address.testAddress (key_of e) = Some v
  | Invalid => Address.testAddress (key_of e) = None
  | Throws => True
  end.
Proof.
  destruct e as [s | [t|]]; cbn [testEntry key_of].
  - destruct (Address.testAddress s); reflexivity.
  - change (default "" (Some t)) with t. unfold Address.testAddress.
    destruct (test Address.re_address t); [|reflexivity].
    destruct (test Address.re_lowercase t); [exact I|].
    destruct (test Address.re_uncompressed t); [reflexivity|].
    destruct (test Address.re_compressed t); reflexivity.
  - exact I.
Qed.

(** On a string it is [Address.testAddress], and never throws. *)
Lemma throws_Str s : throws (Str s) = false.
Proof. unfold throws. cbn [testEntry]. now destruct (Address.testAddress s). Qed.

Lemma existsb_throws_Str l : existsb throws (map Str l) = false.
Proof.
  induction l as [|s l IH]; [reflexivity|].
  cbn [map existsb]. now rewrite throws_Str, IH.
Qed.

Lemma existsb_key_throws_Str l : existsb key_throws (map Str l) = false.
Proof. induction l as [|s l IH]; [reflexivity | exact IH]. Qed.

Lemma is_string_throws e : is_string e = true -> throws e = false.
Proof. destruct e; [intros _; apply throws_Str | discriminate]. Qed.

Lemma is_string_key_throws e : is_string e = true -> key_throws e = false.
Proof. destruct e; [reflexivity | discriminate]. Qed.

(** A frame whose values are strings makes none of the handlers throw. *)
Lemma strings_only_raises f : strings_only f = true -> raises f = false.
Proof.
  unfold strings_only, raises, address_throws, addresses_throw,
    scriptpubkeys_throw.
  rewrite !andb_true_iff. intros [[H1 H2] H3].
  assert (G1 : forall l, forallb is_string l = true -> existsb throws l = false).
  { induction l as [|e l IH]; [reflexivity|]. cbn [forallb existsb].
    rewrite andb_true_iff. intros [He Hl].
    now rewrite (is_string_throws e He), (IH Hl). }
  assert (G2 : forall l, forallb is_string l = true -> existsb key_throws l = false).
  { induction l as [|e l IH]; [reflexivity|]. cbn [forallb existsb].
    rewrite andb_true_iff. intros [He Hl].
    now rewrite (is_string_key_throws e He), (IH Hl). }
  destruct (f_track_address f) as [e|].
  - rewrite (is_string_throws e H1), andb_false_r.
    destruct (f_track_addresses f) as [l|], (f_track_scriptpubkeys f) as [l'|];
      rewrite ?G1, ?G2 by assumption; reflexivity.
  - destruct (f_track_addresses f) as [l|], (f_track_scriptpubkeys f) as [l'|];
      rewrite ?G1, ?G2 by assumption; reflexivity.
Qed.

Lemma map_key_of_Str l : map key_of (map Str l) = l.
Proof. induction l as [|s l IH]; [reflexivity|]. cbn [map key_of]. now rewrite IH. Qed.

(** The loop of [track-addresses] throws on the first entry that throws;
    otherwise it collects what the conversions of the entries give. *)
Lemma fill_addresses_spec l : forall acc,
  fill_addresses l acc =
  if existsb throws l then None
  else Some (fold_left (fun addressMap address =>
               match Address.testAddress address with
               | Some validAddress => Obj.set address validAddress addressMap
               | None => addressMap
               end) (map key_of l) acc).
Proof.
  induction l as [|e l IH]; intros acc; [reflexivity|].
  cbn [fill_addresses existsb map fold_left]. unfold throws at 1.
  pose proof (testEntry_key e) as He.
  destruct (testEntry e) as [v| |]; cbn [orb]; [| |reflexivity];
    rewrite He; apply IH.
Qed.

Lemma fill_addresses_collect l :
  fill_addresses l [] =
  if existsb throws l then None else Some (collect_addresses (map key_of l)).
Proof. apply fill_addresses_spec. Qed.

(** The loop of [track-scriptpubkeys] likewise. *)
Lemma fill_scriptpubkeys_spec l : forall spks,
  fill_scriptpubkeys l spks =
  if existsb key_throws l then None
  else Some (spks ++ collect_scriptpubkeys (map key_of l)).
Proof.
  induction l as [|e l IH]; intros spks.
  - cbn. now rewrite app_nil_r.
  - cbn [fill_scriptpubkeys existsb map]. unfold collect_scriptpubkeys in *.
    destruct e as [s | [t|]]; cbn [key_throws key_of orb List.filter].
    + unfold valid_scriptpubkey at 1. destruct (test re_hex s).
      * rewrite IH. destruct (existsb key_throws l); [reflexivity|].
        cbn [map]. now rewrite <- app_assoc.
      * apply IH.
    + change (default "" (Some t)) with t. unfold valid_scriptpubkey at 1.
      destruct (test re_hex t); [reflexivity|]. apply IH.
    + reflexivity.
Qed.

Lemma fill_scriptpubkeys_collect l :
  fill_scriptpubkeys l [] =
  if existsb key_throws l then None
  else Some (collect_scriptpubkeys (map key_of l)).
Proof. apply (fill_scriptpubkeys_spec l []). Qed.

(** The handler of [track-addresses] goes on unless its loop throws, and
    then leaves the work as it found it. *)
Lemma track_addresses_cases cfg f w :
  match handle_track_addresses cfg f w with
  | Done w' =>
      addresses_throw f = false
      /\ lists (client w') =
           (fst (addresses_outcome cfg f (client w)), track_scriptpubkeys (client w))
      /\ errors (response w') =
           (match snd (addresses_outcome cfg f (client w)) with
            | Some e => Some e
            | None => fst (errors (response w))
            end, snd (errors (response w)))
  | Thrown w' => addresses_throw f = true /\ w' = w
  end.
Proof.
  unfold handle_track_addresses, addresses_throw, addresses_outcome, lists, errors.
  destruct (f_track_addresses f) as [l|]; [|repeat split].
  rewrite fill_addresses_collect.
  destruct (existsb throws l); [split; reflexivity|].
  cbv zeta. destruct (_ <? _); [|destruct (_ <? _)];
    cbn [client response on_client respond fst snd track_addresses
         track_scriptpubkeys set_track_addresses];
    rewrite ?get_set_eq, ?get_set_ne by discriminate; repeat split.
Qed.

Lemma track_scriptpubkeys_cases cfg f w :
  match handle_track_scriptpubkeys cfg f w with
  | Done w' =>
      scriptpubkeys_throw f = false
      /\ lists (client w') =
           (track_addresses (client w), fst (scriptpubkeys_outcome cfg f (client w)))
      /\ errors (response w') =
           (fst (errors (response w)),
            match snd (scriptpubkeys_outcome cfg f (client w)) with
            | Some e => Some e
            | None => snd (errors (response w))
            end)
  | Thrown w' => scriptpubkeys_throw f = true /\ w' = w
  end.
Proof.
  unfold handle_track_scriptpubkeys, scriptpubkeys_throw, scriptpubkeys_outcome,
    lists, errors.
  destruct (f_track_scriptpubkeys f) as [l|]; [|repeat split].
  rewrite fill_scriptpubkeys_collect.
  destruct (existsb key_throws l); [split; reflexivity|].
  cbv zeta. destruct (_ <? _); [|destruct (_ <? _)];
    cbn [client response on_client respond fst snd track_addresses
         track_scriptpubkeys set_track_scriptpubkeys];
    rewrite ?get_set_eq, ?get_set_ne by discriminate; repeat split.
Qed.

Lemma addresses_outcome_ext cfg f c1 c2 :
  track_addresses c1 = track_addresses c2 ->
  addresses_outcome cfg f c1 = addresses_outcome cfg f c2.
Proof. intros H. unfold addresses_outcome. now rewrite H. Qed.

Lemma scriptpubkeys_outcome_ext cfg f c1 c2 :
  track_scriptpubkeys c1 = track_scriptpubkeys c2 ->
  scriptpubkeys_outcome cfg f c1 = scriptpubkeys_outcome cfg f c2.
Proof. intros H. unfold scriptpubkeys_outcome. now rewrite H. Qed.

(** The part of the callback before [action: init]: it throws exactly on
    the frames on which one of the three handlers throws. When it does not,
    the tracking lists and the error entries are those of the two handlers
    of the lists: no other key of the frame touches them. When it does, the
    list of scripts is as it was, and so is the list of addresses unless
    its handler was done before the exception. *)
Lemma before_init_cases cfg col s c f :
  match before_init cfg col s c f with
  | Done w =>
      raises f = false
      /\ lists (client w) =
           (fst (addresses_outcome cfg f c), fst (scriptpubkeys_outcome cfg f c))
      /\ errors (response w) =
           (snd (addresses_outcome cfg f c), snd (scriptpubkeys_outcome cfg f c))
  | Thrown w =>
      raises f = true
      /\ track_scriptpubkeys (client w) = track_scriptpubkeys c
      /\ track_addresses (client w) =
           (if address_throws f || addresses_throw f then track_addresses c
            else fst (addresses_outcome cfg f c))
  end.
Proof.
  unfold before_init, raises.
  set (w0 := {| client := fst (handle_want f c); response := [] |}).
  set (w1 := seed s col f (snd (handle_want f c)) w0).
  set (w2 := handle_track_tx cfg col f w1).
  assert (L1 : lists (client w1) = lists c).
  { unfold w1. rewrite seed_client. apply handle_want_lists. }
  assert (E1 : errors (response w1) = (None, None)).
  { unfold w1. rewrite seed_errors. reflexivity. }
  destruct (track_tx_keeps cfg col f w1) as [L2 E2]. fold w2 in L2, E2.
  rewrite L1 in L2. rewrite E1 in E2. clearbody w2. clear w0 w1 L1 E1.
  pose proof (track_address_cases f w2) as H3.
  destruct (handle_track_address f w2) as [w3|w3]; cbn [and_then].
  2:{ destruct H3 as [-> ->]. cbn [orb]. unfold lists in L2.
      injection L2 as La Ls. repeat split; assumption. }
  destruct H3 as (-> & L3 & E3). rewrite L2 in L3. rewrite E2 in E3.
  clear w2 L2 E2. cbn [orb].
  pose proof (track_addresses_cases cfg f w3) as H4.
  assert (Ha3 : track_addresses (client w3) = track_addresses c)
    by (unfold lists in L3; congruence).
  assert (Hs3 : track_scriptpubkeys (client w3) = track_scriptpubkeys c)
    by (unfold lists in L3; congruence).
  rewrite (addresses_outcome_ext cfg f _ c Ha3) in H4.
  destruct (handle_track_addresses cfg f w3) as [w4|w4]; cbn [and_then].
  2:{ destruct H4 as [-> ->]. cbn [orb]. repeat split; assumption. }
  destruct H4 as (-> & L4 & E4). rewrite E3, Hs3 in *. clear w3 L3 E3 Ha3 Hs3.
  cbn [orb fst snd] in *.
  pose proof (track_scriptpubkeys_cases cfg f w4) as H5.
  assert (Ha4 : track_addresses (client w4) = fst (addresses_outcome cfg f c))
    by (unfold lists in L4; congruence).
  assert (Hs4 : track_scriptpubkeys (client w4) = track_scriptpubkeys c)
    by (unfold lists in L4; congruence).
  rewrite (scriptpubkeys_outcome_ext cfg f _ c Hs4) in H5.
  destruct (handle_track_scriptpubkeys cfg f w4) as [w5|w5]; cbn [and_then].
  2:{ destruct H5 as [-> ->]. repeat split; assumption. }
  destruct H5 as (-> & L5 & E5). rewrite E4, Ha4 in *. cbn [fst snd] in *.
  clear w4 L4 E4 Ha4 Hs4.
  set (w6 := handle_track_asset f w5).
  set (w7 := handle_track_mempool_block col f w6).
  set (w8 := handle_track_rbf col f w7).
  destruct (track_rbf_summary_keeps s f w8) as [-> ->].
  unfold w8. destruct (track_rbf_keeps col f w7) as [-> ->].
  unfold w7. destruct (track_mempool_block_keeps col f w6) as [-> ->].
  unfold w6. destruct (track_asset_keeps f w5) as [-> ->].
  rewrite L5, E5. repeat split.
  destruct (snd (addresses_outcome cfg f c)),
    (snd (scriptpubkeys_outcome cfg f c)); reflexivity.
Qed.

(** The callback throws, and the socket is closed, exactly on those
    frames. *)
Lemma onMessage_closed cfg col s c f :
  closed (onMessage cfg col s c (Some f)) = raises f.
Proof.
  pose proof (before_init_cases cfg col s c f) as H.
  destruct (before_init cfg col s c f) as [w|w] eqn:E.
  - destruct (onMessage_done cfg col s c f w E) as (_ & _ & _ & ->).
    symmetry. apply H.
  - destruct (onMessage_thrown cfg col s c f w E) as (_ & _ & -> & _).
    symmetry. apply H.
Qed.

Lemma onMessage_lists cfg col s c f :
  closed (onMessage cfg col s c (Some f)) = false ->
  lists (session (onMessage cfg col s c (Some f))) =
    (fst (addresses_outcome cfg f c), fst (scriptpubkeys_outcome cfg f c))
  /\ errors (reply (onMessage cfg col s c (Some f))) =
    (snd (addresses_outcome cfg f c), snd (scriptpubkeys_outcome cfg f c)).
Proof.
  pose proof (before_init_cases cfg col s c f) as H.
  destruct (before_init cfg col s c f) as [w|w] eqn:E.
  - destruct (onMessage_done cfg col s c f w E) as (-> & -> & _ & _).
    intros _. destruct (after_init_keeps f w) as [-> ->].
    destruct H as (_ & H1 & H2). split; assumption.
  - destruct (onMessage_thrown cfg col s c f w E) as (_ & _ & -> & _).
    discriminate.
Qed.

(** What an exception leaves behind. *)
Lemma onMessage_raised cfg col s c f :
  closed (onMessage cfg col s c (Some f)) = true ->
  sent (onMessage cfg col s c (Some f)) = []
  /\ server (onMessage cfg col s c (Some f)) = s
  /\ track_scriptpubkeys (session (onMessage cfg col s c (Some f)))
     = track_scriptpubkeys c
  /\ track_addresses (session (onMessage cfg col s c (Some f))) =
       (if address_throws f || addresses_throw f then track_addresses c
        else fst (addresses_outcome cfg f c)).
Proof.
  pose proof (before_init_cases cfg col s c f) as H.
  destruct (before_init cfg col s c f) as [w|w] eqn:E.
  - destruct (onMessage_done cfg col s c f w E) as (_ & _ & _ & ->).
    discriminate.
  - destruct (onMessage_thrown cfg col s c f w E) as (-> & -> & _ & ->).
    intros _. destruct H as (_ & H1 & H2). repeat split; assumption.
Qed.





(** The value stored under each key of the collected map is the canonical
    form of that entry. *)
Lemma collect_from_get l a : forall acc,
  (In a l ->
   Obj.get a (fold_left (fun addressMap address =>
               match Address.testAddress address with
               | Some validAddress => Obj.set address validAddress addressMap
               | None => addressMap
               end) l acc)
   = match Address.testAddress a with
     | Some v => Some v
     | None => Obj.get a acc
     end) /\
  (~ In a l ->
   Obj.get a (fold_left (fun addressMap address =>
               match Address.testAddress address with
               | Some validAddress => Obj.set address validAddress addressMap
               | None => addressMap
               end) l acc)
   = Obj.get a acc).
Proof.
  induction l as [|x l IH]; intros acc; cbn [fold_left].
  - split; [intros [] | reflexivity].
  - destruct (string_dec a x) as [->|Hne].
    + split; [intros _ | intros H; exfalso; apply H; left; reflexivity].
      destruct (Address.testAddress x) as [v|] eqn:Ex.
      * destruct (in_dec string_dec x l) as [Hin|Hin].
        -- rewrite (proj1 (IH _) Hin). reflexivity.
        -- rewrite (proj2 (IH _) Hin). apply get_set_eq.
      * destruct (in_dec string_dec x l) as [Hin|Hin].
        -- rewrite (proj1 (IH _) Hin). reflexivity.
        -- apply (proj2 (IH _) Hin).
    + assert (Hacc : forall v, Obj.get a (Obj.set x v acc) = Obj.get a acc)
        by (intros v; apply get_set_ne; exact Hne).
      split.
      * intros [Heq | Hin]; [congruence|].
        destruct (Address.testAddress x);
          rewrite (proj1 (IH _) Hin); rewrite ?Hacc; reflexivity.
      * intros Hn. assert (Hn' : ~ In a l) by (intros H; apply Hn; right; exact H).
        destruct (Address.testAddress x);
          rewrite (proj2 (IH _) Hn'); rewrite ?Hacc; reflexivity.
Qed.

Lemma collect_addresses_get l a :
  Obj.get a (collect_addresses l) =
  if in_dec string_dec a l then Address.testAddress a else None.
Proof.
  unfold collect_addresses. destruct (in_dec string_dec a l) as [Hin|Hin].
  - rewrite (proj1 (collect_from_get l a []) Hin).
    now destruct (Address.testAddress a).
  - apply (proj2 (collect_from_get l a []) Hin).
Qed.

Lemma distinct_valid_none l :
  Forall (fun a => Address.testAddress a = None) l -> distinct_valid l = [].
Proof.
  intros H. unfold distinct_valid.
  assert (E : List.filter valid_address l = []).
  { induction H as [|a l Ha _ IH]; simpl; [reflexivity|].
    unfold valid_address at 1. now rewrite Ha. }
  now rewrite E.
Qed.

End TrackingFacts.

(** ** Subscriptions *)

Module SubscriptionFacts.
Import Json Server Session Decoder Subscriptions Sample ObjFacts DecoderFacts.

Lemma handle_want_listed f c d :
  action f = Some "want" -> data f = Some d ->
  handle_want f c = (relisted d c, newly_on d c).
Proof.
  intros Ha Hd. unfold handle_want, relisted, newly_on. rewrite Ha, Hd.
  change (String.eqb "want" "want") with true. cbn iota.
  cbn [fold_left wantable want_turn fst snd List.filter].
  f_equal. cbn [want set_want want_blocks want_mempool_blocks want_live_2h_chart
                want_stats want_tomahawk String.eqb Ascii.eqb Bool.eqb].
  unfold want. cbn [String.eqb Ascii.eqb Bool.eqb].
  destruct (includes "blocks" d && negb (want_blocks c)),
    (includes "mempool-blocks" d && negb (want_mempool_blocks c)),
    (includes "live-2h-chart" d && negb (want_live_2h_chart c)),
    (includes "stats" d && negb (want_stats c)),
    (includes "tomahawk" d && negb (want_tomahawk c)); reflexivity.
Qed.

Lemma want_relisted d c sub :
  In sub wantable -> want sub (relisted d c) = includes sub d.
Proof.
  intros H. repeat (destruct H as [<- | H]; [reflexivity|]). destruct H.
Qed.

Lemma includes_newly_on d c sub :
  In sub wantable ->
  includes sub (newly_on d c) = includes sub d && negb (want sub c).
Proof.
  intros H. unfold newly_on. cbn [List.filter wantable].
  repeat (destruct H as [<- | H];
    [unfold want; cbn [String.eqb Ascii.eqb Bool.eqb];
     destruct (includes "blocks" d && negb (want_blocks c)),
       (includes "mempool-blocks" d && negb (want_mempool_blocks c)),
       (includes "live-2h-chart" d && negb (want_live_2h_chart c)),
       (includes "stats" d && negb (want_stats c)),
       (includes "tomahawk" d && negb (want_tomahawk c)); reflexivity|]).
  destruct H.
Qed.

Lemma relisted_twice d1 d2 c : relisted d2 (relisted d1 c) = relisted d2 c.
Proof. reflexivity. Qed.

Lemma relisted_same d c :
  (forall sub, In sub wantable -> includes sub d = want sub c) ->
  relisted d c = set_wants true c.
Proof.
  intros H. unfold relisted. cbn [fold_left wantable].
  rewrite (H "blocks"), (H "mempool-blocks"), (H "live-2h-chart"), (H "stats"),
    (H "tomahawk") by (simpl; tauto).
  destruct c. reflexivity.
Qed.

(** A frame that carries [action: 'want'] and [data] only. *)
Lemma want_frame_work cfg col s c d :
  let r := onMessage cfg col s c (Some (want_frame d)) in
  session r = relisted d c /\
  reply r = response (seed s col (want_frame d) (newly_on d c)
                        {| client := relisted d c; response := [] |}) /\
  server r = s.
Proof.
  cbv zeta.
  assert (E : before_init cfg col s c (want_frame d)
              = Done (seed s col (want_frame d) (newly_on d c)
                        {| client := relisted d c; response := [] |})).
  { unfold before_init.
    rewrite (handle_want_listed (want_frame d) c d) by reflexivity. reflexivity. }
  destruct (onMessage_done cfg col s c (want_frame d) _ E) as (-> & -> & _ & _).
  repeat split. apply seed_client.
Qed.

End SubscriptionFacts.

(** ** Claims C1 and C9: the snapshot on [init] and the seeds of [want] *)

Module SnapshotClaims.
Import Json Server Session Decoder Subscriptions Sample.
Import ObjFacts ServerFacts DecoderFacts SubscriptionFacts.

(** Whatever the snapshot and the collaborators hold, a frame with action
    ['init'] on which the callback does not throw is answered with the
    serialized snapshot. *)
Lemma init_answered cfg col s c f :
  action f = Some "init" ->
  closed (onMessage cfg col s c (Some f)) = false ->
  exists rest,
    sent (onMessage cfg col s c (Some f))
      = serializedInitData (refreshed cfg col s) :: rest.
Proof.
  intros Ha Hc. rewrite onMessage_sent, Ha by exact Hc. simpl. eauto.
Qed.

(** C1: on a server that knows no block yet, [{"action":"init"}] refreshes
    the snapshot, in which the empty list of blocks is the text [[]], and
    the serialized snapshot is sent: the gate on the length of that text
    does not hold the reply back. *)
Theorem init_before_any_block :
  let r := onMessage cfg starting initial peer (Some init_frame) in
  getBlocks starting = [] /\
  Obj.get "blocks" (socketData (server r)) = Some "[]" /\
  sent r = [serializedInitData (server r)] /\
  JsonSyntax.valid_object (serializedInitData (server r)) = true.
Proof. vm_compute. repeat split. Qed.

(** When the class [stats] is newly turned on and the snapshot has no entry
    [da], the response gets the key [da] with the value [undefined]. *)
Lemma stats_seed_da cfg col s c d :
  want "stats" c = false -> includes "stats" d = true ->
  Obj.get "da" (socketData s) = None ->
  Obj.get "da" (reply (onMessage cfg col s c (Some (want_frame d)))) = Some None.
Proof.
  intros Hoff Hin Hda.
  destruct (want_frame_work cfg col s c d) as (_ & -> & _).
  unfold seed. rewrite !includes_newly_on by (simpl; tauto).
  rewrite Hin, Hoff, Hda. cbn [negb andb].
  repeat match goal with
         | |- context [if ?b then _ else _] => destruct b
         end;
    cbn [response respond]; rewrite ?get_set_ne by discriminate;
    apply get_set_eq.
Qed.


End SnapshotClaims.

(** ** Claim C8: a class turned on and off again *)

Module SubscriptionClaims.
Import Json Server Session Decoder Subscriptions Sample.
Import ObjFacts DecoderFacts SubscriptionFacts.

(** C8, as stated, fails: a second frame that does not list [stats] turns
    off [blocks] as well, which was on before the first frame. *)
Lemma want_off_counterexample :
  let s := set_want "blocks" true (set_wants true peer) in
  let r1 := onMessage cfg starting initial s (Some (want_frame ["stats"])) in
  let r2 := onMessage cfg starting (server r1) (session r1)
              (Some (want_frame [])) in
  includes "stats" ["stats"] = true /\ includes "stats" [] = false /\
  want "blocks" s = true /\ want "blocks" (session r2) = false /\
  session r2 <> s.
Proof.
  vm_compute. repeat split. intros H. discriminate H.
Qed.

(** C8 (amended): after a ['want'] frame that lists the class [c] and a
    second one that does not, both carrying nothing but [action] and
    [data], the class [c] is off, every class is on exactly when the second
    frame lists it, and nothing else of the session has changed but the
    marker [wants], which is set. So the session is back in its state [s],
    marker apart, when the second frame lists exactly the classes that were
    on in [s]. *)
Theorem want_on_then_off cfg col1 col2 srv1 srv2 (s : Client) (c : string)
    (d1 d2 : list string) :
  In c wantable -> includes c d1 = true -> includes c d2 = false ->
  let r1 := onMessage cfg col1 srv1 s (Some (want_frame d1)) in
  let r2 := onMessage cfg col2 srv2 (session r1) (Some (want_frame d2)) in
  want c (session r1) = true /\
  want c (session r2) = false /\
  (forall sub, In sub wantable -> want sub (session r2) = includes sub d2) /\
  session r2 = relisted d2 s /\
  ((forall sub, In sub wantable -> includes sub d2 = want sub s) ->
   session r2 = set_wants true s).
Proof.
  intros Hc H1 H2. cbv zeta.
  destruct (want_frame_work cfg col1 srv1 s d1) as (-> & _ & _).
  destruct (want_frame_work cfg col2 srv2 (relisted d1 s) d2) as (-> & _ & _).
  rewrite relisted_twice. repeat split.
  - now rewrite want_relisted.
  - now rewrite want_relisted.
  - intros sub Hs. now apply want_relisted.
  - apply relisted_same.
Qed.

Lemma want_on_then_off_witness :
  let s := set_wants true peer in
  let r1 := onMessage cfg starting initial s (Some (want_frame ["stats"])) in
  let r2 := onMessage cfg starting initial (session r1) (Some (want_frame [])) in
  want "stats" (session r1) = true /\
  want "stats" (session r2) = false /\
  (forall sub, In sub wantable -> want sub (session r2) = includes sub []) /\
  session r2 = relisted [] s /\
  ((forall sub, In sub wantable -> includes sub [] = want sub s) ->
   session r2 = set_wants true s).
Proof.
  apply (want_on_then_off cfg starting starting initial initial
           (set_wants true peer) "stats" ["stats"] []).
  - simpl. tauto.
  - reflexivity.
  - reflexivity.
Defined.

End SubscriptionClaims.

(** ** Claims C4 and C10: the bound on the tracking lists *)

Module TrackingClaims.
Import Json Server Session Decoder Tracking Sample.
Import ObjFacts DecoderFacts TrackingFacts.




(** C10, as stated, fails: with a maximum of one, a frame of three entries
    of which one is distinct and valid, twice an address and once, in an
    array, an address in capitals, is not accepted: [testAddress] throws on
    the array, the socket is closed, nothing is sent, and the session still
    tracks what it tracked before. *)
Lemma throwing_entry_counterexample :
  let l := [Str address_a; Str address_a; Other (Some address_caps)] in
  let r0 := onMessage cfg starting initial peer
              (Some (addresses_frame [address_b])) in
  let r := onMessage cfg starting (server r0) (session r0)
             (Some (entries_frame l)) in
  MAX_TRACKED_ADDRESSES cfg < length l /\
  map testEntry l = [Valid address_a; Valid address_a; Throws] /\
  track_addresses (session r0) = Some [(address_b, address_b)] /\
  closed r = true /\ sent r = [] /\
  track_addresses (session r) = Some [(address_b, address_b)].
Proof. vm_compute. repeat split. lia. Qed.

(** C10 (amended): on a frame on which the callback does not throw, the
    handler of [track-addresses] drops the entries that fail validation and
    keeps one key for each distinct valid entry, mapped to its canonical
    form; the comparison with the maximum counts those keys. So the frame
    is answered with the error exactly when the distinct valid entries
    outnumber the maximum; with at most the maximum of them, however many
    raw entries there are, there is no error and the map is stored if it is
    not empty; and a frame whose entries are all invalid sets the slot to
    null without an error. The callback throws exactly on the frames on
    which one of the three handlers throws, and on no frame in which the
    value of [track-address] and the entries of the two lists are strings,
    which are then the entries that are counted; when the loop of
    [track-addresses] throws on an entry, the socket is closed, nothing is
    sent and the slot is as it was. *)
Theorem track_addresses_counts_distinct_valid cfg col s c f l :
  f_track_addresses f = Some l ->
  let r := onMessage cfg col s c (Some f) in
  let given := map key_of l in
  let n := length (distinct_valid given) in
  let m := collect_addresses given in
  (NoDup (Obj.keys m) /\ length (Obj.keys m) = n /\
   forall a, Obj.get a m =
             if in_dec string_dec a given then Address.testAddress a else None) /\
  (closed r = false ->
     Obj.get "track-addresses-error" (reply r)
       = (if MAX_TRACKED_ADDRESSES cfg <? n
          then Some (Some (too_many "addresses" cfg)) else None) /\
     (n <= MAX_TRACKED_ADDRESSES cfg ->
        Obj.get "track-addresses-error" (reply r) = None /\
        track_addresses (session r) = if 0 <? n then Some m else None) /\
     (Forall (fun a => Address.testAddress a = None) given ->
        n = 0 /\ track_addresses (session r) = None /\
        Obj.get "track-addresses-error" (reply r) = None)) /\
  closed r = raises f /\
  (strings_only f = true -> closed r = false) /\
  (forall strings, l = map Str strings -> given = strings) /\
  (existsb throws l = true ->
     closed r = true /\ sent r = [] /\
     track_addresses (session r) = track_addresses c).
Proof.
  intros Hf. cbv zeta. split; [|split; [|split; [|split; [|split]]]].
  - split; [apply collect_addresses_keys|].
    split; [apply collect_addresses_length | apply collect_addresses_get].
  - intros Hc.
    destruct (onMessage_lists cfg col s c f Hc) as [Hl He].
    remember (onMessage cfg col s c (Some f)) as r eqn:Hr. clear Hr.
    unfold lists in Hl. unfold errors in He.
    injection Hl as Hl _. injection He as He _.
    unfold addresses_outcome in Hl, He. rewrite Hf in Hl, He.
    cbv zeta in Hl, He. rewrite collect_addresses_length in Hl, He.
    assert (Hle : length (distinct_valid (map key_of l))
                  <= MAX_TRACKED_ADDRESSES cfg ->
       Obj.get "track-addresses-error" (reply r) = None /\
       track_addresses (session r)
         = if 0 <? length (distinct_valid (map key_of l))
           then Some (collect_addresses (map key_of l)) else None).
    { intros Hn. apply Nat.ltb_ge in Hn. rewrite Hn in Hl, He.
      destruct (0 <? _); auto. }
    split; [|split].
    + rewrite He. destruct (MAX_TRACKED_ADDRESSES cfg <? _); [reflexivity|].
      now destruct (0 <? _).
    + exact Hle.
    + intros Hall. rewrite (distinct_valid_none _ Hall) in *.
      destruct (Hle (Nat.le_0_l _)) as [H1 H2]. auto.
  - apply onMessage_closed.
  - intros Hs. rewrite onMessage_closed. apply strings_only_raises, Hs.
  - intros strings ->. apply map_key_of_Str.
  - intros Ht.
    assert (Hc : closed (onMessage cfg col s c (Some f)) = true).
    { rewrite onMessage_closed. unfold raises, addresses_throw.
      rewrite Hf, Ht. now rewrite orb_true_r. }
    destruct (onMessage_raised cfg col s c f Hc) as (Hs & _ & _ & Ha).
    split; [exact Hc|]. split; [exact Hs|]. rewrite Ha.
    unfold addresses_throw. rewrite Hf, Ht. now rewrite orb_true_r.
Qed.

Lemma track_addresses_counts_distinct_valid_witness :
  let l := [address_a; address_a; "nonsense"; address_a] in
  let r := onMessage cfg starting initial peer (Some (addresses_frame l)) in
  MAX_TRACKED_ADDRESSES cfg < length l /\
  Obj.get "track-addresses-error" (reply r) = None /\
  track_addresses (session r) = Some [(address_a, address_a)].
Proof.
  cbv zeta. split; [vm_compute; lia|].
  apply (proj1 (proj2 (proj1 (proj2
    (track_addresses_counts_distinct_valid cfg starting initial peer
       (addresses_frame [address_a; address_a; "nonsense"; address_a])
       (map Str [address_a; address_a; "nonsense"; address_a]) eq_refl))
    ltac:(vm_compute; reflexivity)))).
  vm_compute. lia.
Defined.

End TrackingClaims.

(** ** Decimal keys *)

Lemma to_int_not_nil z : Z.to_int z <> Decimal.Pos Decimal.Nil /\ Z.to_int z <> Decimal.Neg Decimal.Nil.
Proof.
  pose proof (DecimalZ.to_of (Z.to_int z)) as H. rewrite DecimalZ.of_to in H.
  split; intros E; rewrite E in H; discriminate H.
Qed.

Lemma decimal_inj a b : Json.decimal a = Json.decimal b -> a = b.
Proof.
  unfold Json.decimal. intros H. apply DecimalZ.to_int_inj.
  destruct (to_int_not_nil a) as [Ha1 Ha2]. destruct (to_int_not_nil b) as [Hb1 Hb2].
  pose proof (NilZero.isi _ Ha1 Ha2) as Ea. pose proof (NilZero.isi _ Hb1 Hb2) as Eb.
  rewrite H in Ea. congruence.
Qed.

Lemma decimal_nat_inj a b :
  Json.decimal (Z.of_nat a) = Json.decimal (Z.of_nat b) -> a = b.
Proof. intros H. apply decimal_inj in H. lia. Qed.

(** ** The outspend index *)

Module OutspendFacts.
Import Json Server Session Fanout MempoolFanout Outspends ObjFacts.

Lemma spend_at_record_same tracked sp cache i input :
  vin_txid input ∈ tracked ->
  spend_at (record_spend tracked sp cache (i, input)) (vin_txid input) (vin_vout input)
    = Some (i, sp).
Proof.
  intros Ht. unfold record_spend, spend_at. cbn [fst snd].
  rewrite bool_decide_eq_true_2 by exact Ht.
  destruct (Obj.get (vin_txid input) cache) as [inner|];
    rewrite get_set_eq; cbn [mbind option_bind].
  - apply get_set_eq.
  - unfold Obj.get. simpl. now rewrite String.eqb_refl.
Qed.

Lemma spend_at_record_other tracked sp cache i input t v :
  (t, v) <> (vin_txid input, vin_vout input) ->
  spend_at (record_spend tracked sp cache (i, input)) t v = spend_at cache t v.
Proof.
  intros Hne. unfold record_spend, spend_at. cbn [fst snd].
  destruct (bool_decide _); [|reflexivity].
  destruct (string_dec t (vin_txid input)) as [->|Ht].
  - assert (Hv : decimal (Z.of_nat v) <> decimal (Z.of_nat (vin_vout input))).
    { intros E. apply decimal_nat_inj in E. congruence. }
    destruct (Obj.get (vin_txid input) cache) as [inner|];
      rewrite get_set_eq; cbn [mbind option_bind].
    + now apply get_set_ne.
    + unfold Obj.get. simpl.
      destruct (String.eqb_spec (decimal (Z.of_nat (vin_vout input)))
                  (decimal (Z.of_nat v))); [congruence | reflexivity].
  - destruct (Obj.get (vin_txid input) cache); now rewrite get_set_ne.
Qed.

Lemma get_record_tracked tracked sp cache input t :
  Obj.get t (record_spend tracked sp cache input) <> None ->
  Obj.get t cache <> None \/ t ∈ tracked.
Proof.
  unfold record_spend. destruct (bool_decide_reflect (vin_txid (snd input) ∈ tracked)) as [Hin|Hin];
    [|auto].
  destruct (string_dec t (vin_txid (snd input))) as [->|Ht]; [auto|].
  destruct (Obj.get (vin_txid (snd input)) cache); rewrite get_set_ne; auto.
Qed.

(** The two nested loops write the flattened list of inputs, in order. *)
Lemma outspend_fold tracked txs : forall acc,
  fold_left (fun cache tx =>
               fold_left (record_spend tracked (txid tx)) (indexed_vin tx) cache)
    txs acc
  = fold_left (fun cache w => record_spend tracked (fst w) cache (snd w))
      (writes txs) acc.
Proof.
  induction txs as [|tx txs IH]; intros acc; [reflexivity|].
  cbn [fold_left]. unfold writes. cbn [flat_map]. rewrite fold_left_app.
  fold (writes txs). rewrite IH. f_equal.
  generalize (indexed_vin tx), acc. clear.
  induction l as [|x l IH]; intros acc; [reflexivity | apply IH].
Qed.

Lemma indexed_vin_spec tx i input :
  In (i, input) (indexed_vin tx) <-> nth_error (vin tx) i = Some input.
Proof.
  unfold indexed_vin. generalize (vin tx). intros l.
  assert (G : forall start, In (i, input) (combine (seq start (length l)) l)
                <-> start <= i /\ nth_error l (i - start) = Some input).
  { induction l as [|x l IH]; intros start; simpl.
    - split; [tauto | intros [_ H]; destruct (i - start); discriminate].
    - rewrite IH. split.
      + intros [[= <- <-] | [Hle Hn]].
        * rewrite Nat.sub_diag. split; [lia | reflexivity].
        * split; [lia|]. replace (i - start) with (S (i - S start)) by lia. exact Hn.
      + intros [Hle Hn]. destruct (i - start) as [|k] eqn:E.
        * left. injection Hn as ->. f_equal. lia.
        * right. split; [lia|]. replace (i - S start) with k by lia. exact Hn. }
  rewrite G, Nat.sub_0_r. intuition lia.
Qed.

Lemma writes_outpoints txs : map outpoint (writes txs) = spent_outpoints txs.
Proof.
  unfold writes, spent_outpoints. induction txs as [|tx txs IH]; [reflexivity|].
  cbn [flat_map]. rewrite map_app, IH. f_equal.
  rewrite map_map. unfold outpoint, indexed_vin. cbn [snd].
  generalize 0. induction (vin tx) as [|x l IHl]; intros start; [reflexivity|].
  simpl. f_equal. apply IHl.
Qed.

Lemma In_writes txs sp i input :
  In (sp, (i, input)) (writes txs) <->
  exists b, In b txs /\ txid b = sp /\ nth_error (vin b) i = Some input.
Proof.
  unfold writes. rewrite in_flat_map. split.
  - intros (b & Hb & Hin). apply in_map_iff in Hin as ([i' input'] & [= <- <- <-] & Hin).
    exists b. repeat split; auto. now apply indexed_vin_spec.
  - intros (b & Hb & <- & Hn). exists b. split; [exact Hb|].
    apply in_map_iff. exists (i, input). split; [reflexivity|].
    now apply indexed_vin_spec.
Qed.

Section Writes.
Variable tracked : gset string.
Let record := fun (cache : Obj.t (Obj.t (nat * string))) (w : string * (nat * Vin)) =>
  record_spend tracked (fst w) cache (snd w).

(** Writes to other outputs leave an entry as it is. *)
Lemma spend_at_untouched ws : forall acc t v,
  ~ In (t, v) (map outpoint ws) ->
  spend_at (fold_left record ws acc) t v = spend_at acc t v.
Proof.
  induction ws as [|[sp [i input]] ws IH]; intros acc t v Hn; [reflexivity|].
  cbn [fold_left]. rewrite IH by (intros H; apply Hn; right; exact H).
  apply spend_at_record_other. intros E. apply Hn. left. symmetry. exact E.
Qed.

(** When no output is spent twice, each write to a tracked transaction is
    what the index holds for its output. *)
Lemma spend_at_written ws : forall acc sp i input,
  NoDup (map outpoint ws) ->
  In (sp, (i, input)) ws -> vin_txid input ∈ tracked ->
  spend_at (fold_left record ws acc) (vin_txid input) (vin_vout input) = Some (i, sp).
Proof.
  induction ws as [|w ws IH]; intros acc sp i input Hnd Hin Ht; [destruct Hin|].
  apply NoDup_cons in Hnd as [Hw Hnd]. rewrite list_elem_of_In in Hw.
  cbn [fold_left]. destruct Hin as [-> | Hin].
  - rewrite spend_at_untouched by exact Hw.
    apply spend_at_record_same, Ht.
  - apply IH; assumption.
Qed.

(** Every entry of the index is the write of some input, and its key is a
    tracked txid. *)
Lemma spend_at_sound ws : forall acc t v p,
  spend_at (fold_left record ws acc) t v = Some p ->
  spend_at acc t v = Some p \/
  (t ∈ tracked /\ exists sp i input,
     In (sp, (i, input)) ws /\ outpoint (sp, (i, input)) = (t, v) /\ p = (i, sp)).
Proof.
  induction ws as [|[sp [i input]] ws IH]; intros acc t v p H; [left; exact H|].
  cbn [fold_left] in H. apply IH in H as [H | (Ht & sp' & i' & input' & Hin & Ho & ->)].
  - destruct (decide ((t, v) = (vin_txid input, vin_vout input))) as [E|E].
    + unfold record, record_spend in H. cbn [fst snd] in H.
      destruct (bool_decide_reflect (vin_txid input ∈ tracked)) as [Hin|Hin]; [|auto].
      injection E as -> ->. right. split; [exact Hin|].
      exists sp, i, input. split; [left; reflexivity|]. split; [reflexivity|].
      pose proof (spend_at_record_same tracked sp acc i input Hin) as Hs.
      unfold record_spend in Hs. cbn [fst snd] in Hs.
      rewrite bool_decide_eq_true_2 in Hs by exact Hin. congruence.
    + left. unfold record in H. cbn [fst snd] in H.
      now rewrite spend_at_record_other in H.
  - right. split; [exact Ht|]. exists sp', i', input'. split; [right; exact Hin | auto].
Qed.
(** The entry of an output is the last write to it. *)
Lemma spend_at_last_write pre sp i input post acc :
  vin_txid input ∈ tracked ->
  ~ In (vin_txid input, vin_vout input) (map outpoint post) ->
  spend_at (fold_left record (pre ++ (sp, (i, input)) :: post) acc)
    (vin_txid input) (vin_vout input) = Some (i, sp).
Proof.
  intros Ht Hn. rewrite fold_left_app. cbn [fold_left].
  rewrite spend_at_untouched by exact Hn.
  unfold record at 1. cbn [fst snd]. apply spend_at_record_same, Ht.
Qed.

Lemma spend_at_last ws : forall t v p,
  spend_at (fold_left record ws []) t v = Some p ->
  t ∈ tracked /\
  exists pre sp i input post,
    ws = pre ++ (sp, (i, input)) :: post /\
    vin_txid input = t /\ vin_vout input = v /\ p = (i, sp) /\
    ~ In (t, v) (map outpoint post).
Proof.
  induction ws as [|[sp [i input]] ws IH] using rev_ind; intros t v p H.
  - discriminate H.
  - rewrite fold_left_app in H. cbn [fold_left] in H.
    unfold record at 1 in H. cbn [fst snd] in H.
    destruct (decide ((t, v) = (vin_txid input, vin_vout input))) as [E|E].
    + injection E as -> ->.
      destruct (decide (vin_txid input ∈ tracked)) as [Hin|Hin].
      * rewrite spend_at_record_same in H by exact Hin. injection H as <-.
        split; [exact Hin|]. exists ws, sp, i, input, [].
        repeat split; auto.
      * unfold record_spend in H. cbn [fst snd] in H.
        rewrite bool_decide_eq_false_2 in H by exact Hin.
        apply IH in H as [Ht _]. contradiction.
    + rewrite spend_at_record_other in H by exact E.
      apply IH in H as (Ht & pre & sp' & i' & input' & post & -> & Ho & Hv & -> & Hn).
      split; [exact Ht|].
      exists pre, sp', i', input', (post ++ [(sp, (i, input))]).
      rewrite <- app_assoc. repeat split; auto.
      rewrite map_app, in_app_iff. intros [H | [H | []]]; [auto|].
      apply E. symmetry. exact H.
Qed.

(** Every object of outspends has each key once. *)
Lemma record_inner_keys ws : forall acc,
  (forall t o, Obj.get t acc = Some o -> NoDup (Obj.keys o)) ->
  forall t o, Obj.get t (fold_left record ws acc) = Some o -> NoDup (Obj.keys o).
Proof.
  induction ws as [|[sp [i input]] ws IH]; intros acc Hacc; [exact Hacc|].
  cbn [fold_left]. apply IH. intros t o.
  unfold record, record_spend. cbn [fst snd].
  destruct (bool_decide _); [|apply Hacc].
  destruct (string_dec t (vin_txid input)) as [->|Hne].
  - destruct (Obj.get (vin_txid input) acc) as [inner|] eqn:E;
      rewrite get_set_eq; intros [= <-].
    + apply NoDup_keys_set. eapply Hacc, E.
    + apply NoDup_singleton.
  - destruct (Obj.get (vin_txid input) acc); rewrite get_set_ne by exact Hne;
      apply Hacc.
Qed.
End Writes.

Lemma flat_map_split {A B} (f : A -> list B) l : forall pre x post,
  flat_map f l = pre ++ x :: post ->
  exists l1 a l2 p1 p2,
    l = l1 ++ a :: l2 /\ f a = p1 ++ x :: p2 /\
    pre = flat_map f l1 ++ p1 /\ post = p2 ++ flat_map f l2.
Proof.
  induction l as [|a l IH]; intros pre x post H; cbn [flat_map] in H.
  - destruct pre; discriminate.
  - apply app_eq_app in H as (m & [[H1 H2] | [H1 H2]]).
    + destruct m as [|y m].
      * cbn [app] in H2. symmetry in H2.
        apply (IH [] x post) in H2 as (l1 & a' & l2 & p1 & p2 & -> & Ha & Hp & ->).
        exists (a :: l1), a', l2, p1, p2. repeat split; auto.
        cbn [flat_map]. rewrite app_nil_r in H1. subst pre.
        now rewrite <- app_assoc, <- Hp, app_nil_r.
      * injection H2 as <- ->. exists [], a, l, pre, m. repeat split; auto.
    + apply IH in H2 as (l1 & a' & l2 & p1 & p2 & -> & Ha & -> & ->).
      exists (a :: l1), a', l2, p1, p2. repeat split; auto.
      cbn [flat_map]. now rewrite <- app_assoc.
Qed.

Lemma indexed_app (earlier : list Vin) input later : forall start,
  combine (seq start (length (earlier ++ input :: later)))
    (earlier ++ input :: later)
  = combine (seq start (length earlier)) earlier
    ++ (start + length earlier, input)
    :: combine (seq (S (start + length earlier)) (length later)) later.
Proof.
  induction earlier as [|x earlier IH]; intros start; simpl.
  - now rewrite Nat.add_0_r.
  - f_equal. rewrite IH. now rewrite Nat.add_succ_r.
Qed.

Lemma map_fst_indexed (l : list Vin) : forall start,
  map fst (combine (seq start (length l)) l) = seq start (length l).
Proof. induction l as [|x l IH]; intros start; simpl; [|rewrite IH]; reflexivity. Qed.

Lemma map_snd_indexed (l : list Vin) : forall start,
  map snd (combine (seq start (length l)) l) = l.
Proof. induction l as [|x l IH]; intros start; simpl; [|rewrite IH]; reflexivity. Qed.

Lemma seq_split_index n A i B : seq 0 n = A ++ i :: B -> i = length A.
Proof.
  intros H.
  assert (Hlen : length A < n).
  { apply (f_equal (@length nat)) in H.
    rewrite length_seq, length_app in H. simpl in H. lia. }
  pose proof (@seq_nth n 0 (length A) 0 Hlen) as Hn. rewrite H in Hn.
  rewrite app_nth2, Nat.sub_diag in Hn by lia. simpl in Hn. lia.
Qed.

Lemma make_outspendCache_fold clients txs :
  make_outspendCache clients txs
  = fold_left (fun cache w => record_spend (trackedTxs clients) (fst w) cache (snd w))
      (writes txs) [].
Proof.
  unfold make_outspendCache. destruct (0 <? size (trackedTxs clients)) eqn:E.
  - apply outspend_fold.
  - apply Nat.ltb_ge in E. assert (Hs : size (trackedTxs clients) = 0) by lia.
    apply size_empty_inv in Hs.
    generalize (@nil (string * Obj.t (nat * string))).
    induction (writes txs) as [|w ws IH]; intros acc; [reflexivity|].
    cbn [fold_left]. unfold record_spend at 2.
    rewrite bool_decide_eq_false_2; [apply IH|].
    intros Hin. apply Hs in Hin. set_solver.
Qed.

Lemma trackedTxs_spec clients t :
  t ∈ trackedTxs clients <->
  exists c, In c clients /\ track_tx c = Some t /\ t <> "".
Proof.
  unfold trackedTxs.
  assert (G : forall acc : gset string,
    t ∈ fold_left (fun tracked c =>
                     if truthy_str (track_tx c)
                     then tracked ∪ {[ default "" (track_tx c) ]} else tracked)
          clients acc
    <-> t ∈ acc \/ exists c, In c clients /\ track_tx c = Some t /\ t <> "").
  { induction clients as [|c clients IH]; intros acc; cbn [fold_left].
    - split; [auto | intros [H | (c & [] & _)]; exact H].
    - rewrite IH. unfold truthy_str, Decoder.truthy_str.
      assert (Hcons : (exists c', In c' clients /\ track_tx c' = Some t /\ t <> "")
                      -> exists c', In c' (c :: clients) /\ track_tx c' = Some t /\ t <> "").
      { intros (c' & Hc' & H). exists c'. split; [right; exact Hc' | exact H]. }
      destruct (track_tx c) as [x|] eqn:Ex.
      + destruct (String.eqb_spec x "") as [->|Hx]; cbn [negb].
        * split; [intros [H | H]; auto|].
          intros [H | (c' & [<- | Hc'] & Ht & Hne)];
            [auto | exfalso; rewrite Ex in Ht; injection Ht as Ht; auto |].
          right. exists c'. auto.
        * cbn [default]. rewrite elem_of_union, elem_of_singleton. split.
          -- intros [[H | ->] | H]; auto.
             right. exists c. split; [left; reflexivity | auto].
          -- intros [H | (c' & [<- | Hc'] & Ht & Hne)]; [auto | |].
             ++ left. right. rewrite Ex in Ht. now injection Ht.
             ++ right. exists c'. auto.
      + split; [intros [H | H]; auto|].
        intros [H | (c' & [<- | Hc'] & Ht & Hne)];
          [auto | rewrite Ex in Ht; discriminate Ht |].
        right. exists c'. auto. }
  rewrite G. split; [intros [H | H]; [set_solver | exact H] | auto].
Qed.

(** The entry at [t] and [v] is that of the last input that spends output
    [v] of [t], if [t] is followed. *)
Lemma index_entry clients txs t v i sp :
  spend_at (make_outspendCache clients txs) t v = Some (i, sp) <->
  t ∈ trackedTxs clients /\ exists b, txid b = sp /\ last_spend txs t v b i.
Proof.
  rewrite make_outspendCache_fold. split.
  - intros H. apply spend_at_last in H
      as (Ht & pre & sp' & i' & input & post & Hw & Htx & Hv & [= -> ->] & Hn).
    split; [exact Ht|]. unfold writes in Hw.
    apply flat_map_split in Hw as (l1 & b & l2 & p1 & p2 & -> & Hb & -> & ->).
    apply map_eq_app in Hb as (L1 & L' & HL & <- & Hb).
    destruct L' as [|[i0 in0] L2]; [discriminate Hb|].
    cbn [map] in Hb. injection Hb as Hsp -> -> <-.
    exists b. split; [exact Hsp|].
    exists l1, l2, (map snd L1), input, (map snd L2). repeat split.
    + rewrite <- (map_snd_indexed (vin b) 0). fold (indexed_vin b).
      rewrite HL, map_app. reflexivity.
    + rewrite length_map. symmetry.
      rewrite <- (length_map fst L1).
      apply (seq_split_index (length (vin b)) _ _ (map fst L2)).
      rewrite <- (map_fst_indexed (vin b) 0). fold (indexed_vin b).
      rewrite HL, map_app. reflexivity.
    + exact Htx.
    + exact Hv.
    + intros input' Hin [Ht' Hv']. apply Hn.
      apply in_map_iff in Hin as ([j in'] & Hj & Hin). cbn [snd] in Hj. subst in'.
      rewrite map_app, in_app_iff. left. rewrite map_map.
      apply in_map_iff. exists (j, input'). split; [|exact Hin].
      unfold outpoint. cbn [snd]. congruence.
    + intros b' input' Hb' Hin [Ht' Hv']. apply Hn.
      rewrite map_app, in_app_iff. right.
      apply In_nth_error in Hin as (j & Hj).
      apply in_map_iff. exists (txid b', (j, input')). split.
      * unfold outpoint. cbn [snd]. congruence.
      * fold (writes l2). apply In_writes. eauto.
  - intros (Ht & b & <- & before & after & earlier & input & later
            & -> & Hvin & <- & [<- <-] & Hl & Ha).
    unfold writes. rewrite flat_map_app. cbn [flat_map].
    unfold indexed_vin at 2. rewrite Hvin, (indexed_app earlier input later 0).
    rewrite map_app. cbn [map Nat.add]. rewrite <- !app_assoc, app_assoc.
    rewrite <- app_comm_cons.
    apply spend_at_last_write; [exact Ht|].
    rewrite map_app, in_app_iff, map_map. intros [H | H].
    + apply in_map_iff in H as ([j input'] & Ho & Hin).
      apply in_combine_r in Hin. apply (Hl input' Hin).
      unfold outpoint in Ho. cbn [snd] in Ho. injection Ho as Ho1 Ho2. split; assumption.
    + apply in_map_iff in H as ([sp [j input']] & Ho & Hin).
      apply In_writes in Hin as (b' & Hb' & _ & Hj).
      apply nth_error_In in Hj. apply (Ha b' input' Hb' Hj).
      unfold outpoint in Ho. cbn [snd] in Ho. injection Ho as Ho1 Ho2. split; assumption.
Qed.

Lemma index_inner_keys clients txs t outspends :
  Obj.get t (make_outspendCache clients txs) = Some outspends ->
  NoDup (Obj.keys outspends).
Proof.
  rewrite make_outspendCache_fold. apply record_inner_keys.
  intros t' o H. discriminate H.
Qed.

(** When no output is spent twice, every input is the last to spend its
    output. *)
Lemma no_double_spend_last txs b i input :
  NoDup (spent_outpoints txs) -> In b txs -> nth_error (vin b) i = Some input ->
  last_spend txs (vin_txid input) (vin_vout input) b i.
Proof.
  intros Hnd Hb Hn. apply in_split in Hb as (before & after & ->).
  apply nth_error_split in Hn as (earlier & later & Hvin & Hlen).
  unfold spent_outpoints in Hnd. rewrite flat_map_app in Hnd.
  cbn [flat_map] in Hnd. apply NoDup_app in Hnd as (_ & _ & Hnd).
  apply NoDup_app in Hnd as (Hb & Hafter & _).
  exists before, after, earlier, input, later. repeat split; auto.
  - intros input' Hin [Ht Hv]. rewrite Hvin, map_app in Hb. cbn [map] in Hb.
    apply NoDup_app in Hb as (_ & _ & Hb). apply NoDup_cons in Hb as [Hx _].
    apply Hx, list_elem_of_In, in_map_iff. exists input'.
    split; [congruence | exact Hin].
  - intros b' input' Hb' Hin [Ht Hv].
    apply (Hafter (vin_txid input, vin_vout input)).
    + apply list_elem_of_In, in_map_iff. exists input. split; [reflexivity|].
      rewrite Hvin. apply in_or_app. right. left. reflexivity.
    + apply list_elem_of_In, in_flat_map. exists b'. split; [exact Hb'|].
      apply in_map_iff. exists input'. split; [congruence | exact Hin].
Qed.

End OutspendFacts.

(** ** The turns of the mempool-delta fan-out *)

Module MempoolFanoutFacts.
Import Json Server Session Fanout MempoolFanout Outspends ObjFacts OutspendFacts.

Ltac turn_cases :=
  repeat match goal with
         | |- context [match ?x with _ => _ end] => destruct x eqn:?
         end;
  cbn [t_client t_response t_cache put put_cached clear_track_mempool_tx
       track_tx set_track_mempool_tx];
  rewrite ?get_set_ne by discriminate; try reflexivity.

Section Turn.
Variable cfg : Config.
Variable col : Collab.
Variable chg : Change.
Variable outspendCache : Obj.t (Obj.t (nat * string)).
Variable addressCache : Obj.t (list Tx).
Variable removedAddressCache : Obj.t (list Tx).

Lemma turn_stats_track_tx t :
  track_tx (t_client (turn_stats col t)) = track_tx (t_client t).
Proof. unfold turn_stats. turn_cases. Qed.

Lemma turn_mempool_blocks_track_tx t :
  track_tx (t_client (turn_mempool_blocks col t)) = track_tx (t_client t).
Proof. unfold turn_mempool_blocks. turn_cases. Qed.

Lemma turn_tomahawk_track_tx t :
  track_tx (t_client (turn_tomahawk col t)) = track_tx (t_client t).
Proof. unfold turn_tomahawk. turn_cases. Qed.

Lemma turn_track_mempool_tx_track_tx t :
  track_tx (t_client (turn_track_mempool_tx cfg col chg t)) = track_tx (t_client t).
Proof. unfold turn_track_mempool_tx. turn_cases. Qed.

Lemma turn_track_address_track_tx t :
  track_tx (t_client (turn_track_address cfg col addressCache removedAddressCache t))
  = track_tx (t_client t).
Proof. unfold turn_track_address. turn_cases. Qed.

Lemma turn_track_addresses_track_tx t :
  track_tx (t_client (turn_track_addresses cfg col addressCache removedAddressCache t))
  = track_tx (t_client t).
Proof. unfold turn_track_addresses. turn_cases. Qed.

Lemma turn_track_scriptpubkeys_track_tx t :
  track_tx (t_client (turn_track_scriptpubkeys cfg col addressCache removedAddressCache t))
  = track_tx (t_client t).
Proof. unfold turn_track_scriptpubkeys. turn_cases. Qed.

Lemma turn_track_asset_track_tx t :
  track_tx (t_client (turn_track_asset col chg t)) = track_tx (t_client t).
Proof. unfold turn_track_asset. turn_cases. Qed.

(** The step of [track-tx] reports the outspends of the followed
    transaction when the index has some. *)
Lemma turn_track_tx_utxoSpent t txid outspends :
  track_tx (t_client t) = Some txid -> txid <> "" ->
  Obj.get txid outspendCache = Some outspends -> outspends <> [] ->
  Obj.get "utxoSpent" (t_response (turn_track_tx col chg outspendCache t))
  = Some (Some (stringify_outspends outspends)).
Proof.
  intros Ht Hne Hget Hin. unfold turn_track_tx. rewrite Ht.
  cbv zeta. change (default "" (Some txid)) with txid.
  assert (Htruthy : truthy_str (Some txid) = true).
  { unfold truthy_str, Decoder.truthy_str.
    destruct (String.eqb_spec txid ""); [contradiction | reflexivity]. }
  rewrite Htruthy, Hget.
  assert (Hlen : (0 <? length (Obj.keys outspends)) = true).
  { destruct outspends; [contradiction | reflexivity]. }
  rewrite Hlen. turn_cases; try discriminate; apply get_set_eq.
Qed.

Lemma turn_track_mempool_block_keeps t key :
  key <> "projected-block-transactions" ->
  Obj.get key (t_response (turn_track_mempool_block col t)) = Obj.get key (t_response t).
Proof.
  intros Hne. unfold turn_track_mempool_block.
  repeat match goal with
         | |- context [match ?x with _ => _ end] => destruct x eqn:?
         end; try reflexivity.
  cbn [t_response put_cached]. now apply get_set_ne.
Qed.

Lemma turn_track_rbf_keeps t key :
  key <> "rbfLatest" ->
  Obj.get key (t_response (turn_track_rbf col t)) = Obj.get key (t_response t).
Proof.
  intros Hne. unfold turn_track_rbf.
  repeat match goal with
         | |- context [if ?x then _ else _] => destruct x eqn:?
         end; try reflexivity; cbn [t_response put_cached]; now apply get_set_ne.
Qed.

Lemma turn_track_rbf_summary_keeps t key :
  key <> "rbfLatestSummary" ->
  Obj.get key (t_response (turn_track_rbf_summary col t)) = Obj.get key (t_response t).
Proof.
  intros Hne. unfold turn_track_rbf_summary.
  destruct (_ && _); [|reflexivity]. cbn [t_response put_cached]. now apply get_set_ne.
Qed.

(** The whole turn of a client that follows a transaction with outspends. *)
Lemma turn_utxoSpent c cache txid outspends :
  track_tx c = Some txid -> txid <> "" ->
  Obj.get txid outspendCache = Some outspends -> outspends <> [] ->
  Obj.get "utxoSpent"
    (t_response (turn cfg col chg outspendCache addressCache removedAddressCache c cache))
  = Some (Some (stringify_outspends outspends)).
Proof.
  intros Ht Hne Hget Hin. unfold turn.
  rewrite turn_track_rbf_summary_keeps, turn_track_rbf_keeps,
    turn_track_mempool_block_keeps by discriminate.
  apply (turn_track_tx_utxoSpent _ txid); try assumption.
  rewrite turn_track_asset_track_tx, turn_track_scriptpubkeys_track_tx,
    turn_track_addresses_track_tx, turn_track_address_track_tx,
    turn_track_mempool_tx_track_tx, turn_tomahawk_track_tx,
    turn_mempool_blocks_track_tx, turn_stats_track_tx.
  exact Ht.
Qed.
End Turn.

(** The visits are listed in the order of the clients. *)
Lemma visits_extend run clients : forall acc,
  exists extra, snd (fold_left (visit run) clients acc) = snd acc ++ extra.
Proof.
  induction clients as [|c clients IH]; intros acc; cbn [fold_left].
  - exists []. now rewrite app_nil_r.
  - destruct (IH (visit run acc c)) as (extra & ->).
    unfold visit. destruct (ready_open c); cbn [snd];
      rewrite <- app_assoc; eauto.
Qed.

Lemma visits_nth run clients : forall acc k c,
  nth_error clients k = Some c -> ready_open c = true ->
  exists cache,
    nth_error (snd (fold_left (visit run) clients acc)) (length (snd acc) + k)
    = Some (t_client (run c cache), frame_of (run c cache)).
Proof.
  induction clients as [|c' clients IH]; intros acc k c Hk Hopen;
    [destruct k; discriminate|].
  cbn [fold_left]. destruct k as [|k].
  - injection Hk as ->. exists (fst acc).
    destruct (visits_extend run clients (visit run acc c)) as (extra & ->).
    unfold visit. rewrite Hopen. cbn [snd].
    rewrite <- app_assoc, Nat.add_0_r, nth_error_app2 by lia.
    now rewrite Nat.sub_diag.
  - destruct (IH (visit run acc c') k c Hk Hopen) as (cache & H).
    exists cache. rewrite <- H. f_equal.
    unfold visit. destruct (ready_open c'); cbn [snd]; rewrite length_app; simpl; lia.
Qed.

(** A client whose socket is not open is passed over. *)
Lemma visits_nth_closed run clients : forall acc k c,
  nth_error clients k = Some c -> ready_open c = false ->
  nth_error (snd (fold_left (visit run) clients acc)) (length (snd acc) + k)
  = Some (c, None).
Proof.
  induction clients as [|c' clients IH]; intros acc k c Hk Hopen;
    [destruct k; discriminate|].
  cbn [fold_left]. destruct k as [|k].
  - injection Hk as ->.
    destruct (visits_extend run clients (visit run acc c)) as (extra & ->).
    unfold visit. rewrite Hopen. cbn [snd].
    rewrite <- app_assoc, Nat.add_0_r, nth_error_app2 by lia.
    now rewrite Nat.sub_diag.
  - rewrite <- (IH (visit run acc c') k c Hk Hopen). f_equal.
    unfold visit. destruct (ready_open c'); cbn [snd]; rewrite length_app; simpl; lia.
Qed.

End MempoolFanoutFacts.

(** ** Claim C7: the outspend index reaches the followers *)

Module OutspendClaims.
Import Json Server Session Fanout MempoolFanout Outspends Sample FanoutSample.
Import ObjFacts SerializerFacts OutspendFacts MempoolFanoutFacts.

(** C7, as stated, fails. When two new transactions spend the same output
    of a followed transaction, the second write replaces the first: the
    index and the response name the last spender only. And a follower
    whose socket is not open is sent nothing. *)
Lemma utxoSpent_counterexample :
  (In tx_b (newTransactions change_bc) /\
   nth_error (vin tx_b) 0 = Some (spend txid_a 0) /\
   track_tx follower = Some txid_a /\
   spend_at (make_outspendCache [follower] (newTransactions change_bc)) txid_a 0
     = Some (1, txid_c) /\
   snd (handleMempoolChange cfg starting change_bc initial [follower])
   = [(follower,
       Some ("{" +:+ quoted "utxoSpent" +:+ ": {" +:+ quoted "0" +:+ ":{"
               +:+ quoted "vin" +:+ ":1," +:+ quoted "txid" +:+ ":"
               +:+ quoted txid_c +:+ "}}}"))]) /\
  (track_tx closed_follower = Some txid_a /\
   ready_open closed_follower = false /\
   snd (handleMempoolChange cfg starting change_b initial [closed_follower])
   = [(closed_follower, None)]).
Proof. vm_compute. repeat split; left; reflexivity. Qed.

(** C7 (amended): the outspend index holds an entry at [t] and [v] exactly
    when some client follows [t] and an input of a new transaction spends
    output [v] of [t]; the entry is the index of the last such input, in
    the order of the new transactions and of their inputs, with the txid of
    its transaction. Every client with an open socket that follows [t] is
    then sent a response whose [utxoSpent] is the text of an object with
    one member for each key, of which that for [v] reads
    ["v":{"vin":i,"txid":"spender"}]. A
    client whose socket is not open is sent nothing. When the new
    transactions spend no output twice, every input that spends an output
    is the last to do so. *)
Theorem outspends_reach_followers cfg col chg s (clients : list Client) :
  let outspendCache := make_outspendCache clients (newTransactions chg) in
  let visits := snd (handleMempoolChange cfg col chg s clients) in
  (forall t v i spender,
     spend_at outspendCache t v = Some (i, spender) <->
     (exists c, In c clients /\ track_tx c = Some t /\ t <> "") /\
     (exists b, txid b = spender /\ last_spend (newTransactions chg) t v b i)) /\
  (forall k c t v b i,
     nth_error clients k = Some c -> ready_open c = true ->
     track_tx c = Some t -> t <> "" ->
     last_spend (newTransactions chg) t v b i ->
     exists c' response members,
       nth_error visits k = Some (c', Some (serializeResponse response)) /\
       Obj.get "utxoSpent" response
         = Some (Some ("{" +:+ join ","
                  (map (fun member : string * (nat * string) =>
                          quoted (fst member) +:+ ":" +:+ "{" +:+
                          ((quoted "vin" +:+ ":"
                              +:+ decimal (Z.of_nat (fst (snd member))))
                           +:+ "," +:+
                           (quoted "txid" +:+ ":" +:+ quoted (snd (snd member))))
                          +:+ "}")
                     members) +:+ "}")) /\
       In (decimal (Z.of_nat v), (i, txid b)) members /\
       NoDup (map fst members)) /\
  (forall k c, nth_error clients k = Some c -> ready_open c = false ->
     nth_error visits k = Some (c, None)) /\
  (NoDup (spent_outpoints (newTransactions chg)) ->
   forall b i input,
     In b (newTransactions chg) -> nth_error (vin b) i = Some input ->
     last_spend (newTransactions chg) (vin_txid input) (vin_vout input) b i).
Proof.
  cbv zeta.
  assert (Hindex : forall t v i spender,
     spend_at (make_outspendCache clients (newTransactions chg)) t v = Some (i, spender) <->
     (exists c, In c clients /\ track_tx c = Some t /\ t <> "") /\
     (exists b, txid b = spender /\ last_spend (newTransactions chg) t v b i)).
  { intros t v i spender. rewrite index_entry, trackedTxs_spec. reflexivity. }
  split; [exact Hindex|]. split; [|split].
  - intros k c t v b i Hk Hopen Ht Hne Hlast.
    assert (Hs : spend_at (make_outspendCache clients (newTransactions chg)) t v
                 = Some (i, txid b)).
    { apply Hindex. split.
      - exists c. split; [eapply nth_error_In; exact Hk | auto].
      - exists b. auto. }
    unfold spend_at in Hs.
    destruct (Obj.get t (make_outspendCache clients (newTransactions chg)))
      as [outspends|] eqn:Hget; [|discriminate Hs].
    cbn [mbind option_bind] in Hs.
    assert (Hne' : outspends <> []) by (intros ->; discriminate Hs).
    unfold handleMempoolChange. cbn [snd].
    match goal with |- context [fold_left (visit ?run) clients ?acc] =>
      destruct (visits_nth run clients acc k c Hk Hopen) as (cache & Hv)
    end.
    cbn [snd length Nat.add] in Hv.
    match type of Hv with _ = Some (t_client ?T, _) => set (T0 := T) in * end.
    assert (Hu : Obj.get "utxoSpent" (t_response T0)
                 = Some (Some (stringify_outspends outspends))).
    { apply (turn_utxoSpent _ _ _ _ _ _ _ _ t); assumption. }
    exists (t_client T0), (t_response T0), (Obj.enumerate outspends).
    split; [|split; [exact Hu|split]].
    + rewrite Hv. unfold frame_of.
      destruct (t_response T0); [discriminate Hu | reflexivity].
    + apply enumerate_In, get_Some_In, Hs.
    + apply enumerate_keys.
      apply (index_inner_keys clients (newTransactions chg) t), Hget.
  - intros k c Hk Hopen. unfold handleMempoolChange. cbn [snd].
    match goal with |- context [fold_left (visit ?run) clients ?acc] =>
      apply (visits_nth_closed run clients acc k c Hk Hopen)
    end.
  - intros Hnd b i input. apply no_double_spend_last, Hnd.
Qed.

Lemma outspends_reach_followers_witness :
  exists c' response members,
    nth_error (snd (handleMempoolChange cfg starting change_bc initial
                      [peer; follower])) 1
      = Some (c', Some (serializeResponse response)) /\
    Obj.get "utxoSpent" response
      = Some (Some ("{" +:+ join ","
               (map (fun member : string * (nat * string) =>
                       quoted (fst member) +:+ ":" +:+ "{" +:+
                       ((quoted "vin" +:+ ":"
                           +:+ decimal (Z.of_nat (fst (snd member))))
                        +:+ "," +:+
                        (quoted "txid" +:+ ":" +:+ quoted (snd (snd member))))
                       +:+ "}")
                  members) +:+ "}")) /\
    In (decimal (Z.of_nat 0), (1, txid tx_c)) members /\
    NoDup (map fst members).
Proof.
  apply (proj1 (proj2 (outspends_reach_followers cfg starting change_bc initial
                         [peer; follower]))
           1 follower txid_a 0 tx_c 1).
  - reflexivity.
  - reflexivity.
  - reflexivity.
  - discriminate.
  - exists [tx_b], [], [spend txid_b 1], (spend txid_a 0), [].
    split; [reflexivity|]. split; [reflexivity|]. split; [reflexivity|].
    split; [split; reflexivity|]. split.
    + intros input' [].
    + intros b' input' [].
Defined.

(** The scenario of the specification: the follower of [aa..aa] is sent
    [utxoSpent] with output 0 mapped to input 0 of [bb..bb]. *)
Example utxoSpent_scenario :
  snd (handleMempoolChange cfg starting change_b initial [follower])
  = [(follower,
      Some ("{" +:+ quoted "utxoSpent" +:+ ": {" +:+ quoted "0" +:+ ":{"
              +:+ quoted "vin" +:+ ":0," +:+ quoted "txid" +:+ ":"
              +:+ quoted txid_b +:+ "}}}"))].
Proof. vm_compute. reflexivity. Qed.

End OutspendClaims.

(** ** The serialization cache and the turns of the new-block fan-out *)

Module BlockFanoutFacts.
Import Json Server Session Fanout BlockFanout Projected ObjFacts ServerFacts.

Lemma append_inj_r p a b : p +:+ a = p +:+ b -> a = b.
Proof. induction p as [|c p IH]; simpl; [auto | intros [= H]; auto]. Qed.

Lemma full_key_inj i j : full_key i = full_key j -> i = j.
Proof. intros H. apply append_inj_r in H. now apply decimal_nat_inj. Qed.

Lemma delta_key_inj i j : delta_key i = delta_key j -> i = j.
Proof. intros H. apply append_inj_r in H. now apply decimal_nat_inj. Qed.

Lemma full_key_not_delta i j : full_key i <> delta_key j.
Proof. unfold full_key, delta_key. simpl. discriminate. Qed.

Lemma cache_sound_other col key text cache :
  other_key key -> cache_sound col cache -> cache_sound col (Obj.set key text cache).
Proof.
  intros Hk Hs index. destruct (Hk index) as [H1 H2].
  rewrite !get_set_ne by congruence. apply Hs.
Qed.

Lemma getCached_sound_other col key data cache :
  other_key key -> cache_sound col cache ->
  cache_sound col (snd (getCachedResponse key data cache)).
Proof.
  intros Hk Hs. unfold getCachedResponse.
  destruct (truthy_str _); cbn [snd]; [exact Hs | now apply cache_sound_other].
Qed.

Lemma put_cached_sound_other col k key data t :
  other_key key -> cache_sound col (t_cache t) ->
  cache_sound col (t_cache (put_cached k key data t)).
Proof. intros Hk Hs. cbn [put_cached t_cache]. now apply getCached_sound_other. Qed.

Ltac other_key_literal :=
  intros ?index; split; unfold full_key, delta_key; simpl; discriminate.

Lemma stringify_obj_truthy fields :
  truthy_str (Some (stringify (JObj fields))) = true.
Proof. reflexivity. Qed.

(** Reading the full form through a sound cache gives the text of this
    event, hit or miss, and leaves the cache sound. *)
Lemma getCached_full col index txs cache :
  projected_txs col index = Some txs -> cache_sound col cache ->
  let hit := getCachedResponse (full_key index)
               (JObj [("index", JNum (Z.of_nat index));
                      ("blockTransactions", JArr (map (compressTx col) txs))]) cache in
  fst hit = full_text col index txs /\ cache_sound col (snd hit).
Proof.
  intros Htxs Hs. cbv zeta. unfold getCachedResponse.
  destruct (proj1 (Hs index)) as [Hnone | (txs' & Htxs' & Hsome)].
  - rewrite Hnone. cbn [truthy_str Decoder.truthy_str fst snd]. split; [reflexivity|].
    intros j. destruct (Hs j) as [Hf Hd]. split.
    + destruct (Nat.eq_dec j index) as [->|Hne].
      * right. exists txs. split; [exact Htxs | apply get_set_eq].
      * rewrite get_set_ne; [exact Hf|]. intros E. apply full_key_inj in E. auto.
    + rewrite get_set_ne; [exact Hd|]. intros E. symmetry in E.
      now apply full_key_not_delta in E.
  - rewrite Hsome. assert (txs' = txs) as -> by congruence.
    unfold full_text. rewrite stringify_obj_truthy. cbn [fst snd default].
    split; [reflexivity | exact Hs].
Qed.

Lemma getCached_delta col index d cache :
  nth_error (getMempoolBlockDeltas col) index = Some d -> cache_sound col cache ->
  let hit := getCachedResponse (delta_key index)
               (JObj [("index", JNum (Z.of_nat index)); ("delta", delta_value d)])
               cache in
  fst hit = delta_text index d /\ cache_sound col (snd hit).
Proof.
  intros Hd Hs. cbv zeta. unfold getCachedResponse.
  destruct (proj2 (Hs index)) as [Hnone | (d' & Hd' & Hsome)].
  - rewrite Hnone. cbn [truthy_str Decoder.truthy_str fst snd]. split; [reflexivity|].
    intros j. destruct (Hs j) as [Hf Hdj]. split.
    + rewrite get_set_ne; [exact Hf|]. intros E. now apply full_key_not_delta in E.
    + destruct (Nat.eq_dec j index) as [->|Hne].
      * right. exists d. split; [exact Hd | apply get_set_eq].
      * rewrite get_set_ne; [exact Hdj|]. intros E. apply delta_key_inj in E. auto.
  - rewrite Hsome. assert (d' = d) as -> by congruence.
    unfold delta_text. rewrite stringify_obj_truthy. cbn [fst snd default].
    split; [reflexivity | exact Hs].
Qed.

Section Turn.
Variable col : Collab.
Variable ev : NewBlock.
Variable addressCache : Obj.t (list Tx).

Lemma turn_blocks_sound t :
  cache_sound col (t_cache t) -> cache_sound col (t_cache (turn_blocks ev t)).
Proof.
  intros Hs. unfold turn_blocks. destruct (want_blocks _); [|exact Hs].
  apply put_cached_sound_other; [other_key_literal | exact Hs].
Qed.

Lemma turn_stats_sound t :
  cache_sound col (t_cache t) -> cache_sound col (t_cache (turn_stats col t)).
Proof.
  intros Hs. unfold turn_stats. destruct (want_stats _); [|exact Hs].
  destruct (da_if_known _);
    repeat (apply put_cached_sound_other; [other_key_literal|]); exact Hs.
Qed.

Lemma turn_mempool_blocks_sound t :
  cache_sound col (t_cache t) -> cache_sound col (t_cache (turn_mempool_blocks col t)).
Proof.
  intros Hs. unfold turn_mempool_blocks. destruct (_ && _); [|exact Hs].
  apply put_cached_sound_other; [other_key_literal | exact Hs].
Qed.

Lemma turn_tomahawk_sound t :
  cache_sound col (t_cache t) -> cache_sound col (t_cache (turn_tomahawk col t)).
Proof.
  intros Hs. unfold turn_tomahawk. destruct (want_tomahawk _); [|exact Hs].
  apply put_cached_sound_other; [other_key_literal | exact Hs].
Qed.

Ltac block_cases :=
  repeat match goal with
         | |- context [match ?x with _ => _ end] => destruct x eqn:?
         end;
  cbn [bt stamped lift put_stamped t_client t_response t_cache put
       track_mempool_block];
  try reflexivity.

(** The steps that do not use the cache leave it, and the followed block,
    as they are. *)
Lemma turn_track_tx_same t :
  t_cache (turn_track_tx col ev t) = t_cache t /\
  t_client (turn_track_tx col ev t) = t_client t.
Proof. unfold turn_track_tx. split; block_cases. Qed.

Lemma turn_track_address_same b :
  t_cache (bt (turn_track_address col ev addressCache b)) = t_cache (bt b) /\
  t_client (bt (turn_track_address col ev addressCache b)) = t_client (bt b).
Proof. unfold turn_track_address. split; block_cases. Qed.

Lemma turn_track_addresses_same b :
  t_cache (bt (turn_track_addresses col ev addressCache b)) = t_cache (bt b) /\
  t_client (bt (turn_track_addresses col ev addressCache b)) = t_client (bt b).
Proof. unfold turn_track_addresses. split; block_cases. Qed.

Lemma turn_track_scriptpubkeys_same b :
  t_cache (bt (turn_track_scriptpubkeys col ev addressCache b)) = t_cache (bt b) /\
  t_client (bt (turn_track_scriptpubkeys col ev addressCache b)) = t_client (bt b).
Proof. unfold turn_track_scriptpubkeys. split; block_cases. Qed.

Lemma turn_track_asset_same b :
  t_cache (bt (turn_track_asset col ev b)) = t_cache (bt b) /\
  t_client (bt (turn_track_asset col ev b)) = t_client (bt b).
Proof. unfold turn_track_asset. split; block_cases. Qed.

Lemma put_cached_client k key data t :
  t_client (put_cached k key data t) = t_client t.
Proof. reflexivity. Qed.

Lemma turn_blocks_client t : t_client (turn_blocks ev t) = t_client t.
Proof. unfold turn_blocks. now destruct (want_blocks _). Qed.

Lemma turn_stats_client t : t_client (turn_stats col t) = t_client t.
Proof.
  unfold turn_stats. destruct (want_stats _); [|reflexivity].
  now destruct (da_if_known _).
Qed.

Lemma turn_mempool_blocks_client t : t_client (turn_mempool_blocks col t) = t_client t.
Proof. unfold turn_mempool_blocks. now destruct (_ && _). Qed.

Lemma turn_tomahawk_client t : t_client (turn_tomahawk col t) = t_client t.
Proof. unfold turn_tomahawk. now destruct (want_tomahawk _). Qed.

(** The step of the followed projected block. *)
Lemma turn_track_mempool_block_sound t :
  cache_sound col (t_cache t) ->
  cache_sound col (t_cache (turn_track_mempool_block col t)).
Proof.
  intros Hs. unfold turn_track_mempool_block.
  destruct (track_mempool_block _) as [| |index]; try exact Hs.
  destruct (isInSync col); [|exact Hs].
  destruct (nth_error (getMempoolBlockDeltas col) index) as [d|] eqn:Hd; [|exact Hs].
  destruct (nth_error (getMempoolBlocksWithTransactions col) index ≫= transactions)
    as [txs|] eqn:Htxs; [|exact Hs].
  destruct (0 <? length txs); [|exact Hs].
  destruct (length txs <? 2 * length (added d)); cbn [put_cached t_cache].
  - apply (getCached_full col index txs); assumption.
  - apply (getCached_delta col index d); assumption.
Qed.

Lemma turn_track_mempool_block_response t index d txs :
  cache_sound col (t_cache t) ->
  track_mempool_block (t_client t) = Index index -> isInSync col = true ->
  nth_error (getMempoolBlockDeltas col) index = Some d ->
  projected_txs col index = Some txs -> txs <> [] ->
  Obj.get "projected-block-transactions"
    (t_response (turn_track_mempool_block col t))
  = Some (Some (if 2 * length (added d) <=? length txs
                then delta_text index d else full_text col index txs)).
Proof.
  intros Hs Hi Hsync Hd Htxs Hne. unfold turn_track_mempool_block.
  unfold projected_txs in Htxs. rewrite Hi, Hsync, Hd, Htxs.
  assert (Hlen : (0 <? length txs) = true) by (destruct txs; [contradiction | reflexivity]).
  rewrite Hlen. rewrite Nat.leb_antisym.
  destruct (length txs <? 2 * length (added d)); cbn [negb put_cached t_response];
    rewrite get_set_eq; do 2 f_equal.
  - apply (getCached_full col index txs); assumption.
  - apply (getCached_delta col index d); assumption.
Qed.

(** The steps before it write other keys of the response. *)
Ltac block_others :=
  repeat match goal with
         | |- context [match ?x with _ => _ end] => destruct x eqn:?
         end;
  cbn [bt stamped lift put_stamped t_client t_response t_cache put put_cached];
  rewrite ?get_set_ne by discriminate; reflexivity.

Lemma turn_blocks_unprojected t :
  Obj.get "projected-block-transactions" (t_response (turn_blocks ev t))
  = Obj.get "projected-block-transactions" (t_response t).
Proof. unfold turn_blocks. block_others. Qed.

Lemma turn_stats_unprojected t :
  Obj.get "projected-block-transactions" (t_response (turn_stats col t))
  = Obj.get "projected-block-transactions" (t_response t).
Proof. unfold turn_stats. block_others. Qed.

Lemma turn_mempool_blocks_unprojected t :
  Obj.get "projected-block-transactions" (t_response (turn_mempool_blocks col t))
  = Obj.get "projected-block-transactions" (t_response t).
Proof. unfold turn_mempool_blocks. block_others. Qed.

Lemma turn_tomahawk_unprojected t :
  Obj.get "projected-block-transactions" (t_response (turn_tomahawk col t))
  = Obj.get "projected-block-transactions" (t_response t).
Proof. unfold turn_tomahawk. block_others. Qed.

Lemma turn_track_tx_unprojected t :
  Obj.get "projected-block-transactions" (t_response (turn_track_tx col ev t))
  = Obj.get "projected-block-transactions" (t_response t).
Proof. unfold turn_track_tx. block_others. Qed.

Lemma turn_track_address_unprojected b :
  Obj.get "projected-block-transactions"
    (t_response (bt (turn_track_address col ev addressCache b)))
  = Obj.get "projected-block-transactions" (t_response (bt b)).
Proof. unfold turn_track_address. block_others. Qed.

Lemma turn_track_addresses_unprojected b :
  Obj.get "projected-block-transactions"
    (t_response (bt (turn_track_addresses col ev addressCache b)))
  = Obj.get "projected-block-transactions" (t_response (bt b)).
Proof. unfold turn_track_addresses. block_others. Qed.

Lemma turn_track_scriptpubkeys_unprojected b :
  Obj.get "projected-block-transactions"
    (t_response (bt (turn_track_scriptpubkeys col ev addressCache b)))
  = Obj.get "projected-block-transactions" (t_response (bt b)).
Proof. unfold turn_track_scriptpubkeys. block_others. Qed.

Lemma turn_track_asset_unprojected b :
  Obj.get "projected-block-transactions"
    (t_response (bt (turn_track_asset col ev b)))
  = Obj.get "projected-block-transactions" (t_response (bt b)).
Proof. unfold turn_track_asset. block_others. Qed.

(** When its guard is not met, the step does nothing. *)
Lemma turn_track_mempool_block_skips t :
  nothing_projected col (t_client t) -> turn_track_mempool_block col t = t.
Proof.
  unfold nothing_projected, turn_track_mempool_block, projected_txs.
  destruct (track_mempool_block (t_client t)) as [| |index]; try reflexivity.
  intros [H | [H | [H | H]]].
  - now rewrite H.
  - destruct (isInSync col); [|reflexivity]. now rewrite H.
  - destruct (isInSync col); [|reflexivity].
    destruct (nth_error (getMempoolBlockDeltas col) index); [|reflexivity].
    now rewrite H.
  - destruct (isInSync col); [|reflexivity].
    destruct (nth_error (getMempoolBlockDeltas col) index); [|reflexivity].
    now rewrite H.
Qed.

(** The whole turn. *)
Lemma turn_skipped c cache marks :
  nothing_projected col c ->
  Obj.get "projected-block-transactions"
    (t_response (bt (turn col ev addressCache c cache marks))) = None.
Proof.
  intros Hn. unfold turn. cbn [lift bt].
  rewrite turn_track_mempool_block_skips.
  - rewrite turn_track_asset_unprojected, turn_track_scriptpubkeys_unprojected,
      turn_track_addresses_unprojected, turn_track_address_unprojected.
    cbn [lift bt].
    rewrite turn_track_tx_unprojected, turn_tomahawk_unprojected,
      turn_mempool_blocks_unprojected, turn_stats_unprojected,
      turn_blocks_unprojected.
    reflexivity.
  - rewrite (proj2 (turn_track_asset_same _)),
      (proj2 (turn_track_scriptpubkeys_same _)),
      (proj2 (turn_track_addresses_same _)),
      (proj2 (turn_track_address_same _)).
    cbn [lift bt]. rewrite (proj2 (turn_track_tx_same _)), turn_tomahawk_client,
      turn_mempool_blocks_client, turn_stats_client, turn_blocks_client.
    exact Hn.
Qed.

Lemma turn_sound c cache marks :
  cache_sound col cache ->
  cache_sound col (t_cache (bt (turn col ev addressCache c cache marks))).
Proof.
  intros Hs. unfold turn. cbn [lift bt].
  apply turn_track_mempool_block_sound.
  rewrite (proj1 (turn_track_asset_same _)),
    (proj1 (turn_track_scriptpubkeys_same _)),
    (proj1 (turn_track_addresses_same _)),
    (proj1 (turn_track_address_same _)).
  cbn [lift bt]. rewrite (proj1 (turn_track_tx_same _)).
  apply turn_tomahawk_sound, turn_mempool_blocks_sound, turn_stats_sound,
    turn_blocks_sound.
  exact Hs.
Qed.

Lemma turn_projected c cache marks index d txs :
  cache_sound col cache ->
  track_mempool_block c = Index index -> isInSync col = true ->
  nth_error (getMempoolBlockDeltas col) index = Some d ->
  projected_txs col index = Some txs -> txs <> [] ->
  Obj.get "projected-block-transactions"
    (t_response (bt (turn col ev addressCache c cache marks)))
  = Some (Some (if 2 * length (added d) <=? length txs
                then delta_text index d else full_text col index txs)).
Proof.
  intros Hs Hi Hsync Hd Htxs Hne. unfold turn. cbn [lift bt].
  apply turn_track_mempool_block_response; try assumption.
  - rewrite (proj1 (turn_track_asset_same _)),
      (proj1 (turn_track_scriptpubkeys_same _)),
      (proj1 (turn_track_addresses_same _)),
      (proj1 (turn_track_address_same _)).
    cbn [lift bt]. rewrite (proj1 (turn_track_tx_same _)).
    apply turn_tomahawk_sound, turn_mempool_blocks_sound, turn_stats_sound,
      turn_blocks_sound.
    exact Hs.
  - rewrite (proj2 (turn_track_asset_same _)),
      (proj2 (turn_track_scriptpubkeys_same _)),
      (proj2 (turn_track_addresses_same _)),
      (proj2 (turn_track_address_same _)).
    cbn [lift bt]. rewrite (proj2 (turn_track_tx_same _)), turn_tomahawk_client,
      turn_mempool_blocks_client, turn_stats_client, turn_blocks_client.
    exact Hi.
Qed.
End Turn.

(** The visits are listed in the order of the clients, and every turn
    starts from a sound cache. *)
Lemma block_visits_extend run clients : forall acc,
  exists extra,
    p_visits (fold_left (visit run) clients acc) = p_visits acc ++ extra.
Proof.
  induction clients as [|c clients IH]; intros acc; cbn [fold_left].
  - exists []. now rewrite app_nil_r.
  - destruct (IH (visit run acc c)) as (extra & ->).
    unfold visit. destruct (ready_open c); cbn [p_visits];
      rewrite <- app_assoc; eauto.
Qed.

Lemma block_visits_nth col run clients :
  (forall c cache marks, cache_sound col cache ->
                         cache_sound col (t_cache (bt (run c cache marks)))) ->
  forall acc k c,
  cache_sound col (p_cache acc) ->
  nth_error clients k = Some c -> ready_open c = true ->
  exists cache marks,
    cache_sound col cache /\
    nth_error (p_visits (fold_left (visit run) clients acc)) (length (p_visits acc) + k)
    = Some (t_client (bt (run c cache marks)), frame_of (bt (run c cache marks))).
Proof.
  intros Hrun. induction clients as [|c' clients IH]; intros acc k c Hs Hk Hopen;
    [destruct k; discriminate|].
  cbn [fold_left]. destruct k as [|k].
  - injection Hk as ->. exists (p_cache acc), (p_stamped acc). split; [exact Hs|].
    destruct (block_visits_extend run clients (visit run acc c)) as (extra & ->).
    unfold visit. rewrite Hopen. cbn [p_visits].
    rewrite <- app_assoc, Nat.add_0_r, nth_error_app2 by lia.
    now rewrite Nat.sub_diag.
  - assert (Hs' : cache_sound col (p_cache (visit run acc c'))).
    { unfold visit. destruct (ready_open c'); cbn [p_cache]; auto. }
    destruct (IH (visit run acc c') k c Hs' Hk Hopen) as (cache & marks & Hc & H).
    exists cache, marks. split; [exact Hc|]. rewrite <- H. f_equal.
    unfold visit. destruct (ready_open c'); cbn [p_visits];
      rewrite length_app; simpl; lia.
Qed.

(** Whatever the cache holds, an open client has its turn and a client
    whose socket is not open is passed over. *)
Lemma block_visits_open run clients : forall acc k c,
  nth_error clients k = Some c -> ready_open c = true ->
  exists cache marks,
    nth_error (p_visits (fold_left (visit run) clients acc)) (length (p_visits acc) + k)
    = Some (t_client (bt (run c cache marks)), frame_of (bt (run c cache marks))).
Proof.
  induction clients as [|c' clients IH]; intros acc k c Hk Hopen;
    [destruct k; discriminate|].
  cbn [fold_left]. destruct k as [|k].
  - injection Hk as ->. exists (p_cache acc), (p_stamped acc).
    destruct (block_visits_extend run clients (visit run acc c)) as (extra & ->).
    unfold visit. rewrite Hopen. cbn [p_visits].
    rewrite <- app_assoc, Nat.add_0_r, nth_error_app2 by lia.
    now rewrite Nat.sub_diag.
  - destruct (IH (visit run acc c') k c Hk Hopen) as (cache & marks & H).
    exists cache, marks. rewrite <- H. f_equal.
    unfold visit. destruct (ready_open c'); cbn [p_visits];
      rewrite length_app; simpl; lia.
Qed.

Lemma block_visits_closed run clients : forall acc k c,
  nth_error clients k = Some c -> ready_open c = false ->
  nth_error (p_visits (fold_left (visit run) clients acc)) (length (p_visits acc) + k)
  = Some (c, None).
Proof.
  induction clients as [|c' clients IH]; intros acc k c Hk Hopen;
    [destruct k; discriminate|].
  cbn [fold_left]. destruct k as [|k].
  - injection Hk as ->.
    destruct (block_visits_extend run clients (visit run acc c)) as (extra & ->).
    unfold visit. rewrite Hopen. cbn [p_visits].
    rewrite <- app_assoc, Nat.add_0_r, nth_error_app2 by lia.
    now rewrite Nat.sub_diag.
  - rewrite <- (IH (visit run acc c') k c Hk Hopen). f_equal.
    unfold visit. destruct (ready_open c'); cbn [p_visits];
      rewrite length_app; simpl; lia.
Qed.

(** The refresh of the snapshot writes none of the cache keys. *)
Lemma refreshed_cache_sound cfg col ev s :
  no_projected_field s ->
  cache_sound col (socketData (updateSocketDataFields (socketDataFields cfg col ev) s)).
Proof.
  intros Hno index. destruct (Hno index) as [Hf Hd].
  unfold updateSocketDataFields, socketDataFields. cbn [socketData fold_left].
  split; left.
  - rewrite !get_update_field_ne
      by (cbn [fst]; unfold full_key; simpl; discriminate).
    exact Hf.
  - rewrite !get_update_field_ne
      by (cbn [fst]; unfold delta_key; simpl; discriminate).
    exact Hd.
Qed.

End BlockFanoutFacts.

(** ** The followed projected block on a new block *)

Module ProjectedClaims.
Import Json Server Session Fanout BlockFanout Projected Sample BlockSample.
Import ObjFacts ServerFacts BlockFanoutFacts.

(** The snapshot keeps being free of cache keys of projected blocks: it
    is so at the start, and a new block leaves it so. *)
Lemma initial_no_projected_field : no_projected_field initial.
Proof. intros index. split; reflexivity. Qed.

Lemma handleNewBlock_no_projected_field cfg col ev s clients :
  no_projected_field s -> no_projected_field (fst (handleNewBlock cfg col ev s clients)).
Proof.
  intros Hno index. destruct (Hno index) as [Hf Hd].
  unfold handleNewBlock. cbn [fst].
  unfold updateSocketDataFields, socketDataFields. cbn [socketData fold_left].
  split.
  - rewrite !get_update_field_ne
      by (cbn [fst]; unfold full_key; simpl; discriminate).
    exact Hf.
  - rewrite !get_update_field_ne
      by (cbn [fst]; unfold delta_key; simpl; discriminate).
    exact Hd.
Qed.

(** C6, as stated, fails: the client follows the projected block 0, the
    mempool is in sync and there is a delta at index 0, but the block
    confirmed the whole mempool, no projected block is left at index 0,
    and the client is sent nothing. *)
Lemma projected_block_gone_counterexample :
  track_mempool_block watcher = Index 0 /\
  isInSync emptied = true /\
  nth_error (getMempoolBlockDeltas emptied) 0 <> None /\
  snd (handleNewBlock cfg emptied mined initial [watcher]) = [(watcher, None)].
Proof.
  split; [reflexivity|]. split; [reflexivity|].
  split; [discriminate | vm_compute; reflexivity].
Qed.

(** C6 (amended): on a new block, take a snapshot that has no field named
    like a cache key of a projected block, as the handler builds it. An
    open client that follows the projected block [index], while the mempool
    is in sync, a delta exists at [index] and the projected block at
    [index] has at least one transaction, is sent a response whose
    [projected-block-transactions] is the serialized [{index, delta}] when
    twice the number of added transactions is at most the number of
    transactions of the block, and the serialized
    [{index, blockTransactions}] with the compressed transactions of the
    block otherwise. An open client for which one of these conditions
    fails, the projected block being missing or without transactions for
    one, is sent nothing under that key, whatever the snapshot holds; a
    client whose socket is not open is sent nothing at all; and the
    snapshot the event leaves has no such field either. *)
Theorem projected_block_on_new_block cfg col ev s (clients : list Client) k c :
  nth_error clients k = Some c ->
  let visits := snd (handleNewBlock cfg col ev s clients) in
  (forall index d txs,
     no_projected_field s -> ready_open c = true ->
     track_mempool_block c = Index index -> isInSync col = true ->
     nth_error (getMempoolBlockDeltas col) index = Some d ->
     projected_txs col index = Some txs -> txs <> [] ->
     exists response c',
       nth_error visits k = Some (c', Some (serializeResponse response)) /\
       Obj.get "projected-block-transactions" response
         = Some (Some (if 2 * length (added d) <=? length txs
                       then stringify (JObj [("index", JNum (Z.of_nat index));
                                             ("delta", delta_value d)])
                       else stringify (JObj [("index", JNum (Z.of_nat index));
                                             ("blockTransactions",
                                              JArr (map (compressTx col) txs))])))) /\
  (ready_open c = true -> nothing_projected col c ->
   exists response c',
     nth_error visits k
       = Some (c', if 0 <? length (Obj.keys response)
                   then Some (serializeResponse response) else None) /\
     Obj.get "projected-block-transactions" response = None) /\
  (ready_open c = false -> nth_error visits k = Some (c, None)) /\
  (no_projected_field s ->
   no_projected_field (fst (handleNewBlock cfg col ev s clients))).
Proof.
  intros Hk. cbv zeta. split; [|split; [|split]].
  - intros index d txs Hno Hopen Hi Hsync Hd Htxs Hne.
    unfold handleNewBlock. cbn [snd].
    match goal with |- context [fold_left (visit ?run) clients ?acc] =>
      destruct (block_visits_nth col run clients (turn_sound col ev _) acc k c
                  (refreshed_cache_sound cfg col ev s Hno) Hk Hopen)
        as (cache & marks & Hs & Hv)
    end.
    cbn [p_visits length Nat.add] in Hv.
    match type of Hv with _ = Some (t_client ?T, _) => set (T0 := T) in * end.
    assert (Hp : Obj.get "projected-block-transactions" (t_response T0)
                 = Some (Some (if 2 * length (added d) <=? length txs
                               then delta_text index d else full_text col index txs))).
    { apply turn_projected; assumption. }
    exists (t_response T0), (t_client T0). split; [|exact Hp].
    rewrite Hv. unfold frame_of.
    destruct (t_response T0); [discriminate Hp | reflexivity].
  - intros Hopen Hn. unfold handleNewBlock. cbn [snd].
    match goal with |- context [fold_left (visit ?run) clients ?acc] =>
      destruct (block_visits_open run clients acc k c Hk Hopen)
        as (cache & marks & Hv)
    end.
    cbn [p_visits length Nat.add] in Hv.
    match type of Hv with _ = Some (t_client ?T, _) => set (T0 := T) in * end.
    assert (Hp : Obj.get "projected-block-transactions" (t_response T0) = None)
      by (apply turn_skipped, Hn).
    clearbody T0. exists (t_response T0), (t_client T0).
    split; [|exact Hp]. rewrite Hv. reflexivity.
  - intros Hopen. unfold handleNewBlock. cbn [snd].
    match goal with |- context [fold_left (visit ?run) clients ?acc] =>
      apply (block_visits_closed run clients acc k c Hk Hopen)
    end.
  - apply handleNewBlock_no_projected_field.
Qed.

Lemma projected_block_on_new_block_witness :
  (exists response c',
     nth_error (snd (handleNewBlock cfg (projecting [JStr "t1"]) mined initial
                       [peer; watcher])) 1
       = Some (c', Some (serializeResponse response)) /\
     Obj.get "projected-block-transactions" response
       = Some (Some ("{" +:+ quoted "index" +:+ ":0," +:+ quoted "delta" +:+ ":{"
                       +:+ quoted "added" +:+ ":[" +:+ quoted "t1" +:+ "],"
                       +:+ quoted "removed" +:+ ":[]," +:+ quoted "changed"
                       +:+ ":[]}}"))) /\
  (exists response c',
     nth_error (snd (handleNewBlock cfg emptied mined initial [peer; watcher])) 1
       = Some (c', if 0 <? length (Obj.keys response)
                   then Some (serializeResponse response) else None) /\
     Obj.get "projected-block-transactions" response = None).
Proof.
  split.
  - apply (proj1 (projected_block_on_new_block cfg (projecting [JStr "t1"]) mined
                    initial [peer; watcher] 1 watcher eq_refl)
             0 {| added := [JStr "t1"];
                  delta_value := JObj [("added", JArr [JStr "t1"]);
                                       ("removed", JArr []);
                                       ("changed", JArr [])] |}
             [JStr "t1"; JStr "t2"]).
    + intros index. split; reflexivity.
    + reflexivity.
    + reflexivity.
    + reflexivity.
    + reflexivity.
    + reflexivity.
    + discriminate.
  - apply (proj1 (proj2 (projected_block_on_new_block cfg emptied mined
                           initial [peer; watcher] 1 watcher eq_refl))).
    + reflexivity.
    + right. right. left. reflexivity.
Defined.

(** Both forms, as sent: a delta that adds one of the two transactions of
    the block, and one that adds both. *)
Example projected_delta_scenario :
  snd (handleNewBlock cfg (projecting [JStr "t1"]) mined initial [watcher])
  = [(watcher,
      Some ("{" +:+ quoted "projected-block-transactions" +:+ ": {"
              +:+ quoted "index" +:+ ":0," +:+ quoted "delta" +:+ ":{"
              +:+ quoted "added" +:+ ":[" +:+ quoted "t1" +:+ "],"
              +:+ quoted "removed" +:+ ":[]," +:+ quoted "changed" +:+ ":[]}}}"))].
Proof. vm_compute. reflexivity. Qed.

Example projected_full_scenario :
  snd (handleNewBlock cfg (projecting [JStr "t1"; JStr "t2"]) mined initial [watcher])
  = [(watcher,
      Some ("{" +:+ quoted "projected-block-transactions" +:+ ": {"
              +:+ quoted "index" +:+ ":0," +:+ quoted "blockTransactions" +:+ ":["
              +:+ quoted "t1" +:+ "," +:+ quoted "t2" +:+ "]}}"))].
Proof. vm_compute. reflexivity. Qed.

End ProjectedClaims.
